(** * nest-utils: data operations, configuration interpolation and
    request-parameter pipes, verified over a shallow embedding.

    The TypeScript sources embedded here are
    - [src/data/data-operation.ts]: [mergeData], [mergeDefault], [deepFreeze],
      [toDto];
    - [src/data/type-transform.ts]: [stringToInteger];
    - the ENV configuration loader: [replaceEnvVariable];
    - the integer ID pipe: [IntIdPipe.transform].

    JavaScript objects live in a heap of records addressed by location, so
    that reference identity, in-place assignment and [Object.freeze] are
    visible.  Recursive functions take a fuel argument that bounds the depth
    of the JavaScript call stack. *)

From Stdlib Require Import ZArith Ascii String.
From stdpp Require Import base numbers option list strings pretty.

Local Open Scope Z_scope.

(** ** Outcomes of a JavaScript evaluation *)

(** The exceptions the sources construct.  [Error msg] is [new Error(msg)],
    [BadRequestException msg] the NestJS exception of the pipes, and
    [TypeError] what strict-mode code raises on assignment to a frozen
    object (its message is engine specific and left out). *)
Inductive error : Type :=
  | Error (msg : string)
  | BadRequestException (msg : string)
  | TypeError.

(** A call either returns, throws, or exhausts the fuel that stands for the
    call stack or for the iterations of a loop. *)
Inductive outcome (A : Type) : Type :=
  | Ret (a : A)
  | Throw (e : error)
  | OutOfFuel.
Arguments Ret {A} a.
Arguments Throw {A} e.
Arguments OutOfFuel {A}.

Global Instance outcome_ret : MRet outcome := @Ret.
Global Instance outcome_bind : MBind outcome := λ A B f m,
  match m with
  | Ret a => f a
  | Throw e => Throw e
  | OutOfFuel => OutOfFuel
  end.

(** [for (const x of xs) { s = body(s, x) }], stopping at the first throw. *)
Fixpoint for_of {S A : Type} (xs : list A) (body : S → A → outcome S) (s : S)
  : outcome S :=
  match xs with
  | [] => Ret s
  | x :: xs' => s' ← body s x; for_of xs' body s'
  end.

(** ** Characters and decimal digits *)

Definition is_digit (c : ascii) : bool :=
  let n := nat_of_ascii c in (48 <=? n)%nat && (n <=? 57)%nat.

Definition digit_value (c : ascii) : Z := Z.of_nat (nat_of_ascii c) - 48.

(** The longest prefix of decimal digits of a string. *)
Fixpoint take_digits (s : string) : string :=
  match s with
  | String c s' => if is_digit c then String c (take_digits s') else EmptyString
  | EmptyString => EmptyString
  end.

(** The mathematical value of a string of decimal digits, most significant
    digit first. *)
Fixpoint digits_value (acc : Z) (s : string) : Z :=
  match s with
  | String c s' => digits_value (10 * acc + digit_value c) s'
  | EmptyString => acc
  end.

Fixpoint all_digits (s : string) : bool :=
  match s with
  | String c s' => is_digit c && all_digits s'
  | EmptyString => true
  end.

(** ** Property tables

    The own enumerable string-keyed properties of an object, in the order
    [Object.keys] reports them: array-index keys in ascending numeric order
    first, then the other keys in order of creation. *)

Section Props.
Context {A : Type}.

Fixpoint props_get (k : string) (ps : list (string * A)) : option A :=
  match ps with
  | [] => None
  | (k', v) :: ps' => if String.eqb k k' then Some v else props_get k ps'
  end.

Fixpoint props_replace (k : string) (v : A) (ps : list (string * A))
  : list (string * A) :=
  match ps with
  | [] => []
  | (k', v') :: ps' =>
      if String.eqb k k' then (k, v) :: ps'
      else (k', v') :: props_replace k v ps'
  end.

(** A key is an array index when it is the canonical decimal numeral of an
    integer below 2^32 - 1. *)
Definition array_index (k : string) : option Z :=
  match k with
  | EmptyString => None
  | String c rest =>
      if all_digits k
         && (negb (Ascii.eqb c "0") || String.eqb rest EmptyString)
         && (digits_value 0 k <? 4294967295)
      then Some (digits_value 0 k) else None
  end.

Fixpoint insert_index (n : Z) (k : string) (v : A) (ps : list (string * A))
  : list (string * A) :=
  match ps with
  | [] => [(k, v)]
  | (k', v') :: ps' =>
      match array_index k' with
      | Some n' =>
          if n' <? n then (k', v') :: insert_index n k v ps'
          else (k, v) :: ps
      | None => (k, v) :: ps
      end
  end.

(** Creating a property that does not exist yet. *)
Definition props_add (k : string) (v : A) (ps : list (string * A))
  : list (string * A) :=
  match array_index k with
  | Some n => insert_index n k v ps
  | None => ps ++ [(k, v)]
  end.

(** [o[k] = v] on the property table: an existing property keeps its
    place, a new one is created. *)
Definition props_set (k : string) (v : A) (ps : list (string * A))
  : list (string * A) :=
  match props_get k ps with
  | Some _ => props_replace k v ps
  | None => props_add k v ps
  end.
End Props.

(** [new Set(keys)] iterated: the keys without repetition, each at its first
    occurrence. *)
Fixpoint Set_add_all (seen keys : list string) : list string :=
  match keys with
  | [] => seen
  | k :: keys' =>
      Set_add_all (if existsb (String.eqb k) seen then seen else seen ++ [k])
                  keys'
  end.

Definition new_Set (keys : list string) : list string := Set_add_all [] keys.

(** ** Values, objects and the heap *)

Abbreviation loc := nat.

(** The numbers the sources handle: [Int z] is the double whose value is the
    integer [z], [NegZero] is [-0] and [Infinity] the two infinities.  [NaN]
    is not a value here: the sources test for it and throw. *)
Inductive number : Type :=
  | Int (z : Z)
  | NegZero
  | Infinity (negative : bool).

Coercion Int : Z >-> number.

(** JavaScript values.  Objects and arrays are references into the heap;
    functions are not represented. *)
Inductive val : Type :=
  | VUndefined
  | VNull
  | VBool (b : bool)
  | VNum (n : number)
  | VStr (s : string)
  | VRef (l : loc).

(** An object: whether it is an array ([Array.isArray]), whether
    [Object.freeze] was applied to it, and its own enumerable properties.
    The elements of an array are its properties at the keys "0", "1", ...
    What an object inherits is not represented: the members of
    [Object.prototype], those of [Array.prototype] and the [length] of an
    array.  The objects are plain objects and arrays, read and written at
    keys that are not the name of such a member. *)
Record object : Type := Obj {
  isArray : bool;
  frozen : bool;
  props : list (string * val);
}.

Abbreviation heap := (list object).

Definition empty_object : object := Obj false false [].

(** A location outside the heap stands for no object of the program; reading
    it gives the empty object so that every operation is total. *)
Definition deref (h : heap) (l : loc) : object := default empty_object (h !! l).

Definition alloc (h : heap) (o : object) : loc * heap := (length h, h ++ [o]).

(** [v[k]] for a key that [v] does not inherit: the own property, if any.
    The functions below apply it to objects only. *)
Definition get_prop (h : heap) (v : val) (k : string) : val :=
  match v with
  | VRef l => default VUndefined (props_get k (props (deref h l)))
  | _ => VUndefined
  end.

Definition Object_keys (h : heap) (v : val) : list string :=
  match v with
  | VRef l => (props (deref h l)).*1
  | _ => []
  end.

Definition Object_values (h : heap) (v : val) : list val :=
  match v with
  | VRef l => (props (deref h l)).*2
  | _ => []
  end.

Definition Array_isArray (h : heap) (v : val) : bool :=
  match v with
  | VRef l => isArray (deref h l)
  | _ => false
  end.

(** [v instanceof Object]: true of every object and array, false of
    primitives. *)
Definition instanceof_Object (v : val) : bool :=
  match v with
  | VRef _ => true
  | _ => false
  end.

Definition truthy (v : val) : bool :=
  match v with
  | VUndefined | VNull => false
  | VBool b => b
  | VNum (Int z) => negb (z =? 0)
  | VNum NegZero => false
  | VNum (Infinity _) => true
  | VStr s => negb (String.eqb s EmptyString)
  | VRef _ => true
  end.

Definition is_undefined (v : val) : bool :=
  match v with VUndefined => true | _ => false end.

Definition is_null (v : val) : bool :=
  match v with VNull => true | _ => false end.

Inductive js_type : Type :=
  | TUndefined | TObject | TBoolean | TNumber | TString.

Definition typeof (v : val) : js_type :=
  match v with
  | VUndefined => TUndefined
  | VNull | VRef _ => TObject
  | VBool _ => TBoolean
  | VNum _ => TNumber
  | VStr _ => TString
  end.

Definition is_object_type (t : js_type) : bool :=
  match t with TObject => true | _ => false end.

(** [o[k] = v] for the object at [l] and a key that is an own property of
    the object or that the object does not inherit (an assignment to
    [__proto__] would go to the inherited setter).  On a frozen object the
    assignment is rejected with a [TypeError] in strict-mode code and
    silently ignored otherwise; the heap is the same in both cases. *)
Definition assign (strict : bool) (h : heap) (l : loc) (k : string) (v : val)
  : outcome heap :=
  let o := deref h l in
  if frozen o then (if strict then Throw TypeError else Ret h)
  else Ret (<[l := Obj (isArray o) (frozen o) (props_set k v (props o))]> h).

(** [Object.freeze(v)]: a primitive is returned as it is. *)
Definition Object_freeze (h : heap) (v : val) : heap :=
  match v with
  | VRef l => let o := deref h l in <[l := Obj (isArray o) true (props o)]> h
  | _ => h
  end.

(** [a.slice()]: a new array with the elements of [a]. *)
Definition Array_slice (h : heap) (a : val) : loc * heap :=
  alloc h (Obj true false
             (match a with VRef l => props (deref h l) | _ => [] end)).

(** ** [mergeData] (data-operation.ts, lines 15-42) *)

(** The callback of [keys.forEach]; [output] is the object under
    construction and [mergeData] the recursive call. *)
Definition mergeData_body
    (mergeData : heap → val → val → outcome (val * heap))
    (data1 data2 : val) (output : loc) (h : heap) (key : string)
  : outcome heap :=
  let value1 := get_prop h data1 key in
  let value2 := get_prop h data2 key in
  if is_object_type (typeof value1) && is_object_type (typeof value2)
     && negb (is_null value1) && negb (is_null value2)
  then
    '(merged, h1) ← mergeData h value1 value2;
    assign true h1 output key merged
  else if negb (is_undefined value2) then assign true h output key value2
  else assign true h output key value1.

Fixpoint mergeData (fuel : nat) (h : heap) (data1 data2 : val)
  : outcome (val * heap) :=
  match fuel with
  | O => OutOfFuel
  | S fuel' =>
      let keys := new_Set (Object_keys h data1 ++ Object_keys h data2) in
      let '(output, h0) := alloc h empty_object in
      h' ← for_of keys (mergeData_body (mergeData fuel') data1 data2 output) h0;
      Ret (VRef output, h')
  end.

(** ** [mergeDefault] (data-operation.ts, lines 52-99) *)

Definition msg_invalid_data (key : string) : string :=
  "Invalid data: Array of object is not supported in key " +:+ key.

Definition msg_invalid_default (key : string) : string :=
  "Invalid default data: Array of object is not supported in key " +:+ key.

(** The body of [for (const key of keySet)]; [result] is the object under
    construction and [mergeDefault] the recursive call.  The three branches
    are tested in the order of the source. *)
Definition mergeDefault_body
    (mergeDefault : heap → val → val → outcome (val * heap))
    (data defaultData : val) (result : loc) (h : heap) (key : string)
  : outcome heap :=
  let value := get_prop h data key in
  let defaultValue := get_prop h defaultData key in
  if truthy defaultValue && instanceof_Object defaultValue then
    let '(objValue, h1) :=
      if truthy value && instanceof_Object value
         && negb (Array_isArray h value)
      then (value, h)
      else let '(fresh, h1) := alloc h empty_object in (VRef fresh, h1) in
    '(merged, h2) ← mergeDefault h1 objValue defaultValue;
    assign true h2 result key merged
  else if Array_isArray h defaultValue then
    if Array_isArray h value then
      if existsb instanceof_Object (Object_values h value)
      then Throw (Error (msg_invalid_data key))
      else
        let '(copy, h1) := Array_slice h value in
        assign true h1 result key (VRef copy)
    else
      if existsb instanceof_Object (Object_values h defaultValue)
      then Throw (Error (msg_invalid_default key))
      else
        let '(copy, h1) := Array_slice h defaultValue in
        assign true h1 result key (VRef copy)
  else
    assign true h result key (if is_undefined value then defaultValue else value).

Fixpoint mergeDefault (fuel : nat) (h : heap) (data defaultData : val)
  : outcome (val * heap) :=
  match fuel with
  | O => OutOfFuel
  | S fuel' =>
      let '(result, h0) := alloc h empty_object in
      let keySet :=
        new_Set (Object_keys h0 data ++ Object_keys h0 defaultData) in
      h' ← for_of keySet
             (mergeDefault_body (mergeDefault fuel') data defaultData result) h0;
      Ret (VRef result, h')
  end.

(** ** [deepFreeze] (data-operation.ts, lines 106-115) *)

Fixpoint deepFreeze (fuel : nat) (h : heap) (obj : val)
  : outcome (val * heap) :=
  if is_null obj || negb (is_object_type (typeof obj)) then Ret (obj, h)
  else
    match fuel with
    | O => OutOfFuel
    | S fuel' =>
        let h1 := Object_freeze h obj in
        h2 ← for_of (Object_values h1 obj)
               (λ hi value, '(_, hi') ← deepFreeze fuel' hi value; Ret hi') h1;
        Ret (obj, h2)
    end.

(** ** [parseInt(s, 10)]

    Strings are sequences of code units below 256.  [parseInt] below gives
    the integer the call reads, the sign applied, and [None] where the call
    returns [NaN].  The value of the call is the Number for that integer
    ([to_Number] below): the integer itself up to 2^53, and so for every
    string of at most 10 characters. *)

(** The white space and line terminator code units [parseInt] skips. *)
Definition is_white_space (c : ascii) : bool :=
  existsb (Nat.eqb (nat_of_ascii c)) [9; 10; 11; 12; 13; 32; 160]%nat.

Fixpoint trim_start (s : string) : string :=
  match s with
  | String c s' => if is_white_space c then trim_start s' else s
  | EmptyString => EmptyString
  end.

(** The sign and what follows it. *)
Definition split_sign (s : string) : Z * string :=
  match s with
  | String "-" r => (-1, r)
  | String "+" r => (1, r)
  | _ => (1, s)
  end.

Definition parseInt (s : string) : option Z :=
  let '(sign, rest) := split_sign (trim_start s) in
  match take_digits rest with
  | EmptyString => None
  | digits => Some (sign * digits_value 0 digits)
  end.

(** ** [IntIdPipe] *)

Definition MAX_POSTGRES_INT : Z := 2147483647.
Definition DEFAULT_NAME : string := "id".

Module IntIdPipe.
(** [transform(value)] of a pipe constructed with [name].  Past the first
    test the string has at most 10 characters, so the number compared and
    returned is the integer read. *)
Definition transform (name : string) (value : string) : outcome Z :=
  if (10 <? String.length value)%nat then
    Throw (BadRequestException (name +:+ " length must be less than 10"))
  else
    match parseInt value with
    | None =>
        Throw (BadRequestException (name +:+ " must be a positive integer"))
    | Some num =>
        if num <=? 0 then
          Throw (BadRequestException (name +:+ " must be a positive integer"))
        else if MAX_POSTGRES_INT <? num then
          Throw (BadRequestException
                   (name +:+ " must be less than 2147483647"))
        else Ret num
    end.
End IntIdPipe.

(** ** [stringToInteger] (type-transform.ts, lines 57-66) *)

(** The double nearest to the natural number [m], the tie going to the even
    significand: [m] itself up to 2^53, and beyond that [m] rounded to 53
    significant bits. *)
Definition round_to_double (m : Z) : Z :=
  if m <=? 2 ^ 53 then m
  else
    let e := Z.log2 m - 52 in
    let q := Z.shiftr m e in
    let r := m - Z.shiftl q e in
    let half := Z.shiftl 1 (e - 1) in
    let q' := if (half <? r) || ((r =? half) && Z.odd q) then q + 1 else q in
    Z.shiftl q' e.

(** The Number [parseInt] returns for the integer [n] it has read after the
    sign [sign]: [-0] for a zero after a minus sign, an infinity from 2^1024
    on, and otherwise the nearest double.  This is the rounding of V8, the
    engine of Node.js, which rounds the integer read whatever its length;
    the language lets an engine ignore the digits after the twentieth. *)
Definition to_Number (sign n : Z) : number :=
  if n =? 0 then (if sign =? -1 then NegZero else Int 0)
  else
    let d := round_to_double (Z.abs n) in
    if 2 ^ 1024 <=? d then Infinity (n <? 0) else Int (Z.sgn n * d).

(** [parseInt] above gives the integer read and [None] for [NaN]; the value
    of [parseInt(value, 10)] in the source is the Number for that integer. *)
Definition stringToInteger (value : val) (key : string) : outcome val :=
  match value with
  | VStr s =>
      match parseInt s with
      | None =>
          Throw (Error ("Value of " +:+ key +:+ " must be an integer but got "
                        +:+ s))
      | Some num => Ret (VNum (to_Number (split_sign (trim_start s)).1 num))
      end
  | _ => Ret value
  end.

(** ** [replaceEnvVariable] (the ENV configuration loader, lines 75-100) *)

Definition is_line_terminator (c : ascii) : bool :=
  existsb (Nat.eqb (nat_of_ascii c)) [10; 13]%nat.

(** [.*?(?=\})] at the head of [s]: the shortest run of characters other
    than line terminators that is followed by a closing brace. *)
Fixpoint lazy_until_brace (s : string) : option string :=
  match s with
  | EmptyString => None
  | String c s' =>
      if Ascii.eqb c "}" then Some EmptyString
      else if is_line_terminator c then None
      else String c <$> lazy_until_brace s'
  end.

(** [regex.exec(s)] for [/(?<=\$\{).*?(?=\})/g] with [lastIndex = 0]: the text
    of the leftmost match. *)
Fixpoint regex_exec (s : string) : option string :=
  match s with
  | EmptyString => None
  | String c s' =>
      match s' with
      | String c' rest =>
          if Ascii.eqb c "$" && Ascii.eqb c' "{" then
            match lazy_until_brace rest with
            | Some m => Some m
            | None => regex_exec s'
            end
          else regex_exec s'
      | EmptyString => None
      end
  end.

Fixpoint strip_prefix (p s : string) : option string :=
  match p, s with
  | EmptyString, _ => Some s
  | String a p', String b s' =>
      if Ascii.eqb a b then strip_prefix p' s' else None
  | String _ _, EmptyString => None
  end.

(** The text before and after the first occurrence of [pat] in [s]. *)
Fixpoint split_at_first (pat s : string) : option (string * string) :=
  match strip_prefix pat s with
  | Some post => Some (EmptyString, post)
  | None =>
      match s with
      | EmptyString => None
      | String c s' =>
          '(pre, post) ← split_at_first pat s'; Some (String c pre, post)
      end
  end.

(** The replacement text of [String.prototype.replace] for a string pattern
    (ECMAScript GetSubstitution without captures): [$$] stands for a dollar
    sign, [$&] for the matched text, [$`] and [$'] for the text before and
    after the match; any other character after [$] is literal. *)
Fixpoint GetSubstitution (matched pre post replacement : string) : string :=
  match replacement with
  | EmptyString => EmptyString
  | String c tl =>
      match tl with
      | String c' tl' =>
          if Ascii.eqb c "$" then
            if Ascii.eqb c' "$" then
              "$" +:+ GetSubstitution matched pre post tl'
            else if Ascii.eqb c' "&" then
              matched +:+ GetSubstitution matched pre post tl'
            else if Ascii.eqb c' "`" then
              pre +:+ GetSubstitution matched pre post tl'
            else if Ascii.eqb c' "'" then
              post +:+ GetSubstitution matched pre post tl'
            else String c (GetSubstitution matched pre post tl)
          else String c (GetSubstitution matched pre post tl)
      | EmptyString => String c EmptyString
      end
  end.

(** [s.replace(pat, replacement)] for a string [pat]: the first occurrence
    only. *)
Definition String_replace (s pat replacement : string) : string :=
  match split_at_first pat s with
  | Some (pre, post) => pre +:+ GetSubstitution pat pre post replacement +:+ post
  | None => s
  end.

(** The parsed ENV file: a key may be present with the value [undefined],
    which is [None]. *)
Abbreviation env := (list (string * option string)).

(** [parsed[key]] for a key that the file defines or that an object does
    not inherit: the own property, if any. *)
Definition env_get (key : string) (parsed : env) : option string :=
  default None (props_get key parsed).

Definition msg_self_reference (matchKey : string) : string :=
  "不可自己引用自己 " +:+ matchKey.

Definition msg_missing_variable (matchKey : string) : string :=
  "找無環境變數 " +:+ matchKey.

(** The [while (matchArray !== null)] loop for one key; each iteration
    consumes one unit of fuel. *)
Fixpoint replace_loop (fuel : nat) (key value : string) (parsed : env)
  : outcome env :=
  match regex_exec value with
  | None => Ret parsed
  | Some matchKey =>
      match fuel with
      | O => OutOfFuel
      | S fuel' =>
          let replaceValue := env_get matchKey parsed in
          if String.eqb matchKey key then
            Throw (Error (msg_self_reference matchKey))
          else
            match replaceValue with
            | None => Throw (Error (msg_missing_variable matchKey))
            | Some replaceValue =>
                let value' :=
                  String_replace value ("${" +:+ matchKey +:+ "}") replaceValue in
                replace_loop fuel' key value' (props_set key (Some value') parsed)
            end
      end
  end.

(** The body of the [for] loop over [keyList]; the state is the mapping
    [parsed], which is updated in place, and [result]. *)
Definition replaceEnvVariable_body (fuel : nat) (st : env * env) (key : string)
  : outcome (env * env) :=
  let '(parsed, result) := st in
  match env_get key parsed with
  | None => Ret (parsed, result)
  | Some value =>
      parsed' ← replace_loop fuel key value parsed;
      Ret (parsed', props_set key (env_get key parsed') result)
  end.

(** Returns [result] together with the final state of [parsed]. *)
Definition replaceEnvVariable (fuel : nat) (parsed : env) : outcome (env * env) :=
  let keyList := parsed.*1 in
  '(parsed', result) ← for_of keyList (replaceEnvVariable_body fuel) (parsed, []);
  Ret (result, parsed').

(** ** [toDto] (data-operation.ts, lines 128-158) *)

Definition LF : string := String (ascii_of_nat 10) EmptyString.

(** What the function reads of a class-validator [ValidationError]: its
    [constraints] map, which may be absent, from constraint key to message,
    and the text [error.toString()] returns. *)
Record ValidationError : Type := {
  constraints : option (list (string * string));
  toString : string;
}.

(** The [validate] argument: a boolean or a [ValidatorOptions] object. *)
Inductive validate_arg : Type :=
  | ValidateFlag (b : bool)
  | ValidateOptions (options : val).

Definition validate_truthy (v : validate_arg) : bool :=
  match v with
  | ValidateFlag b => b
  | ValidateOptions _ => true
  end.

(** [message += `- ${key}: ${error.constraints[key]}\n`]. *)
Definition append_constraint (message : string) (c : string * string) : string :=
  message +:+ "- " +:+ c.1 +:+ ": " +:+ c.2 +:+ LF.

(** The body of [for (const error of errors)]. *)
Definition append_error (message : string) (error : ValidationError) : string :=
  match constraints error with
  | Some cs => fold_left append_constraint cs message
  | None => message +:+ "- " +:+ toString error +:+ LF
  end.

Definition validation_message (errors : list ValidationError) : string :=
  fold_left append_error errors EmptyString.

Definition msg_validation_failed (name message : string) : string :=
  "DTO " +:+ name +:+ " 驗證失敗:" +:+ LF +:+ message.

Section ToDto.
(** The class-transformer and class-validator entry points, which are not
    part of the repository.  A DTO class is represented by its name. *)
Variable plainToInstance : string → val → val → heap → val * heap.
Variable validateSync : heap → val → option val → list ValidationError.
(** The module constant [{ excludeExtraneousValues: true }]. *)
Variable DEFAULT_TRANSFORM_OPTION : val.

(** [transformOption] is [None] when the caller omits it, in which case
    the default [{}] is created. *)
Definition toDto (fuel : nat) (h : heap) (dtoClass : string) (plainObj : val)
    (transformOption : option val) (validate : validate_arg)
  : outcome (val * heap) :=
  let '(transformOption, h0) :=
    match transformOption with
    | Some o => (o, h)
    | None => let '(l, h0) := alloc h empty_object in (VRef l, h0)
    end in
  '(options, h1) ← mergeDefault fuel h0 transformOption DEFAULT_TRANSFORM_OPTION;
  let '(instance, h2) := plainToInstance dtoClass plainObj options h1 in
  if negb (validate_truthy validate) then Ret (instance, h2)
  else
    let validateOption :=
      match validate with
      | ValidateOptions o => Some o
      | ValidateFlag _ => None
      end in
    let errors := validateSync h2 instance validateOption in
    if (0 <? length errors)%nat then
      Throw (Error (msg_validation_failed dtoClass (validation_message errors)))
    else Ret (instance, h2).
End ToDto.

(** ** [fromDto] and [toDtoList] (data-operation.ts, lines 160-203) *)

(** [array.map(callback)] for a callback that may throw and that works on the
    heap; the arrays are given by their elements. *)
Fixpoint Array_map (callback : val → nat → heap → outcome (val * heap))
    (index : nat) (array : list val) (h : heap) : outcome (list val * heap) :=
  match array with
  | [] => Ret ([], h)
  | item :: rest =>
      '(mapped, h1) ← callback item index h;
      '(others, h2) ← Array_map callback (S index) rest h1;
      Ret (mapped :: others, h2)
  end.

Definition msg_list_conversion (name : string) (index : nat) (text : string)
  : string :=
  "轉換 " +:+ name +:+ "[" +:+ pretty index +:+ "] 時發生錯誤:" +:+ text.

Section DtoConversions.
(** The class-transformer and class-validator entry points and
    [dto.constructor.name], which are not part of the repository; as in
    [toDto], the conversions are taken to return. *)
Variable plainToInstance : string → val → val → heap → val * heap.
Variable instanceToPlain : val → val → heap → val * heap.
Variable validateSync : heap → val → option val → list ValidationError.
Variable constructor_name : heap → val → string.
Variable DEFAULT_TRANSFORM_OPTION : val.
(** The text [`${error}`] of an exception that is not an [Error] with a
    message. *)
Variable engine_text : error → string.

(** The default [{}] of [transformOption] is created on entry; validation
    comes before the conversion. *)
Definition fromDto (fuel : nat) (h : heap) (dto : val)
    (transformOption : option val) (validate : validate_arg)
  : outcome (val * heap) :=
  let '(transformOption, h0) :=
    match transformOption with
    | Some o => (o, h)
    | None => let '(l, h0) := alloc h empty_object in (VRef l, h0)
    end in
  _ ← (if validate_truthy validate then
         let validateOption :=
           match validate with
           | ValidateOptions o => Some o
           | ValidateFlag _ => None
           end in
         let errors := validateSync h0 dto validateOption in
         if (0 <? length errors)%nat then
           Throw (Error (msg_validation_failed (constructor_name h0 dto)
                           (validation_message errors)))
         else Ret ()
       else Ret ());
  '(options, h1) ← mergeDefault fuel h0 transformOption DEFAULT_TRANSFORM_OPTION;
  Ret (instanceToPlain dto options h1).

(** [(error as Error).message || error] inside the template. *)
Definition caught_text (e : error) : string :=
  match e with
  | Error msg => if String.eqb msg EmptyString then engine_text e else msg
  | _ => engine_text e
  end.

(** The callback of [plainObjList.map]: [toDto] inside [try], the [catch]
    clause naming the index. *)
Definition toDtoList_callback (fuel : nat) (dtoClass : string)
    (transformOption : val) (validate : validate_arg)
    (plainObj : val) (index : nat) (h : heap) : outcome (val * heap) :=
  match toDto plainToInstance validateSync DEFAULT_TRANSFORM_OPTION
              fuel h dtoClass plainObj (Some transformOption) validate with
  | Ret r => Ret r
  | Throw e => Throw (Error (msg_list_conversion dtoClass index (caught_text e)))
  | OutOfFuel => OutOfFuel
  end.

(** [transformOption] is [None] when the caller omits it; its default is the
    module constant. *)
Definition toDtoList (fuel : nat) (h : heap) (dtoClass : string)
    (plainObjList : list val) (transformOption : option val)
    (validate : validate_arg) : outcome (list val * heap) :=
  Array_map
    (toDtoList_callback fuel dtoClass
       (default DEFAULT_TRANSFORM_OPTION transformOption) validate)
    0 plainObjList h.
End DtoConversions.

(** ** [ArrayUtils] (data-operation.ts, lines 205-217)

    Arrays are given by their elements.  [Set] and [Map] compare keys with
    SameValueZero, which on the values represented here is equality. *)

Global Instance number_eq_dec : EqDecision number.
Proof. solve_decision. Defined.

Global Instance val_eq_dec : EqDecision val.
Proof. solve_decision. Defined.

(** [set.add(x)]: a [Set] keeps its elements in order of insertion. *)
Definition Set_add (set : list val) (x : val) : list val :=
  if decide (x ∈ set) then set else set ++ [x].

(** [new Set(values)]. *)
Definition Set_from (values : list val) : list val := fold_left Set_add values [].

(** [map.has(k)] and [map.set(k, v)] on the entries of a [Map]. *)
Definition Map_has {V : Type} (map : list (val * V)) (k : val) : bool :=
  bool_decide (k ∈ map.*1).

Fixpoint Map_set {V : Type} (map : list (val * V)) (k : val) (v : V)
  : list (val * V) :=
  match map with
  | [] => [(k, v)]
  | (k', v') :: map' =>
      if decide (k = k') then (k, v) :: map' else (k', v') :: Map_set map' k v
  end.

Module ArrayUtils.
Definition unique (array : list val) : list val := Set_from array.

Definition difference (array1 array2 : list val) : list val :=
  let map2 := fold_left (λ map2 item, Map_set map2 item true) array2 [] in
  filter (λ item, Map_has map2 item = false) array1.
End ArrayUtils.

(** ** [StringIdPipe] *)

Definition DEFAULT_MAX_LENGTH : Z := 255.

Module StringIdPipe.
(** [transform(value)] of a pipe constructed with [name] and an integer
    [maxLength]. *)
Definition transform (name : string) (maxLength : Z) (value : string)
  : outcome string :=
  if String.eqb value EmptyString then
    Throw (BadRequestException (name +:+ " is required"))
  else if maxLength <? Z.of_nat (String.length value) then
    Throw (BadRequestException
             (name +:+ " length must be less than " +:+ pretty maxLength))
  else Ret value.
End StringIdPipe.

(** ** The transform functions of type-transform.ts *)

(** [s.toLowerCase()] on code units below 256: the letters A-Z and the
    accented capitals of Latin-1 move up by 32. *)
Definition toLowerCase_char (c : ascii) : ascii :=
  let n := nat_of_ascii c in
  if ((65 <=? n) && (n <=? 90)
      || (192 <=? n) && (n <=? 222) && negb (n =? 215))%nat
  then ascii_of_nat (n + 32) else c.

Fixpoint toLowerCase (s : string) : string :=
  match s with
  | String c s' => String (toLowerCase_char c) (toLowerCase s')
  | EmptyString => EmptyString
  end.

Fixpoint trim_end (s : string) : string :=
  match s with
  | String c s' =>
      let t := trim_end s' in
      if is_white_space c && String.eqb t EmptyString then EmptyString
      else String c t
  | EmptyString => EmptyString
  end.

(** [s.trim()]. *)
Definition String_trim (s : string) : string := trim_end (trim_start s).

(** Lines 6-18. *)
Definition stringToBoolean (value : val) (key : string) : outcome val :=
  match value with
  | VStr s =>
      let value := toLowerCase (String_trim s) in
      if String.eqb value "true" then Ret (VBool true)
      else if String.eqb value "false" then Ret (VBool false)
      else Throw (Error ("Value of " +:+ key
                         +:+ " must be 'true' or 'false' but got " +:+ value))
  | _ => Ret value
  end.

(** Lines 24-50. *)
Definition nullToUndefined (value : val) : val :=
  match value with VNull => VUndefined | _ => value end.

Definition undefinedToNull (value : val) : val :=
  match value with VUndefined => VNull | _ => value end.

Definition emptyStringToNull (value : val) : val :=
  match value with
  | VStr s => if String.eqb s EmptyString then VNull else value
  | _ => value
  end.

Definition emptyStringToUndefined (value : val) : val :=
  match value with
  | VStr s => if String.eqb s EmptyString then VUndefined else value
  | _ => value
  end.

(** Lines 88-93. *)
Definition stringToNull (value : val) : val :=
  match value with
  | VStr s => if String.eqb s "null" then VNull else value
  | _ => value
  end.

(** [s.split(separator)] for a string separator and no limit.  With the
    empty separator the string is cut into its code units; otherwise it is
    cut at the occurrences of the separator, found from left to right.
    Every cut removes at least one character, so the length of the string
    bounds their number. *)
Fixpoint String_chars (s : string) : list string :=
  match s with
  | String c s' => String c EmptyString :: String_chars s'
  | EmptyString => []
  end.

Fixpoint String_split_at (cuts : nat) (separator s : string) : list string :=
  match split_at_first separator s, cuts with
  | Some (pre, post), S cuts' => pre :: String_split_at cuts' separator post
  | _, _ => [s]
  end.

Definition String_split (s separator : string) : list string :=
  if String.eqb separator EmptyString then String_chars s
  else String_split_at (String.length s) separator s.

(** What a transform function returns when it may build an array: the value
    it was given, or a new array, given by its elements. *)
Inductive transformed : Type :=
  | SameValue (value : val)
  | NewArray (elements : list val).

Definition msg_not_a_number (key : string) (index : nat) (item : string)
  : string :=
  "Value of " +:+ key +:+ "[" +:+ pretty index +:+ "] must be a number but got '"
  +:+ item +:+ "'".

(** The callback of the second [map] of [stringToArray], [Number] being the
    conversion of JavaScript ([None] for [NaN]). *)
Fixpoint map_to_numbers (Number : string → option val) (key : string)
    (index : nat) (array : list string) : outcome (list val) :=
  match array with
  | [] => Ret []
  | item :: rest =>
      match Number item with
      | None => Throw (Error (msg_not_a_number key index item))
      | Some num =>
          nums ← map_to_numbers Number key (S index) rest; Ret (num :: nums)
      end
  end.

(** Lines 102-127.  The options are [None] when they are omitted. *)
Definition stringToArray (Number : string → option val)
    (delimiter elementType : option string) (value : val) (key : string)
  : outcome transformed :=
  let delimiter := default "," delimiter in
  let elementType := default "string" elementType in
  match value with
  | VStr s =>
      let array := String_trim <$> String_split s delimiter in
      if String.eqb elementType "string" then Ret (NewArray (VStr <$> array))
      else if String.eqb elementType "number" then
        nums ← map_to_numbers Number key 0 array; Ret (NewArray nums)
      else Throw (Error ("Unknown elementType: " +:+ elementType))
  | _ => Ret (SameValue value)
  end.

(** Lines 152-168.  [overwrite] and [copyUndefined] are [None] when they
    are omitted; [obj], the object being transformed, is given by its
    location. *)
Definition copyFrom (source : string) (overwrite copyUndefined : option bool)
    (h : heap) (value : val) (obj : loc) : val :=
  let overwrite := default true overwrite in
  let copyUndefined := default false copyUndefined in
  if negb overwrite && negb (is_undefined value) then value
  else
    let newValue := get_prop h (VRef obj) source in
    if negb copyUndefined && is_undefined newValue then value else newValue.

(** * Properties *)

(** ** Property tables *)

Section PropsFacts.
Context {A : Type}.
Implicit Types (k : string) (v : A) (ps : list (string * A)).

Lemma props_get_replace_eq k v ps :
  is_Some (props_get k ps) → props_get k (props_replace k v ps) = Some v.
Proof.
  induction ps as [|[k' v'] ps IH]; simpl.
  - intros [? ?]; discriminate.
  - destruct (String.eqb k k') eqn:E; simpl.
    + by rewrite String.eqb_refl.
    + rewrite E. exact IH.
Qed.

Lemma props_get_replace_ne k k' v ps :
  k ≠ k' → props_get k' (props_replace k v ps) = props_get k' ps.
Proof.
  intros Hne. induction ps as [|[k0 v0] ps IH]; simpl; [done|].
  destruct (String.eqb k k0) eqn:E; simpl.
  - apply String.eqb_eq in E. subst k0.
    destruct (String.eqb k' k) eqn:E'; [|done].
    apply String.eqb_eq in E'. congruence.
  - by rewrite IH.
Qed.

Lemma props_get_app k ps1 ps2 :
  props_get k (ps1 ++ ps2) =
  match props_get k ps1 with Some v => Some v | None => props_get k ps2 end.
Proof.
  induction ps1 as [|[k' v'] ps1 IH]; simpl; [done|].
  by destruct (String.eqb k k').
Qed.

Lemma props_get_insert_index_eq n k v ps :
  props_get k ps = None → props_get k (insert_index n k v ps) = Some v.
Proof.
  induction ps as [|[k' v'] ps IH]; simpl.
  - by rewrite String.eqb_refl.
  - destruct (String.eqb k k') eqn:E; [discriminate|]. intros Hnone.
    destruct (array_index k') as [n'|]; [destruct (n' <? n)%Z|]; simpl;
      rewrite ?E, ?String.eqb_refl; auto.
Qed.

Lemma props_get_insert_index_ne n k k' v ps :
  k ≠ k' → props_get k' (insert_index n k v ps) = props_get k' ps.
Proof.
  intros Hne.
  assert (String.eqb k' k = false) as Hk
    by (apply String.eqb_neq; congruence).
  induction ps as [|[k0 v0] ps IH]; simpl.
  - by rewrite Hk.
  - destruct (array_index k0) as [n'|]; [destruct (n' <? n)%Z|]; simpl;
      rewrite ?Hk, ?IH; done.
Qed.

Lemma props_get_set_eq k v ps : props_get k (props_set k v ps) = Some v.
Proof.
  unfold props_set, props_add.
  destruct (props_get k ps) as [v0|] eqn:E.
  - apply props_get_replace_eq. by rewrite E.
  - destruct (array_index k) as [n|].
    + by apply props_get_insert_index_eq.
    + rewrite props_get_app, E. simpl. by rewrite String.eqb_refl.
Qed.

Lemma props_get_set_ne k k' v ps :
  k ≠ k' → props_get k' (props_set k v ps) = props_get k' ps.
Proof.
  intros Hne. unfold props_set, props_add.
  destruct (props_get k ps) as [v0|] eqn:E.
  - by apply props_get_replace_ne.
  - destruct (array_index k) as [n|].
    + by apply props_get_insert_index_ne.
    + rewrite props_get_app. destruct (props_get k' ps); [done|]. simpl.
      destruct (String.eqb k' k) eqn:E'; [|done].
      apply String.eqb_eq in E'. congruence.
Qed.

(** The keys [Object.keys] lists are those at which a lookup succeeds. *)
Lemma elem_of_keys k ps : k ∈ ps.*1 ↔ is_Some (props_get k ps).
Proof.
  induction ps as [|[k' v'] ps IH]; simpl.
  - split; [by intros ?%elem_of_nil|by intros [? ?]].
  - rewrite elem_of_cons, IH. destruct (String.eqb k k') eqn:E.
    + apply String.eqb_eq in E. split; [by eauto|by left].
    + apply String.eqb_neq in E. split; [by intros [?|?]|by right].
Qed.

Lemma props_get_elem_of k v ps : props_get k ps = Some v → v ∈ ps.*2.
Proof.
  induction ps as [|[k' v'] ps IH]; simpl; [done|].
  destruct (String.eqb k k').
  - intros [= ->]. by left.
  - intros ?. right. auto.
Qed.
End PropsFacts.

(** ** Key sets *)

Lemma existsb_eqb_elem_of (k : string) (l : list string) :
  existsb (String.eqb k) l = true ↔ k ∈ l.
Proof.
  rewrite existsb_exists. split.
  - intros (x & Hx & ->%String.eqb_eq). by apply list_elem_of_In.
  - intros Hk. exists k. split; [by apply list_elem_of_In|apply String.eqb_refl].
Qed.

Lemma elem_of_Set_add_all (k : string) (seen keys : list string) :
  k ∈ Set_add_all seen keys ↔ k ∈ seen ∨ k ∈ keys.
Proof.
  revert seen. induction keys as [|k' keys IH]; intros seen; simpl.
  - rewrite elem_of_nil. tauto.
  - rewrite IH, elem_of_cons.
    destruct (existsb (String.eqb k') seen) eqn:E.
    + apply existsb_eqb_elem_of in E. split; [tauto|].
      intros [?|[->|?]]; auto.
    + rewrite elem_of_app, list_elem_of_singleton. tauto.
Qed.

Lemma elem_of_new_Set (k : string) (keys : list string) :
  k ∈ new_Set keys ↔ k ∈ keys.
Proof. unfold new_Set. rewrite elem_of_Set_add_all, elem_of_nil. tauto. Qed.

(** ** The [outcome] monad and [for_of] *)

Lemma bind_Ret_inv {A B : Type} (m : outcome A) (f : A → outcome B) (b : B) :
  m ≫= f = Ret b → ∃ a, m = Ret a ∧ f a = Ret b.
Proof. destruct m; simpl; [eauto|done|done]. Qed.

(** A loop whose iterations all return from states of the invariant
    returns. *)
Lemma for_of_returns {S A : Type} (I : S → Prop) (xs : list A)
    (body : S → A → outcome S) (s : S) :
  (∀ s x, x ∈ xs → I s → ∃ s', body s x = Ret s' ∧ I s') →
  I s → ∃ s', for_of xs body s = Ret s' ∧ I s'.
Proof.
  revert s. induction xs as [|x xs IH]; intros s Hstep Hs; simpl; [eauto|].
  destruct (Hstep s x) as (s1 & -> & Hs1); [by left|done|]. simpl.
  apply IH; [|done]. intros ????. apply Hstep; [by right|done].
Qed.

(** ** The heap *)

(** A value that, when it is a reference, refers to an object of the
    heap. *)
Definition valid (h : heap) (v : val) : Prop :=
  match v with
  | VRef l => (l < length h)%nat
  | _ => True
  end.

Lemma deref_app_l (h ext : heap) (l : loc) :
  (l < length h)%nat → deref (h ++ ext) l = deref h l.
Proof. intros Hl. unfold deref. by rewrite lookup_app_l. Qed.

Lemma deref_lookup (h : heap) (l : loc) (o : object) :
  h !! l = Some o → deref h l = o.
Proof. intros Hl. unfold deref. by rewrite Hl. Qed.

Lemma deref_middle (h0 ext : heap) (o : object) :
  deref (h0 ++ o :: ext) (length h0) = o.
Proof. apply deref_lookup, list_lookup_middle. done. Qed.

Lemma get_prop_app (h ext : heap) (v : val) (k : string) :
  valid h v → get_prop (h ++ ext) v k = get_prop h v k.
Proof. destruct v; simpl; try done. intros Hl. by rewrite deref_app_l. Qed.

(** Rewrites the reads of valid values in an extension of [h] into reads
    in [h]. *)
Ltac read_in h :=
  repeat match goal with
    | H : context [get_prop (h ++ ?e) ?v ?k] |- _ =>
        rewrite (get_prop_app h e v k) in H by done
    | |- context [get_prop (h ++ ?e) ?v ?k] =>
        rewrite (get_prop_app h e v k) by done
    end.

Lemma Object_keys_app (h ext : heap) (v : val) :
  valid h v → Object_keys (h ++ ext) v = Object_keys h v.
Proof. destruct v; simpl; try done. intros Hl. by rewrite deref_app_l. Qed.

Lemma Array_isArray_app (h ext : heap) (v : val) :
  valid h v → Array_isArray (h ++ ext) v = Array_isArray h v.
Proof. destruct v; simpl; try done. intros Hl. by rewrite deref_app_l. Qed.

Lemma elem_of_Object_keys (h : heap) (v : val) (k : string) :
  k ∈ Object_keys h v ↔
  ∃ l, v = VRef l ∧ is_Some (props_get k (props (deref h l))).
Proof.
  destruct v; simpl; try (rewrite elem_of_nil; split; [done|by intros (? & ? & ?)]).
  rewrite elem_of_keys. split; [eauto|]. by intros (? & [= <-] & ?).
Qed.

(** Assignment to the unfrozen object that sits at the end of [h0]. *)
Lemma assign_middle (strict : bool) (h0 ext : heap) (o : object)
    (k : string) (v : val) :
  frozen o = false →
  assign strict (h0 ++ o :: ext) (length h0) k v =
  Ret (h0 ++ Obj (isArray o) false (props_set k v (props o)) :: ext).
Proof.
  intros Hf. unfold assign. rewrite deref_middle, Hf. f_equal.
  replace (length h0) with (length h0 + 0)%nat at 1 by lia.
  by rewrite insert_app_r.
Qed.

(** ** Objects under construction

    While [mergeData] and [mergeDefault] fill the object they return, the
    heap is the heap [h0] of the call followed by that object [o] and by
    what the nested calls allocated. *)

(** [x] refers to a plain, unfrozen object among those allocated after the
    object under construction. *)
Definition fresh_plain (h0 : heap) (x : val) (ext : list object) : Prop :=
  ∃ i ox, x = VRef (length h0 + 1 + i)%nat ∧ ext !! i = Some ox
          ∧ isArray ox = false ∧ frozen ox = false.

(** One iteration assigns one property of the object under construction
    and only allocates besides. *)
Definition builds (body : heap → string → outcome heap) (h0 : heap)
    (P : string → val → list object → Prop) : Prop :=
  ∀ o ext key h',
    isArray o = false → frozen o = false →
    body (h0 ++ o :: ext) key = Ret h' →
    ∃ x more,
      h' = h0 ++ Obj false false (props_set key x (props o)) :: (ext ++ more)
      ∧ P key x (ext ++ more).

Definition monotone (P : string → val → list object → Prop) : Prop :=
  ∀ k x ext more, P k x ext → P k x (ext ++ more).

Lemma for_of_builds body h0 P keys :
  builds body h0 P → monotone P →
  ∀ o ext h',
    isArray o = false → frozen o = false →
    for_of keys body (h0 ++ o :: ext) = Ret h' →
    ∃ o' more,
      h' = h0 ++ o' :: (ext ++ more)
      ∧ isArray o' = false ∧ frozen o' = false
      ∧ (∀ k, k ∉ keys → props_get k (props o') = props_get k (props o))
      ∧ (∀ k, k ∈ keys →
           ∃ x, props_get k (props o') = Some x ∧ P k x (ext ++ more)).
Proof.
  intros Hbody Hmono. induction keys as [|key keys IH]; intros o ext h' Ha Hf.
  - simpl. intros [= <-]. exists o, []. rewrite app_nil_r.
    repeat split; try done. by intros k ?%elem_of_nil.
  - simpl. intros (h1 & Hstep & Hrest)%bind_Ret_inv.
    destruct (Hbody _ _ _ _ Ha Hf Hstep) as (x & m1 & -> & HP).
    apply IH in Hrest as (o' & m2 & -> & Ha' & Hf' & Hout & Hin); [|done..].
    exists o', (m1 ++ m2). rewrite app_assoc. repeat split; try done.
    + intros k Hk. rewrite Hout by (intros ?; apply Hk; by right).
      simpl. apply props_get_set_ne. intros ->. apply Hk. by left.
    + intros k Hk. destruct (decide (k ∈ keys)) as [Hk'|Hk'].
      * by apply Hin.
      * apply elem_of_cons in Hk as [->|?]; [|done].
        exists x. rewrite Hout by done. simpl.
        split; [apply props_get_set_eq|by apply Hmono].
Qed.

Lemma for_of_builds_returns body h0 P keys :
  builds body h0 P →
  (∀ o ext key, key ∈ keys → isArray o = false → frozen o = false →
     ∃ h', body (h0 ++ o :: ext) key = Ret h') →
  ∀ o ext, isArray o = false → frozen o = false →
    ∃ h', for_of keys body (h0 ++ o :: ext) = Ret h'.
Proof.
  intros Hbody Hret o ext Ha Hf.
  destruct (for_of_returns
    (λ s, ∃ o ext, s = h0 ++ o :: ext ∧ isArray o = false ∧ frozen o = false)
    keys body (h0 ++ o :: ext)) as (h' & Hh' & _); [|by eauto|by eauto].
  intros s key Hkey (o1 & e1 & -> & Ha1 & Hf1).
  destruct (Hret o1 e1 key Hkey Ha1 Hf1) as (h' & Hstep).
  exists h'. split; [done|].
  destruct (Hbody _ _ _ _ Ha1 Hf1 Hstep) as (x & m & -> & _). eauto.
Qed.

Lemma for_of_builds_no_throw body h0 P keys :
  builds body h0 P →
  (∀ o ext key e, isArray o = false → frozen o = false →
     body (h0 ++ o :: ext) key ≠ Throw e) →
  ∀ o ext e, isArray o = false → frozen o = false →
    for_of keys body (h0 ++ o :: ext) ≠ Throw e.
Proof.
  intros Hbody Hno. induction keys as [|key keys IH]; intros o ext e Ha Hf.
  - done.
  - simpl. destruct (body (h0 ++ o :: ext) key) as [h1| |] eqn:Hstep; simpl.
    + destruct (Hbody _ _ _ _ Ha Hf Hstep) as (x & m & -> & _). by apply IH.
    + intros [= <-]. by eapply Hno.
    + done.
Qed.

(** What a call of [mergeData] or [mergeDefault] that returns does to the
    heap: the result is a new plain object placed right after the heap of
    the call, which is kept as it was. *)
Definition allocates (call : heap → val → val → outcome (val * heap)) : Prop :=
  ∀ h a b r h',
    call h a b = Ret (r, h') →
    ∃ o ext, r = VRef (length h) ∧ h' = h ++ o :: ext
             ∧ isArray o = false ∧ frozen o = false.

(** A nested call made while the object at the end of [h0] was under
    construction: it started from some state of that object and of the
    later allocations, and what it allocated is still there. *)
Definition nested_call (call : heap → val → val → outcome (val * heap))
    (h0 : heap) (a b x : val) (ext : list object) : Prop :=
  ∃ op e0 e1,
    call (h0 ++ op :: e0) a b = Ret (x, h0 ++ op :: e0 ++ e1)
    ∧ (e0 ++ e1) `prefix_of` ext.

Lemma nested_call_app call h0 a b x ext more :
  nested_call call h0 a b x ext → nested_call call h0 a b x (ext ++ more).
Proof.
  intros (op & e0 & e1 & Hc & Hpre). exists op, e0, e1. split; [done|].
  by apply prefix_app_r.
Qed.

Lemma nested_call_intro call h0 o ext a b r h' :
  allocates call → call (h0 ++ o :: ext) a b = Ret (r, h') →
  ∃ more, h' = h0 ++ o :: (ext ++ more)
          ∧ nested_call call h0 a b r (ext ++ more).
Proof.
  intros Hcall Hc.
  destruct (Hcall _ _ _ _ _ Hc) as (ox & e2 & -> & -> & Hax & Hfx).
  exists (ox :: e2). rewrite <- app_assoc. split; [done|].
  exists o, ext, (ox :: e2). split; [|done].
  rewrite Hc. by rewrite <- app_assoc.
Qed.

Lemma nested_call_fresh_plain call h0 a b x ext :
  allocates call → nested_call call h0 a b x ext → fresh_plain h0 x ext.
Proof.
  intros Hcall (op & e0 & e1 & Hc & Hpre).
  destruct (Hcall _ _ _ _ _ Hc) as (ox & e2 & -> & Heq & Hax & Hfx).
  rewrite <- app_assoc in Heq. simpl in Heq.
  apply app_inv_head in Heq. injection Heq as Heq.
  apply app_inv_head in Heq. subst e1.
  exists (length e0), ox. split; [|split; [|done]].
  - f_equal. rewrite length_app. simpl. lia.
  - eapply prefix_lookup_Some; [|done]. by apply list_lookup_middle.
Qed.

(** ** Chains of references *)

(** Every chain of references that starts at [v] stays inside the heap and
    passes through at most [n] objects: the object graph under [v] is
    acyclic. *)
Fixpoint acyclic (n : nat) (h : heap) (v : val) : bool :=
  match v with
  | VRef l =>
      match n with
      | O => false
      | S m =>
          match h !! l with
          | Some o => forallb (acyclic m h) (props o).*2
          | None => false
          end
      end
  | _ => true
  end.

Lemma acyclic_valid n h v : acyclic n h v = true → valid h v.
Proof.
  destruct v as [| | | | |l], n; simpl; try done.
  destruct (h !! l) eqn:E; [|done].
  intros _. by eapply lookup_lt_Some.
Qed.

Lemma acyclic_app n h ext v :
  acyclic n h v = true → acyclic n (h ++ ext) v = true.
Proof.
  revert v. induction n as [|n IH]; intros [| | | | |l]; simpl; try done.
  destruct (h !! l) as [o|] eqn:E; [|done].
  rewrite (lookup_app_l_Some _ _ _ _ E). rewrite !forallb_forall.
  intros H v Hv. apply IH. by apply H.
Qed.

(** The objects a property of an acyclic object refers to are acyclic with
    a smaller bound; the property may be read in any extension of the
    heap. *)
Lemma acyclic_child n h ext v k l :
  acyclic n h v = true → get_prop (h ++ ext) v k = VRef l →
  ∃ m, n = S m ∧ acyclic m (h ++ ext) (VRef l) = true.
Proof.
  intros Hv. rewrite get_prop_app by by eapply acyclic_valid.
  destruct v as [| | | | |l0]; simpl; try done.
  destruct n as [|m]; [done|]. simpl in Hv.
  destruct (h !! l0) as [o|] eqn:E; [|done].
  rewrite (deref_lookup _ _ _ E).
  destruct (props_get k (props o)) as [x|] eqn:Ek; simpl; [|done].
  intros ->. exists m. split; [done|]. apply acyclic_app.
  rewrite forallb_forall in Hv. apply Hv, list_elem_of_In.
  by eapply props_get_elem_of.
Qed.

(** ** [mergeData] *)

Definition both_objects (value1 value2 : val) : bool :=
  is_object_type (typeof value1) && is_object_type (typeof value2)
  && negb (is_null value1) && negb (is_null value2).

Lemma both_objects_VRef value1 value2 :
  both_objects value1 value2 = true →
  ∃ l1 l2, value1 = VRef l1 ∧ value2 = VRef l2.
Proof. destruct value1, value2; try done. eauto. Qed.

(** The property [mergeData] stores at [key], [call] being the recursive
    call. *)
Definition mergeData_stores (call : heap → val → val → outcome (val * heap))
    (h0 : heap) (data1 data2 : val)
    (key : string) (x : val) (ext : list object) : Prop :=
  valid h0 data1 → valid h0 data2 →
  let value1 := get_prop h0 data1 key in
  let value2 := get_prop h0 data2 key in
  if both_objects value1 value2 then nested_call call h0 value1 value2 x ext
  else x = if is_undefined value2 then value1 else value2.

Lemma mergeData_stores_monotone call h0 data1 data2 :
  monotone (mergeData_stores call h0 data1 data2).
Proof.
  intros k x ext more H Hv1 Hv2. specialize (H Hv1 Hv2). simpl in *.
  destruct (both_objects _ _); [by apply nested_call_app|done].
Qed.

Lemma mergeData_body_builds call data1 data2 h0 :
  allocates call →
  builds (mergeData_body call data1 data2 (length h0)) h0
         (mergeData_stores call h0 data1 data2).
Proof.
  intros Hcall o ext key h' Ha Hf. unfold mergeData_body.
  fold (both_objects (get_prop (h0 ++ o :: ext) data1 key)
                     (get_prop (h0 ++ o :: ext) data2 key)).
  destruct (both_objects _ _) eqn:Hboth.
  - intros ([merged h1] & Hc & Hassign)%bind_Ret_inv.
    destruct (nested_call_intro _ _ _ _ _ _ _ _ Hcall Hc) as (more & -> & Hn).
    rewrite assign_middle in Hassign by done. injection Hassign as <-.
    exists merged, more. rewrite Ha. split; [done|].
    intros Hv1 Hv2. simpl. rewrite !get_prop_app in Hboth, Hn by done.
    by rewrite Hboth.
  - intros Hassign.
    assert (∃ x, assign true (h0 ++ o :: ext) (length h0) key x = Ret h' ∧
      x = if is_undefined (get_prop (h0 ++ o :: ext) data2 key)
          then get_prop (h0 ++ o :: ext) data1 key
          else get_prop (h0 ++ o :: ext) data2 key) as (x & Hx & Hxv).
    { destruct (is_undefined _); simpl in Hassign; eauto. }
    rewrite assign_middle in Hx by done. injection Hx as <-.
    exists x, []. rewrite Ha, app_nil_r. split; [done|].
    intros Hv1 Hv2. simpl. rewrite !get_prop_app in Hboth, Hxv by done.
    by rewrite Hboth.
Qed.

(** The recursive call a call with the given fuel makes. *)
Definition mergeData_rec (fuel : nat) : heap → val → val → outcome (val * heap) :=
  mergeData (pred fuel).

(** What a returning call of [mergeData] leaves: the heap of the call, then
    the output object, then the objects of the nested calls. *)
Lemma mergeData_spec fuel h data1 data2 r h' :
  mergeData fuel h data1 data2 = Ret (r, h') →
  ∃ o ext,
    r = VRef (length h) ∧ h' = h ++ o :: ext
    ∧ isArray o = false ∧ frozen o = false
    ∧ (∀ k, is_Some (props_get k (props o)) ↔
            k ∈ Object_keys h data1 ∨ k ∈ Object_keys h data2)
    ∧ (∀ k, k ∈ Object_keys h data1 ∨ k ∈ Object_keys h data2 →
            ∃ x, props_get k (props o) = Some x
                 ∧ mergeData_stores (mergeData_rec fuel) h data1 data2 k x ext).
Proof.
  revert h data1 data2 r h'.
  induction fuel as [|fuel IH]; intros h data1 data2 r h'; [done|].
  simpl. intros (hf & Hloop & [= <- <-])%bind_Ret_inv.
  assert (allocates (mergeData fuel)) as Hcall.
  { intros h1 a b r1 h1' H1.
    apply IH in H1 as (o & ext & ? & ? & ? & ? & _). eauto 10. }
  replace (h ++ [empty_object]) with (h ++ empty_object :: []) in Hloop by done.
  eapply for_of_builds in Hloop
    as (o & more & -> & Ha & Hf & Hout & Hin);
    [|by apply mergeData_body_builds|apply mergeData_stores_monotone|done..].
  exists o, more. simpl in *. repeat split; try done.
  - intros Hk.
    destruct (decide (k ∈ new_Set (Object_keys h data1 ++ Object_keys h data2)))
      as [Hin'|Hnin].
    + by apply elem_of_new_Set, elem_of_app in Hin'.
    + rewrite Hout in Hk by done. by destruct Hk.
  - intros Hk. destruct (Hin k) as (x & -> & _); [|done].
    by apply elem_of_new_Set, elem_of_app.
  - intros k Hk. apply Hin. by apply elem_of_new_Set, elem_of_app.
Qed.

Lemma mergeData_allocates fuel : allocates (mergeData fuel).
Proof.
  intros h a b r h' H.
  apply mergeData_spec in H as (o & ext & ? & ? & ? & ? & _). eauto 10.
Qed.

(** [mergeData] returns when the object graph under [data1] is acyclic and
    the fuel exceeds its depth. *)
Lemma mergeData_returns fuel n h data1 data2 :
  acyclic n h data1 = true → (n < fuel)%nat →
  ∃ r h', mergeData fuel h data1 data2 = Ret (r, h').
Proof.
  revert n h data1 data2.
  induction fuel as [|fuel IH]; intros n h data1 data2 Hac Hn; [lia|].
  simpl.
  destruct (for_of_builds_returns
    (mergeData_body (mergeData fuel) data1 data2 (length h)) h
    (mergeData_stores (mergeData fuel) h data1 data2)
    (new_Set (Object_keys h data1 ++ Object_keys h data2)))
    with (o := empty_object) (ext := @nil object) as (h' & Hh');
    [by apply mergeData_body_builds, mergeData_allocates| |done|done|].
  - intros o ext key _ Ha Hf. unfold mergeData_body.
    fold (both_objects (get_prop (h ++ o :: ext) data1 key)
                       (get_prop (h ++ o :: ext) data2 key)).
    destruct (both_objects _ _) eqn:Hboth.
    + destruct (both_objects_VRef _ _ Hboth) as (l1 & l2 & H1 & H2).
      destruct (acyclic_child _ _ _ _ _ _ Hac H1) as (m & -> & Hm).
      rewrite H1, H2.
      destruct (IH m (h ++ o :: ext) (VRef l1) (VRef l2) Hm) as (r & h1 & Hc);
        [lia|]. rewrite Hc. simpl.
      destruct (nested_call_intro _ _ _ _ _ _ _ _ (mergeData_allocates fuel) Hc)
        as (more & -> & _).
      rewrite assign_middle by done. eauto.
    + destruct (negb _); rewrite assign_middle by done; eauto.
  - simpl in Hh'. rewrite Hh'. simpl. eauto.
Qed.

(** ** [mergeDefault] *)

Lemma truthy_instanceof_Object v :
  truthy v && instanceof_Object v = instanceof_Object v.
Proof. by destruct v; simpl; rewrite ?andb_false_r. Qed.

(** The second test of the loop body, [Array.isArray(defaultValue)], is only
    reached when the first test has failed, and then it fails too: an array
    is an object. *)
Lemma array_test_fails h v :
  truthy v && instanceof_Object v = false → Array_isArray h v = false.
Proof. by destruct v. Qed.

(** [objValue]: the data value when it is an object other than an array. *)
Definition keeps_data_value (h : heap) (value : val) : bool :=
  truthy value && instanceof_Object value && negb (Array_isArray h value).

(** The property [mergeDefault] stores at [key], [call] being the recursive
    call. *)
Definition mergeDefault_stores (call : heap → val → val → outcome (val * heap))
    (h0 : heap) (data defaultData : val)
    (key : string) (x : val) (ext : list object) : Prop :=
  valid h0 data → valid h0 defaultData →
  let value := get_prop h0 data key in
  let defaultValue := get_prop h0 defaultData key in
  if instanceof_Object defaultValue then
    ∃ objValue,
      nested_call call h0 objValue defaultValue x ext
      ∧ (valid h0 value → keeps_data_value h0 value = true → objValue = value)
  else x = if is_undefined value then defaultValue else value.

Lemma mergeDefault_stores_monotone call h0 data defaultData :
  monotone (mergeDefault_stores call h0 data defaultData).
Proof.
  intros k x ext more H Hv1 Hv2. specialize (H Hv1 Hv2). simpl in *.
  destruct (instanceof_Object _); [|done].
  destruct H as (objValue & Hn & Hobj). exists objValue.
  split; [by apply nested_call_app|done].
Qed.

Lemma mergeDefault_body_builds call data defaultData h0 :
  allocates call →
  builds (mergeDefault_body call data defaultData (length h0)) h0
         (mergeDefault_stores call h0 data defaultData).
Proof.
  intros Hcall o ext key h' Ha Hf. unfold mergeDefault_body.
  set (hc := h0 ++ o :: ext).
  destruct (truthy (get_prop hc defaultData key)
            && instanceof_Object (get_prop hc defaultData key)) eqn:Hobj.
  - rewrite truthy_instanceof_Object in Hobj.
    fold (keeps_data_value hc (get_prop hc data key)).
    destruct (keeps_data_value hc (get_prop hc data key)) eqn:Hkeep.
    + intros ([merged h2] & Hc & Hassign)%bind_Ret_inv.
      destruct (nested_call_intro _ _ _ _ _ _ _ _ Hcall Hc) as (more & -> & Hn).
      rewrite assign_middle in Hassign by done. injection Hassign as <-.
      exists merged, more. rewrite Ha. split; [done|].
      intros Hv1 Hv2. simpl. subst hc.
      read_in h0. rewrite Hobj. eauto.
    + simpl. intros ([merged h2] & Hc & Hassign)%bind_Ret_inv.
      subst hc. rewrite <- app_assoc in Hc. simpl in Hc.
      destruct (nested_call_intro _ _ _ _ _ _ _ _ Hcall Hc) as (more & -> & Hn).
      rewrite assign_middle in Hassign by done. injection Hassign as <-.
      exists merged, ([empty_object] ++ more). rewrite Ha, app_assoc.
      split; [done|].
      intros Hv1 Hv2. simpl.
      read_in h0. rewrite Hobj.
      eexists. split; [done|].
      unfold keeps_data_value in *. intros Hv Hk.
      rewrite Array_isArray_app in Hkeep by done. congruence.
  - rewrite (array_test_fails _ _ Hobj). intros Hassign. subst hc.
    rewrite assign_middle in Hassign by done. injection Hassign as <-.
    eexists _, []. rewrite Ha, app_nil_r. split; [done|].
    intros Hv1 Hv2. simpl.
    rewrite truthy_instanceof_Object in Hobj.
    read_in h0. by rewrite Hobj.
Qed.

(** The recursive call a call with the given fuel makes. *)
Definition mergeDefault_rec (fuel : nat)
  : heap → val → val → outcome (val * heap) :=
  mergeDefault (pred fuel).

(** What a returning call of [mergeDefault] leaves: the heap of the call,
    then the result object, then the objects of the nested calls. *)
Lemma mergeDefault_spec fuel h data defaultData r h' :
  mergeDefault fuel h data defaultData = Ret (r, h') →
  ∃ o ext,
    r = VRef (length h) ∧ h' = h ++ o :: ext
    ∧ isArray o = false ∧ frozen o = false
    ∧ (valid h data → valid h defaultData →
       (∀ k, is_Some (props_get k (props o)) ↔
             k ∈ Object_keys h data ∨ k ∈ Object_keys h defaultData)
       ∧ (∀ k, k ∈ Object_keys h data ∨ k ∈ Object_keys h defaultData →
             ∃ x, props_get k (props o) = Some x
                  ∧ mergeDefault_stores (mergeDefault_rec fuel)
                      h data defaultData k x ext)).
Proof.
  revert h data defaultData r h'.
  induction fuel as [|fuel IH]; intros h data defaultData r h'; [done|].
  simpl. intros (hf & Hloop & [= <- <-])%bind_Ret_inv.
  assert (allocates (mergeDefault fuel)) as Hcall.
  { intros h1 a b r1 h1' H1.
    apply IH in H1 as (o & ext & ? & ? & ? & ? & _). eauto 10. }
  replace (h ++ [empty_object]) with (h ++ empty_object :: []) in Hloop by done.
  eapply for_of_builds in Hloop
    as (o & more & -> & Ha & Hf & Hout & Hin);
    [|by apply mergeDefault_body_builds|apply mergeDefault_stores_monotone
     |done..].
  exists o, more. simpl in *. repeat split; try done.
  - intros Hk. rewrite !Object_keys_app in Hout by done.
    destruct (decide (k ∈ new_Set (Object_keys h data
                                    ++ Object_keys h defaultData)))
      as [Hin'|Hnin].
    + by apply elem_of_new_Set, elem_of_app in Hin'.
    + rewrite Hout in Hk by done. by destruct Hk.
  - intros Hk. destruct (Hin k) as (x & -> & _); [|done].
    rewrite !Object_keys_app by done.
    by apply elem_of_new_Set, elem_of_app.
  - intros k Hk. apply Hin. rewrite !Object_keys_app by done.
    by apply elem_of_new_Set, elem_of_app.
Qed.

Lemma mergeDefault_allocates fuel : allocates (mergeDefault fuel).
Proof.
  intros h a b r h' H.
  apply mergeDefault_spec in H as (o & ext & ? & ? & ? & ? & _). eauto 10.
Qed.

(** [mergeDefault] returns when the object graph under [defaultData] is
    acyclic and the fuel exceeds its depth. *)
Lemma mergeDefault_returns fuel n h data defaultData :
  acyclic n h defaultData = true → (n < fuel)%nat →
  ∃ r h', mergeDefault fuel h data defaultData = Ret (r, h').
Proof.
  revert n h data defaultData.
  induction fuel as [|fuel IH]; intros n h data defaultData Hac Hn; [lia|].
  simpl.
  replace (h ++ [empty_object]) with (h ++ empty_object :: []) by done.
  destruct (for_of_builds_returns
    (mergeDefault_body (mergeDefault fuel) data defaultData (length h)) h
    (mergeDefault_stores (mergeDefault fuel) h data defaultData)
    (new_Set (Object_keys (h ++ [empty_object]) data
              ++ Object_keys (h ++ [empty_object]) defaultData)))
    with (o := empty_object) (ext := @nil object) as (h' & Hh');
    [by apply mergeDefault_body_builds, mergeDefault_allocates| |done|done|].
  - intros o ext key _ Ha Hf. unfold mergeDefault_body.
    set (hc := h ++ o :: ext).
    destruct (truthy (get_prop hc defaultData key)
              && instanceof_Object (get_prop hc defaultData key)) eqn:Hobj.
    + rewrite truthy_instanceof_Object in Hobj.
      destruct (get_prop hc defaultData key) as [| | | | |l] eqn:Hdv; try done.
      destruct (acyclic_child _ _ _ _ _ _ Hac Hdv) as (m & -> & Hm).
      destruct (truthy (get_prop hc data key) && _ && _).
      * destruct (IH m hc (get_prop hc data key) (VRef l) Hm)
          as (r & h1 & Hc); [lia|]. rewrite Hc. simpl.
        destruct (nested_call_intro _ _ _ _ _ _ _ _
                    (mergeDefault_allocates fuel) Hc) as (more & -> & _).
        rewrite assign_middle by done. eauto.
      * simpl. subst hc.
        apply (acyclic_app _ _ [empty_object]) in Hm.
        destruct (IH m _ (VRef (length (h ++ o :: ext))) (VRef l) Hm)
          as (r & h1 & Hc); [lia|]. rewrite Hc. simpl.
        rewrite <- app_assoc in Hc. simpl in Hc.
        destruct (nested_call_intro _ _ _ _ _ _ _ _
                    (mergeDefault_allocates fuel) Hc) as (more & -> & _).
        rewrite assign_middle by done. eauto.
    + rewrite (array_test_fails _ _ Hobj). subst hc.
      rewrite assign_middle by done. eauto.
  - rewrite Hh'. simpl. eauto.
Qed.

(** No call of [mergeDefault] throws: the two [throw] statements of the
    array branch are never reached. *)
Lemma mergeDefault_no_throw fuel h data defaultData e :
  mergeDefault fuel h data defaultData ≠ Throw e.
Proof.
  revert h data defaultData e.
  induction fuel as [|fuel IH]; intros h data defaultData e; [done|].
  simpl.
  replace (h ++ [empty_object]) with (h ++ empty_object :: []) by done.
  assert (for_of
    (new_Set (Object_keys (h ++ [empty_object]) data
              ++ Object_keys (h ++ [empty_object]) defaultData))
    (mergeDefault_body (mergeDefault fuel) data defaultData (length h))
    (h ++ [empty_object]) ≠ Throw e) as Hloop.
  { eapply for_of_builds_no_throw;
      [by apply mergeDefault_body_builds, mergeDefault_allocates| |done..].
    intros o ext key e' Ha Hf. unfold mergeDefault_body.
    set (hc := h ++ o :: ext).
    destruct (truthy (get_prop hc defaultData key)
              && instanceof_Object (get_prop hc defaultData key)) eqn:Hobj.
    - destruct (truthy (get_prop hc data key) && _ && _); simpl.
      + destruct (mergeDefault fuel hc _ _) as [[r h1]| |] eqn:Hc; simpl;
          [|exfalso; by eapply IH|done].
        destruct (nested_call_intro _ _ _ _ _ _ _ _
                    (mergeDefault_allocates fuel) Hc) as (more & -> & _).
        by rewrite assign_middle.
      + subst hc.
        destruct (mergeDefault fuel _ _ _) as [[r h1]| |] eqn:Hc; simpl;
          [|exfalso; by eapply IH|done].
        rewrite <- app_assoc in Hc. simpl in Hc.
        destruct (nested_call_intro _ _ _ _ _ _ _ _
                    (mergeDefault_allocates fuel) Hc) as (more & -> & _).
        by rewrite assign_middle.
    - rewrite (array_test_fails _ _ Hobj). subst hc. by rewrite assign_middle. }
  destruct (for_of _ _ _); simpl; [done|congruence|done].
Qed.

(** ** [deepFreeze] *)

(** [o'] is [o] with the same properties, possibly frozen since. *)
Definition frozen_version (o o' : object) : Prop :=
  props o' = props o ∧ isArray o' = isArray o
  ∧ (frozen o = true → frozen o' = true).

(** [h'] is [h] where some objects were frozen and nothing else changed. *)
Definition freezes (h h' : heap) : Prop := Forall2 frozen_version h h'.

(** The objects reached from a value through property values. *)
Inductive reach (h : heap) : val → loc → Prop :=
  | reach_here l : reach h (VRef l) l
  | reach_step l o v l' :
      h !! l = Some o → v ∈ (props o).*2 → reach h v l' →
      reach h (VRef l) l'.

Lemma freezes_refl h : freezes h h.
Proof. apply Forall_Forall2_diag, Forall_forall. by intros o _. Qed.

Lemma freezes_trans h1 h2 h3 : freezes h1 h2 → freezes h2 h3 → freezes h1 h3.
Proof.
  unfold freezes. rewrite !Forall2_same_length_lookup.
  intros [Hl12 H12] [Hl23 H23]. split; [congruence|].
  intros i o1 o3 Ho1 Ho3.
  destruct (h2 !! i) as [o2|] eqn:Ho2.
  - destruct (H12 _ _ _ Ho1 Ho2) as (? & ? & ?).
    destruct (H23 _ _ _ Ho2 Ho3) as (? & ? & ?).
    repeat split; [congruence..|auto].
  - apply lookup_ge_None in Ho2. apply lookup_lt_Some in Ho1. lia.
Qed.

Lemma freezes_lookup h h' l o :
  freezes h h' → h !! l = Some o →
  ∃ o', h' !! l = Some o' ∧ frozen_version o o'.
Proof. intros H Ho. by eapply Forall2_lookup_l. Qed.

Lemma freezes_frozen h h' l :
  freezes h h' → frozen (deref h l) = true → frozen (deref h' l) = true.
Proof.
  intros H. unfold deref. destruct (h !! l) as [o|] eqn:Ho; [|done].
  destruct (freezes_lookup _ _ _ _ H Ho) as (o' & -> & _ & _ & Hf). exact Hf.
Qed.

Lemma Object_freeze_freezes h v : freezes h (Object_freeze h v).
Proof.
  destruct v as [| | | | |l]; try apply freezes_refl. simpl.
  unfold deref. destruct (h !! l) as [o|] eqn:Ho; simpl.
  - rewrite <- (list_insert_id h l o Ho) at 1.
    apply Forall2_insert; [apply freezes_refl|done].
  - rewrite list_insert_ge; [apply freezes_refl|by apply lookup_ge_None].
Qed.

Lemma Object_freeze_frozen h l o :
  h !! l = Some o → frozen (deref (Object_freeze h (VRef l)) l) = true.
Proof.
  intros Ho. simpl. apply lookup_lt_Some in Ho.
  by erewrite deref_lookup by by apply list_lookup_insert_eq.
Qed.

Lemma Object_values_freezes h h' v :
  freezes h h' → Object_values h' v = Object_values h v.
Proof.
  intros H. destruct v as [| | | | |l]; try done. simpl. unfold deref.
  destruct (h !! l) as [o|] eqn:Ho.
  - destruct (freezes_lookup _ _ _ _ H Ho) as (o' & -> & Hp & _).
    simpl. by rewrite Hp.
  - rewrite lookup_ge_None_2; [done|].
    rewrite <- (Forall2_length _ _ _ H). by apply lookup_ge_None.
Qed.

Lemma acyclic_freezes n h h' v :
  freezes h h' → acyclic n h v = true → acyclic n h' v = true.
Proof.
  intros H. revert v.
  induction n as [|n IH]; intros [| | | | |l]; simpl; try done.
  destruct (h !! l) as [o|] eqn:Ho; [|done].
  destruct (freezes_lookup _ _ _ _ H Ho) as (o' & -> & Hp & _).
  rewrite Hp, !forallb_forall. intros Hall v Hv. apply IH. by apply Hall.
Qed.

Lemma reach_freezes h h' v l :
  freezes h h' → reach h v l → reach h' v l.
Proof.
  intros H. induction 1 as [l|l o v l' Ho Hv _ IH]; [constructor|].
  destruct (freezes_lookup _ _ _ _ H Ho) as (o' & Ho' & Hp & _).
  eapply reach_step; [done| |done]. by rewrite Hp.
Qed.

Lemma deepFreeze_primitive fuel h obj :
  instanceof_Object obj = false → deepFreeze fuel h obj = Ret (obj, h).
Proof. by destruct obj, fuel. Qed.

(** The loop of [deepFreeze] over the property values [vs], given what the
    recursive calls do (the induction hypothesis on the depth). *)
Lemma deepFreeze_loop (call : heap → val → outcome (val * heap)) h m vs :
  (∀ hi v, acyclic m hi v = true →
     ∃ hi', call hi v = Ret (v, hi') ∧ freezes hi hi'
            ∧ ∀ l, reach hi v l → frozen (deref hi' l) = true) →
  ∀ hi, freezes h hi → forallb (acyclic m h) vs = true →
    ∃ h', for_of vs (λ hi value, '(_, hi') ← call hi value; Ret hi') hi = Ret h'
          ∧ freezes hi h'
          ∧ ∀ v l, v ∈ vs → reach h v l → frozen (deref h' l) = true.
Proof.
  intros Hcall. induction vs as [|v vs IH]; intros hi Hhi Hall; simpl.
  - exists hi. split; [done|]. split; [apply freezes_refl|].
    by intros ?? ?%elem_of_nil.
  - simpl in Hall. apply andb_true_iff in Hall as [Hv Hvs].
    destruct (Hcall hi v) as (h1 & -> & Hf1 & Hr1);
      [by eapply acyclic_freezes|]. simpl.
    destruct (IH h1) as (h' & -> & Hf' & Hr'); [by eapply freezes_trans|done|].
    exists h'. split; [done|]. split; [by eapply freezes_trans|].
    intros v' l [->|Hin]%elem_of_cons Hreach; [|by eapply Hr'].
    eapply freezes_frozen; [done|]. by eapply Hr1, reach_freezes.
Qed.

(** [deepFreeze] on an acyclic object graph, with fuel for its depth. *)
Lemma deepFreeze_spec n h obj fuel :
  acyclic n h obj = true → (n ≤ fuel)%nat →
  ∃ h', deepFreeze fuel h obj = Ret (obj, h') ∧ freezes h h'
        ∧ ∀ l, reach h obj l → frozen (deref h' l) = true.
Proof.
  revert h obj fuel. induction n as [|n IH]; intros h obj fuel Hac Hfuel.
  - destruct obj; try done; rewrite deepFreeze_primitive by done;
      (eexists; split; [done|]; split; [apply freezes_refl|]);
      intros l Hr; inversion Hr.
  - destruct obj as [| | | | |l0];
      try (rewrite deepFreeze_primitive by done;
           (eexists; split; [done|]; split; [apply freezes_refl|]);
           intros l Hr; inversion Hr).
    destruct fuel as [|fuel]; [lia|]. simpl in Hac.
    destruct (h !! l0) as [o|] eqn:Ho; [|done].
    pose proof (Object_freeze_freezes h (VRef l0)) as Hfr.
    change (deepFreeze (S fuel) h (VRef l0)) with
      (h2 ← for_of (Object_values (Object_freeze h (VRef l0)) (VRef l0))
              (λ hi value, '(_, hi') ← deepFreeze fuel hi value; Ret hi')
              (Object_freeze h (VRef l0));
       Ret (VRef l0, h2)).
    rewrite (Object_values_freezes _ _ _ Hfr). simpl Object_values.
    rewrite (deref_lookup _ _ _ Ho).
    destruct (deepFreeze_loop (deepFreeze fuel) h n (props o).*2)
      with (hi := Object_freeze h (VRef l0)) as (h' & -> & Hf' & Hr');
      [|done|done|].
    { intros hi v Hv. apply IH; [done|lia]. }
    exists h'. split; [done|]. split; [by eapply freezes_trans|].
    intros l Hr. inversion Hr as [|? o' v l' Ho' Hv' Hr'']; subst.
    + eapply freezes_frozen; [done|]. by eapply Object_freeze_frozen.
    + rewrite Ho in Ho'. injection Ho' as <-. by eapply Hr'.
Qed.

(** Assignment to a frozen object leaves the heap as it is. *)
Lemma assign_frozen strict h l k v :
  frozen (deref h l) = true →
  assign strict h l k v = if strict then Throw TypeError else Ret h.
Proof. intros Hf. unfold assign. by rewrite Hf. Qed.

(** ** Reading results back *)

Lemma get_prop_VRef_inv h v k a :
  get_prop h v k = VRef a →
  ∃ l, v = VRef l ∧ props_get k (props (deref h l)) = Some (VRef a).
Proof.
  destruct v as [| | | | |l]; simpl; try discriminate.
  destruct (props_get k (props (deref h l))) as [x|] eqn:E; simpl;
    [|discriminate].
  intros ->. eauto.
Qed.

Lemma get_prop_VRef_valid h v k a : get_prop h v k = VRef a → valid h v.
Proof.
  intros (l & -> & Hk)%get_prop_VRef_inv. simpl.
  destruct (decide (l < length h)%nat) as [|Hge]; [done|].
  unfold deref in Hk. by rewrite lookup_ge_None_2 in Hk by lia.
Qed.

Lemma get_prop_VRef_key h v k a : get_prop h v k = VRef a → k ∈ Object_keys h v.
Proof.
  intros (l & -> & Hk)%get_prop_VRef_inv.
  apply elem_of_Object_keys. exists l. by rewrite Hk.
Qed.

Lemma Array_isArray_valid h v : Array_isArray h v = true → valid h v.
Proof.
  destruct v as [| | | | |l]; simpl; try done. intros Ha.
  destruct (decide (l < length h)%nat) as [|Hge]; [done|].
  unfold deref in Ha. by rewrite lookup_ge_None_2 in Ha by lia.
Qed.

(** The object a nested call has returned is found in the final heap. *)
Lemma nested_result_lookup (h0 : heap) (o : object) (e0 e1 ext : list object)
    (ox : object) (e2 : list object) :
  (e0 ++ e1) `prefix_of` ext → e1 = ox :: e2 →
  (h0 ++ o :: ext) !! length (h0 ++ o :: e0) = Some ox.
Proof.
  intros Hpre ->. rewrite length_app. simpl.
  rewrite lookup_app_r by lia.
  replace (length h0 + S (length e0) - length h0)%nat
    with (S (length e0)) by lia. simpl.
  eapply prefix_lookup_Some; [|done]. by apply list_lookup_middle.
Qed.

(** What [mergeData] returns for two values that are both objects, read in
    the heap the enclosing call returns. *)
Lemma mergeData_nested fuel h0 o ext a b x :
  nested_call (mergeData fuel) h0 a b x ext → valid h0 a → valid h0 b →
  ∃ merged om,
    x = VRef merged ∧ (length h0 < merged)%nat
    ∧ (h0 ++ o :: ext) !! merged = Some om
    ∧ isArray om = false
    ∧ (∀ k, k ∈ (props om).*1 ↔ k ∈ Object_keys h0 a ∨ k ∈ Object_keys h0 b)
    ∧ (∀ k, both_objects (get_prop h0 a k) (get_prop h0 b k) = false →
            k ∈ Object_keys h0 a ∨ k ∈ Object_keys h0 b →
            props_get k (props om) =
            Some (if is_undefined (get_prop h0 b k)
                  then get_prop h0 a k else get_prop h0 b k)).
Proof.
  intros (op & e0 & e1 & Hc & Hpre) Hva Hvb.
  destruct (mergeData_spec _ _ _ _ _ _ Hc)
    as (om & e2 & -> & Heq & Ha & Hf & Hkeys & Hst).
  rewrite <- app_assoc in Heq. simpl in Heq.
  apply app_inv_head in Heq. injection Heq as Heq.
  apply app_inv_head in Heq.
  rewrite !Object_keys_app in Hkeys, Hst by done.
  exists (length (h0 ++ op :: e0)), om. split; [done|].
  split; [rewrite length_app; simpl; lia|].
  split.
  { erewrite <- (nested_result_lookup h0 o e0 e1 ext) by done.
    f_equal. rewrite !length_app. done. }
  split; [done|]. split.
  - intros k. by rewrite elem_of_keys, Hkeys.
  - intros k Hboth Hk. destruct (Hst k Hk) as (x' & -> & Hx').
    unfold mergeData_stores in Hx'. simpl in Hx'.
    rewrite !get_prop_app in Hx' by done. rewrite Hboth in Hx'.
    rewrite Hx'; [done|..]; destruct a, b; simpl in *;
      rewrite ?length_app; simpl; lia.
Qed.

(** * The specification, claim by claim *)

(** ** C10 *)

(** C10.  In [mergeData(data1, data2)], when the values at a common key are
    both arrays, the call recurses into them as objects: provided the
    object graph under [data1] is acyclic, the call returns, and the result
    holds at that key a new object that is not an array, whose keys are the
    index keys of the two arrays and whose values, where the two elements
    are not both objects, are those of the second array where defined and
    of the first one elsewhere. *)
Theorem mergeData_arrays_merge_as_objects
    (fuel n : nat) (h : heap) (data1 data2 : val) (key : string) (a1 a2 : loc) :
  acyclic n h data1 = true → (n < fuel)%nat →
  get_prop h data1 key = VRef a1 → get_prop h data2 key = VRef a2 →
  Array_isArray h (VRef a1) = true → Array_isArray h (VRef a2) = true →
  ∃ output h' merged om,
    mergeData fuel h data1 data2 = Ret (VRef output, h')
    ∧ get_prop h' (VRef output) key = VRef merged
    ∧ (length h < merged)%nat
    ∧ h' !! merged = Some om
    ∧ isArray om = false
    ∧ (∀ k, k ∈ (props om).*1 ↔
            k ∈ Object_keys h (VRef a1) ∨ k ∈ Object_keys h (VRef a2))
    ∧ (∀ k, both_objects (get_prop h (VRef a1) k) (get_prop h (VRef a2) k)
            = false →
            k ∈ Object_keys h (VRef a1) ∨ k ∈ Object_keys h (VRef a2) →
            props_get k (props om) =
            Some (if is_undefined (get_prop h (VRef a2) k)
                  then get_prop h (VRef a1) k else get_prop h (VRef a2) k)).
Proof.
  intros Hac Hfuel H1 H2 Harr1 Harr2.
  destruct (mergeData_returns fuel n h data1 data2 Hac Hfuel) as (r & h' & Hm).
  destruct (mergeData_spec _ _ _ _ _ _ Hm)
    as (o & ext & -> & -> & Ha & Hf & Hkeys & Hst).
  destruct (Hst key) as (x & Hx & Hstored);
    [left; by eapply get_prop_VRef_key|].
  unfold mergeData_stores in Hstored. simpl in Hstored.
  rewrite H1, H2 in Hstored.
  specialize (Hstored (get_prop_VRef_valid _ _ _ _ H1)
                      (get_prop_VRef_valid _ _ _ _ H2)). simpl in Hstored.
  destruct (mergeData_nested _ _ o _ _ _ _ Hstored)
    as (merged & om & -> & Hnew & Hom & Haom & Hkom & Hvom);
    [by apply Array_isArray_valid..|].
  exists (length h), (h ++ o :: ext), merged, om.
  split; [done|]. split; [|done].
  simpl. rewrite deref_middle, Hx. done.
Qed.

(** For instance [data1 = {k: [1, 2]}] and [data2 = {k: [3]}]. *)
Definition heap_two_arrays : heap :=
  [ Obj true false [("0", VNum 1); ("1", VNum 2)];
    Obj true false [("0", VNum 3)];
    Obj false false [("k", VRef 0)];
    Obj false false [("k", VRef 1)] ].

Lemma mergeData_arrays_merge_as_objects_witness :
  ∃ output h' merged om,
    mergeData 3 heap_two_arrays (VRef 2) (VRef 3) = Ret (VRef output, h')
    ∧ get_prop h' (VRef output) "k" = VRef merged
    ∧ (length heap_two_arrays < merged)%nat
    ∧ h' !! merged = Some om
    ∧ isArray om = false
    ∧ (∀ k, k ∈ (props om).*1 ↔
            k ∈ Object_keys heap_two_arrays (VRef 0)
            ∨ k ∈ Object_keys heap_two_arrays (VRef 1))
    ∧ (∀ k, both_objects (get_prop heap_two_arrays (VRef 0) k)
                         (get_prop heap_two_arrays (VRef 1) k) = false →
            k ∈ Object_keys heap_two_arrays (VRef 0)
            ∨ k ∈ Object_keys heap_two_arrays (VRef 1) →
            props_get k (props om) =
            Some (if is_undefined (get_prop heap_two_arrays (VRef 1) k)
                  then get_prop heap_two_arrays (VRef 0) k
                  else get_prop heap_two_arrays (VRef 1) k)).
Proof.
  apply (mergeData_arrays_merge_as_objects 3 2 heap_two_arrays
           (VRef 2) (VRef 3) "k" 0 1); try reflexivity.
  unfold lt. apply le_n.
Defined.

(** Merging [[1, 2]] with [[3]] at the key ["k"] yields the plain object
    [{"0": 3, "1": 2}], allocated after the output object. *)
Example mergeData_two_arrays :
  mergeData 3 heap_two_arrays (VRef 2) (VRef 3) =
  Ret (VRef 4,
       heap_two_arrays
       ++ [ Obj false false [("k", VRef 5)];
            Obj false false [("0", VNum 3); ("1", VNum 2)] ]).
Proof. reflexivity. Qed.

(** ** A configuration and its defaults *)

(** A default instance with a nested object and scalars of several types,
    and a partial input that overrides two of them:
    [defaultData = {host: "localhost", port: 80, debug: false, db: {name: "x"}}],
    [data = {port: 8080, extra: null}]. *)
Definition heap_config : heap :=
  [ Obj false false [("name", VStr "x")];
    Obj false false [("host", VStr "localhost"); ("port", VNum 80);
                     ("debug", VBool false); ("db", VRef 0)];
    Obj false false [("port", VNum 8080); ("extra", VNull)] ].

Example mergeDefault_config :
  mergeDefault 3 heap_config (VRef 2) (VRef 1) =
  Ret (VRef 3,
       heap_config
       ++ [ Obj false false [("port", VNum 8080); ("extra", VNull);
                             ("host", VStr "localhost");
                             ("debug", VBool false); ("db", VRef 5)];
            Obj false false [];
            Obj false false [("name", VStr "x")] ]).
Proof. reflexivity. Qed.

(** ** C9 *)

(** C9.  [mergeDefault] mutates neither argument: when the object graph
    under [defaultData] is acyclic the call returns, every object of the
    heap of the call is in the final heap as it was (the arguments and all
    that they reach among them), and the result is an object that did not
    exist before the call. *)
Theorem mergeDefault_preserves_inputs
    (fuel n : nat) (h : heap) (data defaultData : val) :
  acyclic n h defaultData = true → (n < fuel)%nat →
  ∃ result h',
    mergeDefault fuel h data defaultData = Ret (VRef result, h')
    ∧ (∀ l o, h !! l = Some o → h' !! l = Some o)
    ∧ (∀ v k, valid h v → get_prop h' v k = get_prop h v k)
    ∧ h !! result = None
    ∧ is_Some (h' !! result).
Proof.
  intros Hac Hfuel.
  destruct (mergeDefault_returns fuel n h data defaultData Hac Hfuel)
    as (r & h' & Hm).
  destruct (mergeDefault_spec _ _ _ _ _ _ Hm)
    as (o & ext & -> & -> & _).
  exists (length h), (h ++ o :: ext). split; [done|]. split; [|split; [|split]].
  - intros l o' Ho'. by apply lookup_app_l_Some.
  - intros v k Hv. by apply get_prop_app.
  - by apply lookup_ge_None.
  - rewrite list_lookup_middle by done. eauto.
Qed.

Lemma mergeDefault_preserves_inputs_witness :
  ∃ result h',
    mergeDefault 3 heap_config (VRef 2) (VRef 1) = Ret (VRef result, h')
    ∧ (∀ l o, heap_config !! l = Some o → h' !! l = Some o)
    ∧ (∀ v k, valid heap_config v →
              get_prop h' v k = get_prop heap_config v k)
    ∧ heap_config !! result = None
    ∧ is_Some (h' !! result).
Proof.
  apply (mergeDefault_preserves_inputs 3 2 heap_config (VRef 2) (VRef 1)).
  - reflexivity.
  - unfold lt. apply le_n.
Defined.

(** ** C4 *)

(** C4.  For an acyclic object graph [obj], [deepFreeze(obj)] returns [obj]
    itself; afterwards every object reached from it is frozen, nothing else
    in the heap has changed (every object has the properties it had), and an
    assignment to a property of any such object is rejected in strict mode
    and ignored otherwise, the heap staying as it is.  For a primitive or
    [null] the call returns its argument and leaves the heap alone. *)
Theorem deepFreeze_freezes_reachable (fuel n : nat) (h : heap) (obj : val) :
  acyclic n h obj = true → (n ≤ fuel)%nat →
  ∃ h',
    deepFreeze fuel h obj = Ret (obj, h')
    ∧ freezes h h'
    ∧ (∀ v k, get_prop h' v k = get_prop h v k)
    ∧ (∀ l, reach h obj l →
         frozen (deref h' l) = true
         ∧ ∀ strict k v,
             assign strict h' l k v = if strict then Throw TypeError else Ret h')
    ∧ (instanceof_Object obj = false → h' = h).
Proof.
  intros Hac Hfuel.
  destruct (deepFreeze_spec n h obj fuel Hac Hfuel) as (h' & Hd & Hfr & Hreach).
  exists h'. split; [done|]. split; [done|]. split; [|split].
  - intros [| | | | |l] k; try done. simpl. unfold deref.
    destruct (h !! l) as [o|] eqn:Ho.
    + destruct (freezes_lookup _ _ _ _ Hfr Ho) as (o' & -> & Hp & _).
      simpl. by rewrite Hp.
    + rewrite lookup_ge_None_2; [done|].
      rewrite <- (Forall2_length _ _ _ Hfr). by apply lookup_ge_None.
  - intros l Hl. split; [by apply Hreach|].
    intros strict k v. apply assign_frozen. by apply Hreach.
  - intros Hprim. rewrite deepFreeze_primitive in Hd by done. congruence.
Qed.

(** The example of the specification: [{a: {b: 1}}]. *)
Definition heap_nested : heap :=
  [ Obj false false [("b", VNum 1)];
    Obj false false [("a", VRef 0)] ].

Lemma deepFreeze_freezes_reachable_witness :
  ∃ h',
    deepFreeze 2 heap_nested (VRef 1) = Ret (VRef 1, h')
    ∧ freezes heap_nested h'
    ∧ (∀ v k, get_prop h' v k = get_prop heap_nested v k)
    ∧ (∀ l, reach heap_nested (VRef 1) l →
         frozen (deref h' l) = true
         ∧ ∀ strict k v,
             assign strict h' l k v = if strict then Throw TypeError else Ret h')
    ∧ (instanceof_Object (VRef 1) = false → h' = heap_nested).
Proof.
  apply (deepFreeze_freezes_reachable 2 2 heap_nested (VRef 1)).
  - reflexivity.
  - apply le_n.
Defined.

(** After [deepFreeze({a: {b: 1}})], the assignment [obj.a.b = 2] is
    rejected in strict mode, ignored otherwise, and [obj.a.b] is still 1. *)
Example deepFreeze_nested :
  ∃ h',
    deepFreeze 2 heap_nested (VRef 1) = Ret (VRef 1, h')
    ∧ get_prop h' (VRef 1) "a" = VRef 0
    ∧ assign true h' 0 "b" (VNum 2) = Throw TypeError
    ∧ assign false h' 0 "b" (VNum 2) = Ret h'
    ∧ get_prop h' (VRef 0) "b" = VNum 1.
Proof. eexists. repeat split. Qed.

(** ** C1 and C2: arrays in [mergeDefault] *)

(** When the default value at a key is an array, the first test of the loop
    body, [defaultValue instanceof Object], already holds, so the object
    branch runs and the array branch never does: the result holds at that
    key a new object that is not an array. *)
Lemma mergeDefault_array_default_gives_plain_object
    (fuel : nat) (h : heap) (data defaultData r : val) (h' : heap) (key : string) :
  valid h data →
  Array_isArray h (get_prop h defaultData key) = true →
  mergeDefault fuel h data defaultData = Ret (r, h') →
  ∃ l, get_prop h' r key = VRef l ∧ (length h < l)%nat
       ∧ Array_isArray h' (VRef l) = false.
Proof.
  intros Hvd Harr Hm.
  destruct (get_prop h defaultData key) as [| | | | |a] eqn:Hdv; try done.
  destruct (mergeDefault_spec _ _ _ _ _ _ Hm)
    as (o & ext & -> & -> & Ha & Hf & Hspec).
  destruct Hspec as [Hkeys Hst]; [done|by eapply get_prop_VRef_valid|].
  destruct (Hst key) as (x & Hx & Hstored);
    [right; by eapply get_prop_VRef_key|].
  unfold mergeDefault_stores in Hstored. simpl in Hstored.
  rewrite Hdv in Hstored. simpl in Hstored.
  destruct Hstored as (objValue & Hn & _);
    [done|by eapply get_prop_VRef_valid|].
  apply nested_call_fresh_plain in Hn as (i & ox & -> & Hox & Haox & _);
    [|apply mergeDefault_allocates].
  exists (length h + 1 + i)%nat. simpl. rewrite deref_middle, Hx. simpl.
  split; [done|]. split; [lia|].
  erewrite deref_lookup; [done|].
  rewrite lookup_app_r by lia.
  replace (length h + 1 + i - length h)%nat with (S i) by lia. done.
Qed.

(** [defaultData = {k: [1, 2, 3]}]; [data] is [{}] at location 0 and
    [{k: [4, 5]}] at location 4. *)
Definition heap_array_default : heap :=
  [ Obj false false [];
    Obj true false [("0", VNum 1); ("1", VNum 2); ("2", VNum 3)];
    Obj false false [("k", VRef 1)];
    Obj true false [("0", VNum 4); ("1", VNum 5)];
    Obj false false [("k", VRef 3)] ].

(** C1 (the code departs from the specification).  With the default array
    [[1, 2, 3]] at the key ["k"], the result holds at ["k"] the plain
    object [{"0": 1, "1": 2, "2": 3}] and no array, both when [data] has no
    such key and when [data] has the array [[4, 5]] there, whose elements
    are then lost. *)
Theorem mergeDefault_array_default_evaluation :
  mergeDefault 3 heap_array_default (VRef 0) (VRef 2) =
    Ret (VRef 5,
         heap_array_default
         ++ [ Obj false false [("k", VRef 7)];
              Obj false false [];
              Obj false false [("0", VNum 1); ("1", VNum 2); ("2", VNum 3)] ])
  ∧ mergeDefault 3 heap_array_default (VRef 4) (VRef 2) =
    Ret (VRef 5,
         heap_array_default
         ++ [ Obj false false [("k", VRef 7)];
              Obj false false [];
              Obj false false [("0", VNum 1); ("1", VNum 2); ("2", VNum 3)] ]).
Proof. split; reflexivity. Qed.

(** [defaultData = {k: []}] at location 4 and [data = {k: [{a: 1}]}] at
    location 2; [defaultData = {k: [{a: 1}]}] at location 2 with
    [data = {}] at location 5. *)
Definition heap_array_of_object : heap :=
  [ Obj false false [("a", VNum 1)];
    Obj true false [("0", VRef 0)];
    Obj false false [("k", VRef 1)];
    Obj true false [];
    Obj false false [("k", VRef 3)];
    Obj false false [] ].

(** C2 (the code departs from the specification).  With the default [[]] and the
    data array [[{a: 1}]] at the key ["k"], [mergeDefault] returns a result,
    which holds the empty object at ["k"]; with a default array that itself
    contains an object, it returns a result as well.  No error is raised. *)
Theorem mergeDefault_array_of_object_evaluation :
  mergeDefault 4 heap_array_of_object (VRef 2) (VRef 4) =
    Ret (VRef 6,
         heap_array_of_object
         ++ [ Obj false false [("k", VRef 8)];
              Obj false false [];
              Obj false false [] ])
  ∧ mergeDefault 4 heap_array_of_object (VRef 5) (VRef 2) =
    Ret (VRef 6,
         heap_array_of_object
         ++ [ Obj false false [("k", VRef 8)];
              Obj false false [];
              Obj false false [("0", VRef 10)];
              Obj false false [];
              Obj false false [("a", VNum 1)] ]).
Proof. split; reflexivity. Qed.

(** ** Parsing integers *)

Fixpoint all_white (s : string) : bool :=
  match s with
  | String c s' => is_white_space c && all_white s'
  | EmptyString => true
  end.

(** The first character of [s], if any, satisfies [p]. *)
Definition head_is (p : ascii → bool) (s : string) : bool :=
  match s with
  | String c _ => p c
  | EmptyString => false
  end.

(** What "parseable as an integer" means for [parseInt(s, 10)]: [s] is white
    space, then an optional sign, then a non-empty run of decimal digits
    [ds] that is not followed by a further digit; the integer is the value
    of [ds] with that sign. *)
Definition parses_as (s : string) (n : Z) : Prop :=
  ∃ ws sgn sg ds rest,
    s = ws +:+ sgn +:+ ds +:+ rest
    ∧ all_white ws = true
    ∧ ((sgn = "" ∧ sg = 1) ∨ (sgn = "+" ∧ sg = 1) ∨ (sgn = "-" ∧ sg = -1))
    ∧ ds ≠ "" ∧ all_digits ds = true
    ∧ head_is is_digit rest = false
    ∧ n = sg * digits_value 0 ds.

Lemma string_app_cons (c : ascii) (s t : string) :
  String c s +:+ t = String c (s +:+ t).
Proof. reflexivity. Qed.

Lemma string_app_nil_l (s : string) : "" +:+ s = s.
Proof. reflexivity. Qed.

Lemma string_app_assoc (s1 s2 s3 : string) :
  (s1 +:+ s2) +:+ s3 = s1 +:+ s2 +:+ s3.
Proof.
  induction s1 as [|c s1 IH]; [done|]. rewrite !string_app_cons. by f_equal.
Qed.

Lemma string_app_nil_r (s : string) : s +:+ "" = s.
Proof.
  induction s as [|c s IH]; [done|]. rewrite string_app_cons. by f_equal.
Qed.

Lemma string_app_length (s1 s2 : string) :
  String.length (s1 +:+ s2) = (String.length s1 + String.length s2)%nat.
Proof.
  induction s1 as [|c s1 IH]; [done|]. rewrite string_app_cons. simpl.
  by f_equal.
Qed.

Lemma take_digits_all_digits s : all_digits (take_digits s) = true.
Proof.
  induction s as [|c s IH]; simpl; [done|].
  destruct (is_digit c) eqn:E; simpl; [|done]. by rewrite E.
Qed.

Lemma take_digits_split s :
  ∃ rest, s = take_digits s +:+ rest ∧ head_is is_digit rest = false.
Proof.
  induction s as [|c s (rest & IH & Hrest)]; simpl; [by exists ""|].
  destruct (is_digit c) eqn:E.
  - exists rest. rewrite string_app_cons. by rewrite <- IH.
  - exists (String c s). by simpl.
Qed.

Lemma take_digits_app ds rest :
  all_digits ds = true → head_is is_digit rest = false →
  take_digits (ds +:+ rest) = ds.
Proof.
  induction ds as [|c ds IH].
  - intros _. rewrite string_app_nil_l.
    destruct rest as [|c r]; simpl; [done|]. by intros ->.
  - simpl. intros [Hc Hds]%andb_true_iff Hrest.
    rewrite ?string_app_cons. simpl. by rewrite Hc, IH.
Qed.

Lemma trim_start_split s :
  ∃ ws, s = ws +:+ trim_start s ∧ all_white ws = true
        ∧ head_is is_white_space (trim_start s) = false.
Proof.
  induction s as [|c s (ws & IH & Hws & Hhd)]; simpl; [by exists ""|].
  destruct (is_white_space c) eqn:E.
  - exists (String c ws). rewrite string_app_cons. simpl.
    rewrite E, <- IH. done.
  - exists "". by simpl.
Qed.

Lemma trim_start_app ws t :
  all_white ws = true → head_is is_white_space t = false →
  trim_start (ws +:+ t) = t.
Proof.
  induction ws as [|c ws IH].
  - intros _. rewrite string_app_nil_l.
    destruct t as [|c t]; simpl; [done|]. by intros ->.
  - simpl. intros [Hc Hws]%andb_true_iff Ht.
    rewrite ?string_app_cons. simpl. rewrite Hc. by apply IH.
Qed.

Lemma digit_not_special c :
  is_digit c = true →
  is_white_space c = false ∧ c ≠ "-"%char ∧ c ≠ "+"%char.
Proof.
  destruct c as [[] [] [] [] [] [] [] []]; vm_compute;
    intros H; try discriminate H; repeat split; discriminate.
Qed.

Lemma split_sign_digit s :
  head_is is_digit s = true → split_sign s = (1, s).
Proof.
  destruct s as [|c s]; [done|]. simpl. intros (_ & H1 & H2)%digit_not_special.
  unfold split_sign.
  destruct (Ascii.eqb_spec c "-") as [->|_]; [done|].
  destruct (Ascii.eqb_spec c "+") as [->|_]; [done|].
  repeat case_match; simplify_eq; done.
Qed.

Lemma head_is_app p s t : s ≠ "" → head_is p (s +:+ t) = head_is p s.
Proof. by destruct s. Qed.

Lemma all_digits_head ds :
  ds ≠ "" → all_digits ds = true → head_is is_digit ds = true.
Proof. destruct ds; [done|]. simpl. by intros _ [-> _]%andb_true_iff. Qed.

(** [parseInt] returns an integer exactly for the strings that parse as
    one. *)
Lemma parseInt_parses_as s n : parseInt s = Some n ↔ parses_as s n.
Proof.
  unfold parseInt. split.
  - destruct (trim_start_split s) as (ws & Hs & Hws & Hhd).
    destruct (split_sign (trim_start s)) as [sg r] eqn:Hsign.
    destruct (take_digits_split r) as (rest & Hr & Hrest).
    pose proof (take_digits_all_digits r) as Hds.
    destruct (take_digits r) as [|c ds] eqn:Htd; [done|].
    intros [= <-].
    assert (∃ sgn, trim_start s = sgn +:+ r
      ∧ ((sgn = "" ∧ sg = 1) ∨ (sgn = "+" ∧ sg = 1) ∨ (sgn = "-" ∧ sg = -1)))
      as (sgn & Ht & Hsg).
    { unfold split_sign in Hsign.
      repeat case_match; simplify_eq; first
        [ by exists "-"; split; [done|auto]
        | by exists "+"; split; [done|auto]
        | by exists ""; split; [done|auto] ]. }
    exists ws, sgn, sg, (String c ds), rest.
    rewrite <- Hr, <- Ht, <- Hs. done.
  - intros (ws & sgn & sg & ds & rest & -> & Hws & Hsg & Hne & Hds & Hrest & ->).
    pose proof (all_digits_head _ Hne Hds) as Hhead.
    assert (head_is is_white_space (sgn +:+ ds +:+ rest) = false) as Hnw.
    { destruct Hsg as [[-> _]|[[-> _]|[-> _]]]; [|reflexivity..].
      rewrite string_app_nil_l, head_is_app by done.
      destruct ds as [|c ds]; [done|]. simpl in *.
      by apply digit_not_special. }
    rewrite (trim_start_app _ _ Hws Hnw).
    assert (split_sign (sgn +:+ ds +:+ rest) = (sg, ds +:+ rest)) as ->.
    { destruct Hsg as [[-> ->]|[[-> ->]|[-> ->]]]; [|reflexivity..].
      rewrite string_app_nil_l.
      apply split_sign_digit. by rewrite head_is_app. }
    rewrite (take_digits_app _ _ Hds Hrest). by destruct ds.
Qed.

Lemma parseInt_NaN s : parseInt s = None ↔ ¬ ∃ n, parses_as s n.
Proof.
  split.
  - intros Hnone (n & Hn). apply parseInt_parses_as in Hn. congruence.
  - intros Hno. destruct (parseInt s) as [n|] eqn:E; [|done].
    exfalso. apply Hno. exists n. by apply parseInt_parses_as.
Qed.

Lemma parseInt_digits ds :
  ds ≠ "" → all_digits ds = true → parseInt ds = Some (digits_value 0 ds).
Proof.
  intros Hne Hds. apply parseInt_parses_as.
  exists "", "", 1, ds, "". rewrite string_app_nil_r.
  repeat split; try done; [by left|lia].
Qed.

(** ** Decimal numerals

    [pretty n], stdpp's decimal printer, is the numeral JavaScript writes
    for the non-negative integer [n] (below 10^21). *)

Lemma digits_value_app acc s1 s2 :
  digits_value acc (s1 +:+ s2) = digits_value (digits_value acc s1) s2.
Proof.
  revert acc. induction s1 as [|c s1 IH]; intros acc; [done|].
  rewrite string_app_cons. simpl. apply IH.
Qed.

Lemma all_digits_app s1 s2 :
  all_digits (s1 +:+ s2) = all_digits s1 && all_digits s2.
Proof.
  induction s1 as [|c s1 IH]; [done|]. rewrite string_app_cons. simpl.
  by rewrite IH, andb_assoc.
Qed.

Lemma pretty_N_char_digit (x : N) :
  (x < 10)%N →
  is_digit (pretty_N_char x) = true ∧ digit_value (pretty_N_char x) = Z.of_N x.
Proof.
  intros Hx.
  assert (x = 0 ∨ x = 1 ∨ x = 2 ∨ x = 3 ∨ x = 4 ∨ x = 5
          ∨ x = 6 ∨ x = 7 ∨ x = 8 ∨ x = 9)%N as Hcases by lia.
  repeat (destruct Hcases as [->|Hcases]; [by vm_compute|]).
  subst. by vm_compute.
Qed.

Lemma pretty_N_go_app (x : N) (s : string) :
  pretty_N_go x s = pretty_N_go x "" +:+ s.
Proof.
  revert s. induction (N.lt_wf_0 x) as [x _ IH]; intros s.
  destruct (decide (0 < x)%N) as [Hx|Hx].
  - assert (x `div` 10 < x)%N as Hlt by (by apply N.div_lt).
    rewrite !(pretty_N_go_step x) by done.
    rewrite (IH _ Hlt (String _ s)), (IH _ Hlt (String _ "")).
    by rewrite string_app_assoc.
  - replace x with 0%N by lia. by rewrite !pretty_N_go_0.
Qed.

Lemma pretty_N_go_spec (x : N) :
  all_digits (pretty_N_go x "") = true
  ∧ digits_value 0 (pretty_N_go x "") = Z.of_N x
  ∧ ∀ k : nat, (x < 10 ^ N.of_nat k)%N →
               (String.length (pretty_N_go x "") ≤ k)%nat.
Proof.
  induction (N.lt_wf_0 x) as [x _ IH].
  destruct (decide (0 < x)%N) as [Hx|Hx].
  - rewrite pretty_N_go_step, pretty_N_go_app by done.
    destruct (IH (x `div` 10)%N) as (Hd & Hv & Hl); [by apply N.div_lt|].
    destruct (pretty_N_char_digit (x `mod` 10)%N) as [Hcd Hcv];
      [by apply N.mod_lt|].
    split; [|split].
    + rewrite all_digits_app, Hd. simpl. by rewrite Hcd.
    + rewrite digits_value_app, Hv. simpl. rewrite Hcv.
      rewrite (N.div_mod x 10) at 3 by done. lia.
    + intros k Hk. rewrite string_app_length. simpl.
      destruct k as [|k]; [simpl in Hk; lia|].
      specialize (Hl k). rewrite Nat2N.inj_succ, N.pow_succ_r' in Hk.
      assert (x `div` 10 < 10 ^ N.of_nat k)%N
        by (apply N.Div0.div_lt_upper_bound; lia).
      lia.
  - replace x with 0%N by lia. rewrite pretty_N_go_0.
    split; [done|]. split; [done|]. simpl. lia.
Qed.

Lemma pretty_N_digits (n : N) :
  pretty n ≠ "" ∧ all_digits (pretty n) = true
  ∧ digits_value 0 (pretty n) = Z.of_N n.
Proof.
  unfold pretty, pretty_N. case_decide as Hn; [by subst|].
  destruct (pretty_N_go_spec n) as (Hd & Hv & _).
  split; [|done].
  intros Hempty. rewrite Hempty in Hv. simpl in Hv. lia.
Qed.

Lemma pretty_N_length (n : N) (k : nat) :
  (n < 10 ^ N.of_nat k)%N → (0 < k)%nat → (String.length (pretty n) ≤ k)%nat.
Proof.
  intros Hn Hk. unfold pretty, pretty_N. case_decide; [simpl; lia|].
  by apply pretty_N_go_spec.
Qed.

(** [parseInt] reads back the numeral of every non-negative integer. *)
Lemma parseInt_pretty (n : N) : parseInt (pretty n) = Some (Z.of_N n).
Proof.
  destruct (pretty_N_digits n) as (Hne & Hd & Hv).
  by rewrite parseInt_digits, Hv.
Qed.

(** ** C7 *)

Lemma IntIdPipe_transform_accepts (name s : string) (n : Z) :
  (String.length s ≤ 10)%nat → parseInt s = Some n →
  0 < n ≤ MAX_POSTGRES_INT → IntIdPipe.transform name s = Ret n.
Proof.
  intros Hlen Hp [Hpos Hmax]. unfold IntIdPipe.transform.
  apply Nat.nlt_ge, Nat.ltb_nlt in Hlen as ->. rewrite Hp.
  unfold MAX_POSTGRES_INT in *.
  destruct (Z.leb_spec n 0); [lia|].
  by destruct (Z.ltb_spec 2147483647 n); [lia|].
Qed.

(** Every integer from 1 to 2147483647, written as a decimal numeral, is
    accepted and returned. *)
Lemma IntIdPipe_accepts_numerals (name : string) (n : N) :
  (0 < n ≤ 2147483647)%N → IntIdPipe.transform name (pretty n) = Ret (Z.of_N n).
Proof.
  intros [Hpos Hmax]. apply IntIdPipe_transform_accepts.
  - apply pretty_N_length; [|lia].
    change (10 ^ N.of_nat 10)%N with 10000000000%N. lia.
  - apply parseInt_pretty.
  - unfold MAX_POSTGRES_INT. lia.
Qed.

(** C7.  [IntIdPipe.transform] on a string [s]: it fails, naming the field,
    when [s] has more than 10 characters; otherwise it fails when [s] does
    not parse as a positive integer, fails when the parsed integer exceeds
    2147483647, and in the remaining case returns the parsed integer.  The
    integer returned for a decimal numeral is the number written: every
    numeral from 1 to 2147483647 is accepted and gives that number, "42"
    gives 42, and "0", "99999999999", "2147483648" and "abc" fail with the
    message of their case. *)
Theorem IntIdPipe_transform_cases (name s : string) :
  ((10 < String.length s)%nat →
     IntIdPipe.transform name s =
     Throw (BadRequestException (name +:+ " length must be less than 10")))
  ∧ ((String.length s ≤ 10)%nat → (∀ n, parses_as s n → n ≤ 0) →
     IntIdPipe.transform name s =
     Throw (BadRequestException (name +:+ " must be a positive integer")))
  ∧ (∀ n, (String.length s ≤ 10)%nat → parses_as s n → MAX_POSTGRES_INT < n →
     IntIdPipe.transform name s =
     Throw (BadRequestException (name +:+ " must be less than 2147483647")))
  ∧ (∀ n, (String.length s ≤ 10)%nat → parses_as s n →
          0 < n ≤ MAX_POSTGRES_INT →
     IntIdPipe.transform name s = Ret n)
  ∧ (∀ n : N, (1 ≤ n ≤ 2147483647)%N →
       IntIdPipe.transform name (pretty n) = Ret (Z.of_N n))
  ∧ IntIdPipe.transform name "42" = Ret 42
  ∧ IntIdPipe.transform name "2147483647" = Ret 2147483647
  ∧ IntIdPipe.transform name "0" =
    Throw (BadRequestException (name +:+ " must be a positive integer"))
  ∧ IntIdPipe.transform name "99999999999" =
    Throw (BadRequestException (name +:+ " length must be less than 10"))
  ∧ IntIdPipe.transform name "2147483648" =
    Throw (BadRequestException (name +:+ " must be less than 2147483647"))
  ∧ IntIdPipe.transform name "abc" =
    Throw (BadRequestException (name +:+ " must be a positive integer")).
Proof.
  split; [|split; [|split; [|split; [|split]]]].
  - unfold IntIdPipe.transform. intros Hlen.
    by apply Nat.ltb_lt in Hlen as ->.
  - unfold IntIdPipe.transform.
    intros Hlen Hnot. apply Nat.nlt_ge, Nat.ltb_nlt in Hlen as ->.
    destruct (parseInt s) as [num|] eqn:Hp; [|done].
    apply parseInt_parses_as, Hnot, Z.leb_le in Hp as ->. done.
  - unfold IntIdPipe.transform.
    intros n Hlen Hp Hmax. apply Nat.nlt_ge, Nat.ltb_nlt in Hlen as ->.
    apply parseInt_parses_as in Hp as ->.
    unfold MAX_POSTGRES_INT in *.
    destruct (Z.leb_spec n 0); [lia|].
    by destruct (Z.ltb_spec 2147483647 n); [|lia].
  - intros n Hlen Hp Hrange.
    apply IntIdPipe_transform_accepts; [done| |done].
    by apply parseInt_parses_as.
  - intros n Hn. apply IntIdPipe_accepts_numerals. lia.
  - repeat split.
Qed.

(** The examples of the specification. *)
Example IntIdPipe_examples :
  IntIdPipe.transform DEFAULT_NAME "42" = Ret 42
  ∧ IntIdPipe.transform DEFAULT_NAME "0" =
    Throw (BadRequestException "id must be a positive integer")
  ∧ IntIdPipe.transform DEFAULT_NAME "99999999999" =
    Throw (BadRequestException "id length must be less than 10")
  ∧ IntIdPipe.transform DEFAULT_NAME "2147483648" =
    Throw (BadRequestException "id must be less than 2147483647")
  ∧ IntIdPipe.transform DEFAULT_NAME "abc" =
    Throw (BadRequestException "id must be a positive integer").
Proof. repeat split. Qed.

(** ** C8 *)

Lemma round_to_double_exact (m : Z) : m ≤ 2 ^ 53 → round_to_double m = m.
Proof. intros Hm. unfold round_to_double. by apply Z.leb_le in Hm as ->. Qed.

(** The Number for an integer other than 0 does not depend on how the sign
    was written, and is the integer itself up to 2^53. *)
Lemma to_Number_sign (sign n : Z) : n ≠ 0 → to_Number sign n = to_Number 1 n.
Proof. intros Hn. unfold to_Number. by apply Z.eqb_neq in Hn as ->. Qed.

Lemma to_Number_exact (n : Z) : Z.abs n ≤ 2 ^ 53 → to_Number 1 n = Int n.
Proof.
  intros Hn. unfold to_Number.
  destruct (Z.eqb_spec n 0) as [->|Hne]; [done|].
  rewrite round_to_double_exact by done.
  destruct (Z.leb_spec (2 ^ 1024) (Z.abs n)) as [Hbig|_].
  - exfalso. assert (2 ^ 53 < 2 ^ 1024) by (by apply Z.pow_lt_mono_r). lia.
  - f_equal. rewrite Z.mul_comm. apply Z.abs_sgn.
Qed.

Lemma split_sign_trim_digits (ds : string) :
  ds ≠ "" → all_digits ds = true → split_sign (trim_start ds) = (1, ds).
Proof.
  intros Hne Hds. pose proof (all_digits_head ds Hne Hds) as Hhd.
  rewrite <- (string_app_nil_l ds) at 1.
  rewrite trim_start_app; [by apply split_sign_digit|done|].
  destruct ds as [|c ds']; [done|]. simpl in *.
  by apply digit_not_special in Hhd as (-> & _).
Qed.

(** C8, as amended.  [stringToInteger] returns every value that is not a
    string as it is.  On a string of digits it returns the Number nearest to
    the integer written, which is that integer when it is at most 2^53: it
    reads back the numeral of every natural number up to 2^53, and gives
    9007199254740992 for "9007199254740993".  On a string that parses as an
    integer other than 0 it returns the Number for that integer, and "-0"
    gives the negative zero.  It fails, with the invalid-integer error,
    exactly on the strings that do not parse as an integer. *)
Theorem stringToInteger_cases (key : string) :
  (∀ v, typeof v ≠ TString → stringToInteger v key = Ret v)
  ∧ (∀ ds, ds ≠ "" → all_digits ds = true →
       stringToInteger (VStr ds) key
       = Ret (VNum (to_Number 1 (digits_value 0 ds))))
  ∧ (∀ n : N,
       stringToInteger (VStr (pretty n)) key
       = Ret (VNum (to_Number 1 (Z.of_N n)))
       ∧ ((n ≤ 2 ^ 53)%N →
          stringToInteger (VStr (pretty n)) key = Ret (VNum (Z.of_N n))))
  ∧ (∀ s n, parses_as s n → n ≠ 0 →
       stringToInteger (VStr s) key = Ret (VNum (to_Number 1 n))
       ∧ (Z.abs n ≤ 2 ^ 53 → stringToInteger (VStr s) key = Ret (VNum n)))
  ∧ (∀ s, (¬ ∃ n, parses_as s n) ↔
          stringToInteger (VStr s) key =
          Throw (Error ("Value of " +:+ key +:+ " must be an integer but got "
                        +:+ s)))
  ∧ (∀ s e, stringToInteger (VStr s) key = Throw e → ¬ ∃ n, parses_as s n)
  ∧ stringToInteger (VStr "42") key = Ret (VNum 42)
  ∧ stringToInteger (VStr " -7px") key = Ret (VNum (-7))
  ∧ stringToInteger (VStr "007") key = Ret (VNum 7)
  ∧ stringToInteger (VStr "9007199254740993") key = Ret (VNum 9007199254740992)
  ∧ stringToInteger (VStr "9007199254740995") key = Ret (VNum 9007199254740996)
  ∧ stringToInteger (VStr "-0") key = Ret (VNum NegZero).
Proof.
  assert (∀ ds, ds ≠ "" → all_digits ds = true →
            stringToInteger (VStr ds) key
            = Ret (VNum (to_Number 1 (digits_value 0 ds)))) as Hdigits.
  { intros ds Hne Hds. simpl.
    by rewrite parseInt_digits, split_sign_trim_digits. }
  assert (∀ n : N, stringToInteger (VStr (pretty n)) key
                   = Ret (VNum (to_Number 1 (Z.of_N n)))) as Hpretty.
  { intros n. destruct (pretty_N_digits n) as (Hne & Hd & Hv).
    by rewrite Hdigits, Hv. }
  assert (∀ s n, parses_as s n → n ≠ 0 →
            stringToInteger (VStr s) key = Ret (VNum (to_Number 1 n)))
    as Hparses.
  { intros s n Hp Hn. simpl. apply parseInt_parses_as in Hp as ->.
    by rewrite to_Number_sign. }
  split; [by intros [| | | | |]|]. split; [done|]. split.
  { intros n. split; [done|]. intros Hn. rewrite Hpretty, to_Number_exact; [done|].
    change (2 ^ 53) with (Z.of_N (2 ^ 53)). lia. }
  split.
  { intros s n Hp Hn. split; [by apply Hparses|]. intros Hsmall.
    by rewrite (Hparses s n), to_Number_exact. }
  split.
  { intros s. split.
    - intros Hno. simpl. by apply parseInt_NaN in Hno as ->.
    - simpl. destruct (parseInt s) eqn:Hp; [done|]. intros _.
      by apply parseInt_NaN. }
  split.
  { intros s e. simpl. destruct (parseInt s) eqn:Hp; [done|]. intros _.
    by apply parseInt_NaN. }
  repeat split.
Qed.

Example stringToInteger_examples :
  stringToInteger (VStr "42") "port" = Ret (VNum 42)
  ∧ stringToInteger (VStr " -7px") "port" = Ret (VNum (-7))
  ∧ stringToInteger (VStr "abc") "port" =
    Throw (Error "Value of port must be an integer but got abc")
  ∧ stringToInteger (VNum 5) "port" = Ret (VNum 5)
  ∧ stringToInteger VUndefined "port" = Ret VUndefined.
Proof. repeat split. Qed.

(** C8 as stated fails: "9007199254740993" is a string of digits, the
    numeral of 9007199254740993, and [stringToInteger] returns for it the
    Number 9007199254740992, which a double can hold, and not the integer
    written. *)
Lemma stringToInteger_digits_counterexample :
  all_digits "9007199254740993" = true
  ∧ pretty 9007199254740993%N = "9007199254740993"
  ∧ stringToInteger (VStr "9007199254740993") "port"
    = Ret (VNum 9007199254740992)
  ∧ stringToInteger (VStr "9007199254740993") "port"
    ≠ Ret (VNum 9007199254740993).
Proof. repeat split; by vm_compute. Qed.

(** ** C5: [replaceEnvVariable] *)

Lemma replace_loop_done fuel key value parsed :
  regex_exec value = None → replace_loop fuel key value parsed = Ret parsed.
Proof. intros H. destruct fuel; simpl; by rewrite H. Qed.

(** A placeholder that names the key being resolved is an error. *)
Lemma replace_loop_self_reference fuel key value parsed :
  regex_exec value = Some key →
  replace_loop (S fuel) key value parsed =
  Throw (Error (msg_self_reference key)).
Proof. intros H. simpl. by rewrite H, String.eqb_refl. Qed.

(** A placeholder that names a key with no value is an error. *)
Lemma replace_loop_missing fuel key value parsed matchKey :
  regex_exec value = Some matchKey → matchKey ≠ key →
  env_get matchKey parsed = None →
  replace_loop (S fuel) key value parsed =
  Throw (Error (msg_missing_variable matchKey)).
Proof.
  intros H Hne Hget. simpl. rewrite H, Hget.
  by apply String.eqb_neq in Hne as ->.
Qed.

(** A key whose value is [undefined] is skipped: neither the mapping nor
    the result changes. *)
Lemma replaceEnvVariable_body_undefined fuel parsed result key :
  env_get key parsed = None →
  replaceEnvVariable_body fuel (parsed, result) key = Ret (parsed, result).
Proof. intros H. unfold replaceEnvVariable_body. by rewrite H. Qed.

(** The examples of the specification. *)
Example replaceEnvVariable_examples :
  replaceEnvVariable 1 [("A", Some "1"); ("B", Some "${A}-2")] =
    Ret ([("A", Some "1"); ("B", Some "1-2")],
         [("A", Some "1"); ("B", Some "1-2")])
  ∧ replaceEnvVariable 1 [("A", Some "${A}")] =
    Throw (Error (msg_self_reference "A"))
  ∧ replaceEnvVariable 1 [("A", Some "${B}")] =
    Throw (Error (msg_missing_variable "B"))
  ∧ replaceEnvVariable 1 [("A", Some "x"); ("U", None); ("B", Some "${A}")] =
    Ret ([("A", Some "x"); ("B", Some "x")],
         [("A", Some "x"); ("U", None); ("B", Some "x")]).
Proof. repeat split. Qed.

Fixpoint no_dollar (s : string) : bool :=
  match s with
  | String c s' => negb (Ascii.eqb c "$") && no_dollar s'
  | EmptyString => true
  end.

(** A replacement text without dollar signs is inserted as it is. *)
Lemma GetSubstitution_no_dollar matched pre post replacement :
  no_dollar replacement = true →
  GetSubstitution matched pre post replacement = replacement.
Proof.
  induction replacement as [|c r IH]; [done|].
  simpl. intros [Hc Hr]%andb_true_iff.
  apply negb_true_iff in Hc. rewrite Hc. destruct r as [|c' r']; [done|].
  f_equal. by apply IH.
Qed.

Definition concat_strings (ss : list string) : string :=
  foldr String.append EmptyString ss.

(** *** Values without stray dollar signs

    A value written as literal text without dollar signs and placeholders
    [${key}] whose keys have no dollar sign, closing brace or line
    terminator. *)

Inductive token : Type :=
  | Lit (text : string)
  | Placeholder (key : string).

Definition render_token (t : token) : string :=
  match t with
  | Lit text => text
  | Placeholder key => "${" +:+ key +:+ "}"
  end.

Definition render (ts : list token) : string :=
  concat_strings (render_token <$> ts).

Fixpoint plain_key (k : string) : bool :=
  match k with
  | String c k' =>
      negb (Ascii.eqb c "$") && negb (Ascii.eqb c "}")
      && negb (is_line_terminator c) && plain_key k'
  | EmptyString => true
  end.

Definition token_ok (t : token) : bool :=
  match t with
  | Lit text => no_dollar text
  | Placeholder key => plain_key key
  end.

Definition is_placeholder (t : token) : bool :=
  match t with Placeholder _ => true | Lit _ => false end.

(** The text a token stands for once its placeholder is resolved. *)
Definition resolve_token (parsed : env) (t : token) : string :=
  match t with
  | Lit text => text
  | Placeholder key => default EmptyString (env_get key parsed)
  end.

Definition resolve (parsed : env) (ts : list token) : string :=
  concat_strings (resolve_token parsed <$> ts).

Lemma no_dollar_app s1 s2 :
  no_dollar (s1 +:+ s2) = no_dollar s1 && no_dollar s2.
Proof.
  induction s1 as [|c s1 IH]; [done|]. rewrite string_app_cons. simpl.
  by rewrite IH, andb_assoc.
Qed.

Lemma regex_exec_no_dollar s : no_dollar s = true → regex_exec s = None.
Proof.
  induction s as [|c s IH]; [done|]. simpl.
  intros [Hc Hs]%andb_true_iff. apply negb_true_iff in Hc. rewrite Hc. simpl.
  destruct s; [done|]. by apply IH.
Qed.

(** Literal text before the first placeholder is skipped by the regular
    expression. *)
Lemma regex_exec_lit lit s :
  no_dollar lit = true → regex_exec (lit +:+ s) = regex_exec s.
Proof.
  induction lit as [|c lit IH]; [done|]. simpl.
  intros [Hc Hlit]%andb_true_iff. apply negb_true_iff in Hc.
  specialize (IH Hlit). rewrite Hc. simpl.
  destruct (lit +:+ s) as [|c' rest] eqn:E; [|done].
  destruct lit; [|done]. rewrite string_app_nil_l in E. by subst.
Qed.

Lemma lazy_until_brace_key k rest :
  plain_key k = true → lazy_until_brace (k +:+ "}" +:+ rest) = Some k.
Proof.
  induction k as [|c k IH]; [done|]. simpl.
  intros [[[_ Hb]%andb_true_iff Hl]%andb_true_iff Hk]%andb_true_iff.
  apply negb_true_iff in Hb, Hl. specialize (IH Hk).
  rewrite ?string_app_cons. simpl. rewrite Hb, Hl.
  change (String c <$> lazy_until_brace (k +:+ "}" +:+ rest)
          = Some (String c k)).
  by rewrite IH.
Qed.

Lemma regex_exec_placeholder k rest :
  plain_key k = true → regex_exec ("${" +:+ k +:+ "}" +:+ rest) = Some k.
Proof.
  intros Hk.
  change (regex_exec ("${" +:+ k +:+ "}" +:+ rest)) with
    (match lazy_until_brace (k +:+ "}" +:+ rest) with
     | Some m => Some m
     | None => regex_exec (String "{" (k +:+ "}" +:+ rest))
     end).
  by rewrite lazy_until_brace_key.
Qed.

Lemma strip_prefix_app p s : strip_prefix p (p +:+ s) = Some s.
Proof.
  induction p as [|c p IH]; [by destruct s|].
  rewrite string_app_cons. simpl. by rewrite Ascii.eqb_refl.
Qed.

Lemma split_at_first_cons pat c s :
  split_at_first pat (String c s) =
  match strip_prefix pat (String c s) with
  | Some post => Some (EmptyString, post)
  | None => '(pre, post) ← split_at_first pat s; Some (String c pre, post)
  end.
Proof. reflexivity. Qed.

Lemma strip_prefix_cons_ne a p b s :
  Ascii.eqb a b = false → strip_prefix (String a p) (String b s) = None.
Proof. intros H. simpl. by rewrite H. Qed.

(** The first occurrence of a text that starts with a dollar sign, after
    literal text without one. *)
Lemma split_at_first_lit lit pat rest :
  no_dollar lit = true →
  split_at_first (String "$" pat) (lit +:+ String "$" pat +:+ rest)
  = Some (lit, rest).
Proof.
  induction lit as [|c lit IH]; intros Hlit.
  - rewrite string_app_nil_l, string_app_cons, split_at_first_cons.
    rewrite <- string_app_cons. by rewrite strip_prefix_app.
  - simpl in Hlit. apply andb_true_iff in Hlit as [Hc Hlit].
    apply negb_true_iff in Hc. rewrite Ascii.eqb_sym in Hc.
    rewrite string_app_cons, split_at_first_cons.
    rewrite strip_prefix_cons_ne by done. by rewrite (IH Hlit).
Qed.

Lemma String_replace_placeholder lit k rest v :
  no_dollar lit = true → no_dollar v = true →
  String_replace (lit +:+ ("${" +:+ k +:+ "}") +:+ rest) ("${" +:+ k +:+ "}") v
  = lit +:+ v +:+ rest.
Proof.
  intros Hlit Hv. unfold String_replace.
  change ("${" +:+ k +:+ "}") with (String "$" ("{" +:+ k +:+ "}")).
  rewrite split_at_first_lit by done.
  by rewrite GetSubstitution_no_dollar.
Qed.

Lemma props_replace_replace {A : Type} k (a b : A) ps :
  props_replace k a (props_replace k b ps) = props_replace k a ps.
Proof.
  induction ps as [|[k' v'] ps IH]; simpl; [done|].
  destruct (String.eqb k k') eqn:E; simpl.
  - by rewrite String.eqb_refl.
  - by rewrite E, IH.
Qed.

Lemma props_replace_insert_index {A : Type} n k (a b : A) ps :
  props_get k ps = None →
  props_replace k a (insert_index n k b ps) = insert_index n k a ps.
Proof.
  induction ps as [|[k' v'] ps IH]; simpl.
  - by rewrite String.eqb_refl.
  - destruct (String.eqb k k') eqn:E; [done|]. intros Hnone.
    destruct (array_index k') as [n'|]; [destruct (n' <? n)%Z|]; simpl;
      rewrite ?E, ?String.eqb_refl, ?IH; done.
Qed.

Lemma props_replace_app_new {A : Type} k (a b : A) ps :
  props_get k ps = None →
  props_replace k a (ps ++ [(k, b)]) = ps ++ [(k, a)].
Proof.
  induction ps as [|[k' v'] ps IH]; simpl.
  - by rewrite String.eqb_refl.
  - destruct (String.eqb k k') eqn:E; [done|]. intros Hnone. by rewrite IH.
Qed.

(** Assigning a property twice is assigning the last value. *)
Lemma props_set_set {A : Type} k (a b : A) ps :
  props_set k a (props_set k b ps) = props_set k a ps.
Proof.
  unfold props_set at 1. rewrite props_get_set_eq.
  unfold props_set, props_add. destruct (props_get k ps) eqn:E.
  - apply props_replace_replace.
  - destruct (array_index k).
    + by apply props_replace_insert_index.
    + by apply props_replace_app_new.
Qed.

Lemma env_get_set_ne key k x (parsed : env) :
  key ≠ k → env_get k (props_set key x parsed) = env_get k parsed.
Proof. intros Hne. unfold env_get. by rewrite props_get_set_ne. Qed.

Lemma replace_loop_step fuel key value parsed matchKey replaceValue :
  regex_exec value = Some matchKey → matchKey ≠ key →
  env_get matchKey parsed = Some replaceValue →
  replace_loop (S fuel) key value parsed =
  let value' :=
    String_replace value ("${" +:+ matchKey +:+ "}") replaceValue in
  replace_loop fuel key value' (props_set key (Some value') parsed).
Proof.
  intros H Hne Hget. simpl. rewrite H, Hget.
  by apply String.eqb_neq in Hne as ->.
Qed.

Lemma render_cons t ts : render (t :: ts) = render_token t +:+ render ts.
Proof. reflexivity. Qed.

Lemma resolve_cons parsed t ts :
  resolve parsed (t :: ts) = resolve_token parsed t +:+ resolve parsed ts.
Proof. reflexivity. Qed.

Lemma resolve_no_placeholder parsed ts :
  existsb is_placeholder ts = false → resolve parsed ts = render ts.
Proof.
  induction ts as [|[text|k] ts IH]; simpl; [done| |done].
  intros Hts. by rewrite resolve_cons, render_cons, IH.
Qed.

Lemma resolve_agree parsed parsed' ts :
  (∀ k, Placeholder k ∈ ts → env_get k parsed' = env_get k parsed) →
  resolve parsed' ts = resolve parsed ts.
Proof.
  induction ts as [|t ts IH]; [done|]. intros Hag.
  rewrite !resolve_cons, IH by (intros k Hk; apply Hag; by right).
  destruct t as [text|k]; simpl; [done|]. by rewrite Hag by by left.
Qed.

(** The [while] loop on a value without stray dollar signs, whose
    placeholders name other keys with values that contain no dollar sign:
    it returns, and the value of the key is then the value with every
    placeholder replaced by the value of the key it names.  The values of
    the other keys are as they were. *)
Lemma replace_loop_resolves (ts : list token) :
  ∀ (lit key : string) (parsed : env) (fuel : nat),
    no_dollar lit = true → forallb token_ok ts = true →
    (∀ k, Placeholder k ∈ ts →
          k ≠ key ∧ ∃ v, env_get k parsed = Some v ∧ no_dollar v = true) →
    (length (filter is_placeholder ts) ≤ fuel)%nat →
    replace_loop fuel key (lit +:+ render ts) parsed =
    Ret (if existsb is_placeholder ts
         then props_set key (Some (lit +:+ resolve parsed ts)) parsed
         else parsed).
Proof.
  induction ts as [|[text|k] ts IH]; intros lit key parsed fuel Hlit Hok Hph Hfuel.
  - apply replace_loop_done. unfold render. simpl.
    rewrite string_app_nil_r. by apply regex_exec_no_dollar.
  - simpl in Hok. apply andb_true_iff in Hok as [Htext Hok].
    rewrite render_cons, resolve_cons. simpl.
    rewrite <- !string_app_assoc. apply IH; try done.
    + by rewrite no_dollar_app, Hlit, Htext.
    + intros k' Hk'. apply Hph. by right.
  - simpl in Hok. apply andb_true_iff in Hok as [Hk Hok].
    destruct (Hph k) as (Hne & v & Hv & Hvd); [by left|].
    rewrite filter_cons_True in Hfuel by done. simpl in Hfuel.
    destruct fuel as [|fuel]; [lia|].
    rewrite render_cons. simpl render_token.
    erewrite replace_loop_step; [|by rewrite regex_exec_lit,
      string_app_assoc, string_app_assoc, regex_exec_placeholder|done..].
    cbv zeta. rewrite String_replace_placeholder by done.
    rewrite <- string_app_assoc.
    rewrite IH; [|by rewrite no_dollar_app, Hlit, Hvd|done| |lia].
    + f_equal. rewrite resolve_cons. simpl. rewrite Hv. simpl.
      destruct (existsb is_placeholder ts) eqn:Hex.
      * rewrite props_set_set, string_app_assoc.
        rewrite (resolve_agree parsed); [done|].
        intros k' Hk'. apply env_get_set_ne.
        intros <-. destruct (Hph key); [by right|done].
      * by rewrite resolve_no_placeholder, string_app_assoc.
    + intros k' Hk'. destruct (Hph k') as (Hne' & v' & Hv' & Hvd'); [by right|].
      split; [done|]. exists v'. by rewrite env_get_set_ne.
Qed.

(** For instance [B = "${A}-2"] with [A = "1"]. *)
Example replace_loop_resolves_example :
  replace_loop 1 "B" "${A}-2" [("A", Some "1"); ("B", Some "${A}-2")] =
  Ret [("A", Some "1"); ("B", Some "1-2")].
Proof.
  apply (replace_loop_resolves [Placeholder "A"; Lit "-2"] "" "B"
           [("A", Some "1"); ("B", Some "${A}-2")] 1); try done.
  intros k [[= ->]|[[=]|[]%elem_of_nil]%elem_of_cons]%elem_of_cons.
  split; [done|]. by exists "1".
Qed.

(** C5 (the code departs from the specification).  The value of [PASSWORD] contains
    two dollar signs; [String.prototype.replace] reads them in the
    replacement text as the pattern for one dollar sign, so the placeholder
    in [URL] is replaced by a text that is not the value of [PASSWORD]. *)
Theorem replaceEnvVariable_dollar_evaluation :
  replaceEnvVariable 1
    [("PASSWORD", Some "pa$$word"); ("URL", Some "db://${PASSWORD}@host")] =
  Ret ([("PASSWORD", Some "pa$$word"); ("URL", Some "db://pa$word@host")],
       [("PASSWORD", Some "pa$$word"); ("URL", Some "db://pa$word@host")]).
Proof. reflexivity. Qed.

(** ** C6: [toDto] *)

(** The line of the report for one entry of a [constraints] map. *)
Definition entry_line (c : string * string) : string :=
  "- " +:+ c.1 +:+ ": " +:+ c.2 +:+ LF.

(** The lines of the report for one error: one line per entry of its
    [constraints] map or, when it has none, the one line of its
    [toString()]. *)
Definition error_lines (error : ValidationError) : string :=
  match constraints error with
  | Some cs => concat_strings (entry_line <$> cs)
  | None => "- " +:+ toString error +:+ LF
  end.

Definition report (errors : list ValidationError) : string :=
  concat_strings (error_lines <$> errors).

(** The report the specification describes: the entries of the [constraints] maps
    and nothing else. *)
Definition report_as_claimed (errors : list ValidationError) : string :=
  concat_strings (entry_line <$> (errors ≫= λ e, default [] (constraints e))).

Lemma fold_left_append_constraint cs message :
  fold_left append_constraint cs message
  = message +:+ concat_strings (entry_line <$> cs).
Proof.
  revert message. induction cs as [|c cs IH]; intros message; simpl.
  - by rewrite string_app_nil_r.
  - rewrite IH. unfold append_constraint, entry_line.
    by rewrite !string_app_assoc.
Qed.

Lemma fold_left_append_error errors message :
  fold_left append_error errors message = message +:+ report errors.
Proof.
  revert message. induction errors as [|e errors IH]; intros message; simpl.
  - by rewrite string_app_nil_r.
  - rewrite IH. unfold report. simpl. unfold append_error, error_lines.
    destruct (constraints e) as [cs|].
    + by rewrite fold_left_append_constraint, string_app_assoc.
    + by rewrite !string_app_assoc.
Qed.

(** The message the loops of [toDto] accumulate is the report. *)
Lemma validation_message_report errors : validation_message errors = report errors.
Proof. unfold validation_message. by rewrite fold_left_append_error. Qed.

Lemma concat_strings_elem_of (s : string) (ss : list string) :
  s ∈ ss → ∃ pre post, concat_strings ss = pre +:+ s +:+ post.
Proof.
  induction 1 as [s ss|s s' ss _ (pre & post & IH)].
  - by exists "", (concat_strings ss).
  - exists (s' +:+ pre), post.
    change (concat_strings (s' :: ss)) with (s' +:+ concat_strings ss).
    by rewrite IH, string_app_assoc.
Qed.

(** Every entry of every reported error has its line in the report. *)
Lemma report_has_every_entry errors error cs c :
  error ∈ errors → constraints error = Some cs → c ∈ cs →
  ∃ pre post, report errors = pre +:+ entry_line c +:+ post.
Proof.
  intros He Hcs Hc.
  destruct (concat_strings_elem_of (error_lines error) (error_lines <$> errors))
    as (pre & post & Hrep); [by apply list_elem_of_fmap_2|].
  destruct (concat_strings_elem_of (entry_line c) (entry_line <$> cs))
    as (pre' & post' & Hlines); [by apply list_elem_of_fmap_2|].
  unfold report. rewrite Hrep. unfold error_lines. rewrite Hcs, Hlines.
  exists (pre +:+ pre'), (post' +:+ post). by rewrite !string_app_assoc.
Qed.

(** C6, as amended.  When [toDto] is called with validation requested (the
    transform options being merged onto an acyclic default), it converts
    the plain object and validates the instance; if validation reports at
    least one error, no instance is returned: the call fails with one
    message, the header naming the class followed by the report, which
    holds for every reported error, in order, one line [- key: message] per
    entry of its [constraints] map, or the single line of its [toString()]
    when it has no such map; every entry of every error is there.  If
    validation reports no error the instance is returned. *)
Theorem toDto_validation_report
    (plainToInstance : string → val → val → heap → val * heap)
    (validateSync : heap → val → option val → list ValidationError)
    (DEFAULT_TRANSFORM_OPTION : val)
    (fuel n : nat) (h : heap) (dtoClass : string) (plainObj : val)
    (transformOption : option val) (validate : validate_arg) :
  acyclic n h DEFAULT_TRANSFORM_OPTION = true → (n < fuel)%nat →
  validate_truthy validate = true →
  ∃ options h1 instance h2,
    plainToInstance dtoClass plainObj options h1 = (instance, h2)
    ∧ let errors :=
        validateSync h2 instance
          (match validate with
           | ValidateOptions o => Some o
           | ValidateFlag _ => None
           end) in
      (errors ≠ [] →
         toDto plainToInstance validateSync DEFAULT_TRANSFORM_OPTION
               fuel h dtoClass plainObj transformOption validate
         = Throw (Error (msg_validation_failed dtoClass (report errors)))
         ∧ ∀ error cs c,
             error ∈ errors → constraints error = Some cs → c ∈ cs →
             ∃ pre post, report errors = pre +:+ entry_line c +:+ post)
      ∧ (errors = [] →
         toDto plainToInstance validateSync DEFAULT_TRANSFORM_OPTION
               fuel h dtoClass plainObj transformOption validate
         = Ret (instance, h2)).
Proof.
  intros Hac Hfuel Hval. unfold toDto.
  set (start := match transformOption with
                | Some o => (o, h)
                | None => let '(l, h0) := alloc h empty_object in (VRef l, h0)
                end).
  assert (acyclic n start.2 DEFAULT_TRANSFORM_OPTION = true) as Hac0.
  { subst start. destruct transformOption; simpl; [done|by apply acyclic_app]. }
  destruct start as [topt h0]. simpl in Hac0.
  destruct (mergeDefault_returns fuel n h0 topt _ Hac0 Hfuel)
    as (options & h1 & Hm).
  rewrite Hm. simpl.
  destruct (plainToInstance dtoClass plainObj options h1)
    as [instance h2] eqn:Hinst.
  exists options, h1, instance, h2. split; [done|].
  rewrite Hval. simpl. split.
  - intros Herr. split; [|by apply report_has_every_entry].
    destruct (validateSync h2 instance _); [done|]. simpl.
    by rewrite validation_message_report.
  - by intros ->.
Qed.

(** The constant [{ excludeExtraneousValues: true }] at location 0 and a
    plain object [{port: "x", db: {port: "y"}}] at location 2. *)
Definition heap_dto : heap :=
  [ Obj false false [("excludeExtraneousValues", VBool true)];
    Obj false false [("port", VStr "y")];
    Obj false false [("port", VStr "x"); ("db", VRef 1)] ].

(** The errors class-validator reports for it: two violated constraints of
    [port], and the nested error of [db], which has no [constraints] map of
    its own. *)
Definition errors_dto : list ValidationError :=
  [ {| constraints := Some [("isInt", "port must be an integer number");
                            ("min", "port must not be less than 1")];
       toString := "An instance of Config has failed the validation" |};
    {| constraints := None;
       toString := "An instance of Config has failed the validation" |} ].

Lemma toDto_validation_report_witness :
  ∃ options h1 instance h2,
    (λ (_ : string) (plain _ : val) (h : heap), (plain, h))
      "Config" (VRef 2) options h1 = (instance, h2)
    ∧ let errors := errors_dto in
      (errors ≠ [] →
         toDto (λ _ plain _ h, (plain, h)) (λ _ _ _, errors_dto) (VRef 0)
               2 heap_dto "Config" (VRef 2) None (ValidateFlag true)
         = Throw (Error (msg_validation_failed "Config" (report errors)))
         ∧ ∀ error cs c,
             error ∈ errors → constraints error = Some cs → c ∈ cs →
             ∃ pre post, report errors = pre +:+ entry_line c +:+ post)
      ∧ (errors = [] →
         toDto (λ _ plain _ h, (plain, h)) (λ _ _ _, errors_dto) (VRef 0)
               2 heap_dto "Config" (VRef 2) None (ValidateFlag true)
         = Ret (instance, h2)).
Proof.
  apply (toDto_validation_report
           (λ _ plain _ h, (plain, h)) (λ _ _ _, errors_dto) (VRef 0)
           2 1 heap_dto "Config" (VRef 2) None (ValidateFlag true)).
  - reflexivity.
  - unfold lt. apply le_n.
  - reflexivity.
Defined.

(** The message for [errors_dto]. *)
Example toDto_errors_dto :
  toDto (λ _ plain _ h, (plain, h)) (λ _ _ _, errors_dto) (VRef 0)
        2 heap_dto "Config" (VRef 2) None (ValidateFlag true)
  = Throw (Error
      ("DTO Config 驗證失敗:" +:+ LF
       +:+ "- isInt: port must be an integer number" +:+ LF
       +:+ "- min: port must not be less than 1" +:+ LF
       +:+ "- An instance of Config has failed the validation" +:+ LF)).
Proof. reflexivity. Qed.

(** C6 as stated fails: the message [toDto] throws for [errors_dto] is not
    the header followed by one [key: message] line per violated
    constraint, because the error without a [constraints] map contributes
    the line of its [toString()]. *)
Lemma toDto_report_counterexample :
  ∃ message,
    toDto (λ _ plain _ h, (plain, h)) (λ _ _ _, errors_dto) (VRef 0)
          2 heap_dto "Config" (VRef 2) None (ValidateFlag true)
    = Throw (Error message)
    ∧ message ≠ msg_validation_failed "Config" (report_as_claimed errors_dto).
Proof. eexists. split; [reflexivity|]. by vm_compute. Qed.

(** * Further properties of the code *)

(** ** [ArrayUtils] *)

Lemma Set_from_snoc (values : list val) (x : val) :
  Set_from (values ++ [x]) = Set_add (Set_from values) x.
Proof. unfold Set_from. by rewrite fold_left_app. Qed.




Lemma Set_from_filter (P : val → Prop) `{!∀ x, Decision (P x)}
    (values : list val) :
  Set_from (filter P values) = filter P (Set_from values).
Proof.
  induction values as [|y values IH] using rev_ind; [done|].
  rewrite filter_app, (Set_from_snoc values).
  destruct (decide (P y)) as [Hy|Hy].
  - rewrite (filter_cons_True P) by done. rewrite filter_nil, Set_from_snoc, IH.
    unfold Set_add. destruct (decide (y ∈ Set_from values)) as [Hin|Hin].
    + rewrite decide_True; [done|]. by apply list_elem_of_filter.
    + rewrite decide_False.
      * rewrite filter_app, (filter_cons_True P) by done. by rewrite filter_nil.
      * intros Hin'. apply list_elem_of_filter in Hin'. tauto.
  - rewrite (filter_cons_False P) by done. rewrite filter_nil, app_nil_r, IH.
    unfold Set_add. case_decide; [done|].
    rewrite filter_app, (filter_cons_False P) by done.
    by rewrite filter_nil, app_nil_r.
Qed.




Lemma elem_of_Map_set {V : Type} (map : list (val * V)) (k k' : val) (v : V) :
  k' ∈ (Map_set map k v).*1 ↔ k' = k ∨ k' ∈ map.*1.
Proof.
  induction map as [|[k0 v0] map IH]; simpl.
  - rewrite list_elem_of_singleton, elem_of_nil. tauto.
  - case_decide as Hk; simpl; rewrite !elem_of_cons.
    + subst. tauto.
    + rewrite IH. tauto.
Qed.

Lemma elem_of_Map_of_array (array : list val) (map : list (val * bool)) (k : val) :
  k ∈ (fold_left (λ map2 item, Map_set map2 item true) array map).*1
  ↔ k ∈ map.*1 ∨ k ∈ array.
Proof.
  revert map. induction array as [|x array IH]; intros map; simpl.
  - rewrite elem_of_nil. tauto.
  - rewrite IH, elem_of_Map_set, elem_of_cons. tauto.
Qed.

Lemma difference_filter (array1 array2 : list val) :
  ArrayUtils.difference array1 array2 = filter (λ x, x ∉ array2) array1.
Proof.
  unfold ArrayUtils.difference. apply list_filter_iff. intros x.
  unfold Map_has. rewrite bool_decide_eq_false, elem_of_Map_of_array.
  simpl. rewrite elem_of_nil. tauto.
Qed.


(** X3.  Removing the elements of an array and removing repetitions can be
    done in either order. *)
Theorem ArrayUtils_unique_difference (array1 array2 : list val) :
  ArrayUtils.unique (ArrayUtils.difference array1 array2)
  = ArrayUtils.difference (ArrayUtils.unique array1) array2.
Proof. rewrite !difference_filter. apply Set_from_filter. Qed.

(** ** The identifier pipes *)

(** X4.  [IntIdPipe.transform] returns an integer exactly when the string
    has at most 10 characters and parses as an integer from 1 to 2147483647,
    both bounds included, and then it returns that integer; every other
    outcome is a [BadRequestException] whose message starts with the name of
    the field. *)
Theorem IntIdPipe_transform_returns_iff (name s : string) :
  (∀ n, IntIdPipe.transform name s = Ret n
        ↔ (String.length s ≤ 10)%nat ∧ parses_as s n
          ∧ 1 ≤ n ≤ MAX_POSTGRES_INT)
  ∧ ((∃ n, IntIdPipe.transform name s = Ret n)
     ∨ (∃ text, IntIdPipe.transform name s
                = Throw (BadRequestException (name +:+ text)))).
Proof.
  split.
  - intros n. split.
    + unfold IntIdPipe.transform, MAX_POSTGRES_INT.
      destruct (Nat.ltb_spec 10 (String.length s)); [done|].
      destruct (parseInt s) as [num|] eqn:Hp; [|done].
      destruct (Z.leb_spec num 0); [done|].
      destruct (Z.ltb_spec 2147483647 num); [done|].
      intros [= <-]. apply parseInt_parses_as in Hp. split; [lia|].
      split; [done|lia].
    + intros (Hlen & Hp & Hrange). apply IntIdPipe_transform_accepts; [done| |lia].
      by apply parseInt_parses_as.
  - unfold IntIdPipe.transform.
    destruct (10 <? String.length s)%nat; [right; by eexists|].
    destruct (parseInt s) as [num|]; [|right; by eexists].
    destruct (num <=? 0); [right; by eexists|].
    destruct (MAX_POSTGRES_INT <? num); [right; by eexists|].
    left. by eexists.
Qed.

(** X5.  Of the decimal numerals of the natural numbers, [IntIdPipe]
    accepts exactly those of 1 to 2147483647, and returns the number
    written; the numeral of 0 is refused as not positive, and a larger
    numeral of at most 10 digits as too large. *)
Theorem IntIdPipe_numerals (name : string) (n : N) :
  (∀ m, IntIdPipe.transform name (pretty n) = Ret m
        ↔ m = Z.of_N n ∧ (1 ≤ n ≤ 2147483647)%N)
  ∧ ((n = 0)%N → IntIdPipe.transform name (pretty n)
       = Throw (BadRequestException (name +:+ " must be a positive integer")))
  ∧ ((2147483647 < n < 10000000000)%N →
       IntIdPipe.transform name (pretty n)
       = Throw (BadRequestException (name +:+ " must be less than 2147483647")))
  ∧ ((2147483647 < n)%N → ∃ text,
       IntIdPipe.transform name (pretty n)
       = Throw (BadRequestException (name +:+ text))).
Proof.
  split; [|split; [|split]].
  - intros m. split.
    + unfold IntIdPipe.transform, MAX_POSTGRES_INT.
      destruct (Nat.ltb_spec 10 (String.length (pretty n))); [done|].
      rewrite parseInt_pretty.
      destruct (Z.leb_spec (Z.of_N n) 0); [done|].
      destruct (Z.ltb_spec 2147483647 (Z.of_N n)); [done|].
      intros [= <-]. split; [done|lia].
    + intros [-> Hrange]. apply IntIdPipe_accepts_numerals. lia.
  - by intros ->.
  - intros Hn. unfold IntIdPipe.transform, MAX_POSTGRES_INT.
    assert (String.length (pretty n) ≤ 10)%nat as Hlen.
    { apply pretty_N_length; [|lia].
      change (10 ^ N.of_nat 10)%N with 10000000000%N. lia. }
    apply Nat.nlt_ge, Nat.ltb_nlt in Hlen as ->.
    rewrite parseInt_pretty.
    destruct (Z.leb_spec (Z.of_N n) 0); [lia|].
    destruct (Z.ltb_spec 2147483647 (Z.of_N n)); [done|lia].
  - intros Hn. unfold IntIdPipe.transform, MAX_POSTGRES_INT.
    destruct (10 <? String.length (pretty n))%nat; [by eexists|].
    rewrite parseInt_pretty.
    destruct (Z.leb_spec (Z.of_N n) 0); [by eexists|].
    destruct (Z.ltb_spec 2147483647 (Z.of_N n)); [by eexists|lia].
Qed.

(** X6.  [StringIdPipe.transform] returns exactly when the string has from
    1 to [maxLength] characters, both bounds included, and then it returns
    the string as it is; the empty string is reported as missing whatever
    the maximal length is, and every failure is a [BadRequestException]
    whose message starts with the name of the field. *)
Theorem StringIdPipe_transform_returns_iff (name : string) (maxLength : Z)
    (value : string) :
  (∀ v, StringIdPipe.transform name maxLength value = Ret v
        ↔ v = value ∧ 1 ≤ Z.of_nat (String.length value) ≤ maxLength)
  ∧ (value = "" → StringIdPipe.transform name maxLength value
       = Throw (BadRequestException (name +:+ " is required")))
  ∧ ((∃ v, StringIdPipe.transform name maxLength value = Ret v)
     ∨ (∃ text, StringIdPipe.transform name maxLength value
                = Throw (BadRequestException (name +:+ text)))).
Proof.
  unfold StringIdPipe.transform. split; [|split].
  - intros v. destruct (String.eqb_spec value "") as [->|Hne].
    + split; [done|]. simpl. lia.
    + assert (1 ≤ Z.of_nat (String.length value)) by (destruct value; [done|simpl; lia]).
      destruct (Z.ltb_spec maxLength (Z.of_nat (String.length value))).
      * split; [done|lia].
      * split; [intros [= <-]; split; [done|lia]|by intros [-> _]].
  - by intros ->.
  - destruct (String.eqb value ""); [right; by eexists|].
    destruct (maxLength <? _); [right; by eexists|left; by eexists].
Qed.

(** ** The transform functions *)

(** X7.  [copyFrom] returns the current value or the value of the source
    field.  With [overwrite] false, a defined current value is kept and an
    undefined one is replaced by the source field, whatever [copyUndefined]
    is: that option matters only when the current value may be overwritten
    by an undefined source field.  With the options omitted, the source
    field is copied whenever it is defined. *)
Theorem copyFrom_options (source : string) (h : heap) (value : val) (obj : loc) :
  let newValue := get_prop h (VRef obj) source in
  (∀ copyUndefined,
     copyFrom source (Some false) copyUndefined h value obj
     = if is_undefined value then newValue else value)
  ∧ (∀ overwrite,
       copyFrom source overwrite (Some true) h value obj
       = if negb (default true overwrite) && negb (is_undefined value)
         then value else newValue)
  ∧ copyFrom source None None h value obj
    = (if is_undefined newValue then value else newValue)
  ∧ (∀ overwrite copyUndefined,
       copyFrom source overwrite copyUndefined h value obj ≠ value →
       copyFrom source overwrite copyUndefined h value obj = newValue
       ∧ (is_undefined newValue = true →
          is_undefined value = false ∧ default true overwrite = true
          ∧ copyUndefined = Some true)).
Proof.
  intros newValue. unfold copyFrom. fold newValue.
  split; [|split; [|split]].
  - intros [[]|]; simpl; destruct value, newValue; done.
  - intros [[]|]; simpl; destruct value, newValue; done.
  - simpl. destruct value, newValue; done.
  - intros [[]|] [[]|]; simpl; destruct value, newValue; done.
Qed.

(** X8.  The conversions between the empty values compose as follows:
    [undefinedToNull] after [nullToUndefined], and the other way round,
    do not give the value back but send both [null] and [undefined] to one
    of them; the result of [undefinedToNull] is never [undefined], that of
    [nullToUndefined] never [null]; and replacing the empty string by
    [null] and then [null] by [undefined] is the same as replacing [null]
    and then the empty string by [undefined], which leaves none of the
    three empty values but [undefined]. *)
Theorem empty_value_conversions (value : val) :
  undefinedToNull (nullToUndefined value) = undefinedToNull value
  ∧ nullToUndefined (undefinedToNull value) = nullToUndefined value
  ∧ undefinedToNull value ≠ VUndefined
  ∧ nullToUndefined value ≠ VNull
  ∧ nullToUndefined (emptyStringToNull value)
    = emptyStringToUndefined (nullToUndefined value)
  ∧ undefinedToNull (emptyStringToUndefined value)
    = emptyStringToNull (undefinedToNull value)
  ∧ (nullToUndefined (emptyStringToNull value) = VUndefined
     ↔ value = VUndefined ∨ value = VNull ∨ value = VStr "").
Proof.
  repeat split; try by destruct value.
  - destruct value as [| | | |s|]; simpl; try done.
    by destruct (String.eqb s "").
  - destruct value as [| | | |s|]; simpl; try done.
    by destruct (String.eqb s "").
  - destruct value as [| | | |s|]; simpl; try done; [by left|by right; left|].
    destruct (String.eqb_spec s "") as [->|He]; [by right; right|done].
  - intros [->|[->| ->]]; done.
Qed.

(** *** White space at the ends of a string *)

Fixpoint no_white (s : string) : bool :=
  match s with
  | String c s' => negb (is_white_space c) && no_white s'
  | EmptyString => true
  end.

Lemma trim_end_all_white ws : all_white ws = true → trim_end ws = "".
Proof.
  induction ws as [|c ws IH]; [done|]. simpl.
  intros [-> Hws]%andb_true_iff. by rewrite IH.
Qed.

Lemma trim_end_split s : ∃ ws, s = trim_end s +:+ ws ∧ all_white ws = true.
Proof.
  induction s as [|c s (ws & IH & Hws)]; [by exists ""|]. simpl.
  destruct (is_white_space c) eqn:Hc; simpl.
  - destruct (String.eqb_spec (trim_end s) "") as [He|Hne].
    + exists (String c s). split; [done|]. simpl. rewrite Hc. simpl.
      rewrite He, string_app_nil_l in IH. by rewrite IH.
    + exists ws. rewrite string_app_cons. by rewrite <- IH.
  - exists ws. rewrite string_app_cons. by rewrite <- IH.
Qed.

Lemma trim_end_app_white t ws :
  all_white ws = true → trim_end (t +:+ ws) = trim_end t.
Proof.
  intros Hws. induction t as [|c t IH].
  - rewrite string_app_nil_l. by apply trim_end_all_white.
  - rewrite string_app_cons. simpl. by rewrite IH.
Qed.

Lemma trim_end_no_white t : no_white t = true → trim_end t = t.
Proof.
  induction t as [|c t IH]; [done|]. simpl.
  intros [Hc Ht]%andb_true_iff. rewrite IH by done.
  apply negb_true_iff in Hc as ->. done.
Qed.

Lemma String_trim_app ws1 t ws2 :
  all_white ws1 = true → all_white ws2 = true → t ≠ "" → no_white t = true →
  String_trim (ws1 +:+ t +:+ ws2) = t.
Proof.
  intros H1 H2 Hne Ht. unfold String_trim. rewrite trim_start_app; [|done|].
  - rewrite trim_end_app_white by done. by apply trim_end_no_white.
  - rewrite head_is_app by done. destruct t as [|c t]; [done|]. simpl in *.
    apply andb_true_iff in Ht as [Hc _]. by apply negb_true_iff.
Qed.

Lemma String_trim_split s :
  ∃ ws1 ws2, s = ws1 +:+ String_trim s +:+ ws2
             ∧ all_white ws1 = true ∧ all_white ws2 = true.
Proof.
  destruct (trim_start_split s) as (ws1 & Hs & Hws1 & _).
  destruct (trim_end_split (trim_start s)) as (ws2 & Ht & Hws2).
  exists ws1, ws2. unfold String_trim. by rewrite <- Ht.
Qed.

(** *** Letters up to their case *)

Definition all_ascii : list ascii := ascii_of_nat <$> seq 0 256.

Lemma elem_of_all_ascii (c : ascii) : c ∈ all_ascii.
Proof.
  rewrite <- (ascii_nat_embedding c). apply list_elem_of_fmap_2, elem_of_seq.
  pose proof (nat_ascii_bounded c). lia.
Qed.

Lemma forallb_all_ascii (P : ascii → bool) :
  forallb P all_ascii = true → ∀ c, P c = true.
Proof.
  intros H c. rewrite forallb_forall in H. apply H, list_elem_of_In.
  apply elem_of_all_ascii.
Qed.

(** [c] is the letter [d], in lower or in upper case; [d] is a lower-case
    letter of the English alphabet. *)
Definition same_letter (c d : ascii) : bool :=
  Ascii.eqb c d
  || (let n := nat_of_ascii c in
      (65 <=? n) && (n <=? 90) && (n + 32 =? nat_of_ascii d))%nat.

Fixpoint case_variant (t u : string) : bool :=
  match t, u with
  | String c t', String d u' => same_letter c d && case_variant t' u'
  | EmptyString, EmptyString => true
  | _, _ => false
  end.

Definition is_lower_letter (d : ascii) : bool :=
  let n := nat_of_ascii d in ((97 <=? n) && (n <=? 122))%nat.

Fixpoint lower_letters (u : string) : bool :=
  match u with
  | String d u' => is_lower_letter d && lower_letters u'
  | EmptyString => true
  end.

Lemma toLowerCase_char_letter (c d : ascii) :
  is_lower_letter d = true →
  Ascii.eqb (toLowerCase_char c) d = same_letter c d
  ∧ (same_letter c d = true → is_white_space c = false).
Proof.
  intros Hd.
  assert (forallb (λ d, forallb (λ c,
            implb (is_lower_letter d)
              (Bool.eqb (Ascii.eqb (toLowerCase_char c) d) (same_letter c d)
               && implb (same_letter c d) (negb (is_white_space c))))
            all_ascii) all_ascii = true) as Hall by (vm_compute; reflexivity).
  apply forallb_all_ascii with (c := d) in Hall.
  apply forallb_all_ascii with (c := c) in Hall.
  rewrite Hd in Hall. simpl in Hall. apply andb_true_iff in Hall as [H1 H2].
  apply Bool.eqb_prop in H1. split; [done|].
  intros Hs. rewrite Hs in H2. simpl in H2. by apply negb_true_iff.
Qed.

Lemma toLowerCase_eqb (t u : string) :
  lower_letters u = true → String.eqb (toLowerCase t) u = case_variant t u.
Proof.
  revert t. induction u as [|d u IH]; intros [|c t]; try done.
  simpl. intros [Hd Hu]%andb_true_iff.
  destruct (toLowerCase_char_letter c d Hd) as [-> _]. by rewrite IH.
Qed.

Lemma case_variant_no_white (t u : string) :
  lower_letters u = true → case_variant t u = true → no_white t = true.
Proof.
  revert t. induction u as [|d u IH]; intros [|c t]; try done.
  simpl. intros [Hd Hu]%andb_true_iff [Hc Ht]%andb_true_iff.
  destruct (toLowerCase_char_letter c d Hd) as [_ ->]; [|done].
  simpl. by apply IH.
Qed.

(** The strings that [trim] and [toLowerCase] turn into the word [u]. *)
Lemma normalises_to (s u : string) :
  u ≠ "" → lower_letters u = true →
  String.eqb (toLowerCase (String_trim s)) u = true
  ↔ ∃ ws1 t ws2, s = ws1 +:+ t +:+ ws2 ∧ all_white ws1 = true
                 ∧ all_white ws2 = true ∧ case_variant t u = true.
Proof.
  intros Hne Hu. split.
  - rewrite toLowerCase_eqb by done. intros Hcase.
    destruct (String_trim_split s) as (ws1 & ws2 & Hs & H1 & H2).
    by exists ws1, (String_trim s), ws2.
  - intros (ws1 & t & ws2 & -> & H1 & H2 & Hcase).
    rewrite String_trim_app; try done.
    + by rewrite toLowerCase_eqb.
    + intros ->. by destruct u.
    + by eapply case_variant_no_white.
Qed.

(** X9.  [stringToBoolean] returns a value that is not a string as it is.
    On a string it returns [true] exactly when the string is the word
    "true", its letters in either case, between white space, and [false]
    exactly when it is the word "false" written so; on every other string it
    fails, and the message quotes the string trimmed and in lower case. *)
Theorem stringToBoolean_cases (key : string) :
  (∀ v, typeof v ≠ TString → stringToBoolean v key = Ret v)
  ∧ (∀ s b, stringToBoolean (VStr s) key = Ret (VBool b)
       ↔ ∃ ws1 t ws2, s = ws1 +:+ t +:+ ws2 ∧ all_white ws1 = true
                      ∧ all_white ws2 = true
                      ∧ case_variant t (if b then "true" else "false") = true)
  ∧ (∀ s, (∃ b, stringToBoolean (VStr s) key = Ret (VBool b))
          ∨ stringToBoolean (VStr s) key
            = Throw (Error ("Value of " +:+ key
                            +:+ " must be 'true' or 'false' but got "
                            +:+ toLowerCase (String_trim s)))).
Proof.
  split; [by intros [| | | | |]|]. split.
  - intros s b.
    pose proof (normalises_to s "true") as Ht.
    pose proof (normalises_to s "false") as Hf.
    simpl. destruct b.
    + rewrite <- Ht by done.
      destruct (String.eqb (toLowerCase (String_trim s)) "true"); [done|].
      by destruct (String.eqb (toLowerCase (String_trim s)) "false").
    + rewrite <- Hf by done.
      destruct (String.eqb_spec (toLowerCase (String_trim s)) "true") as [->|_];
        [done|].
      by destruct (String.eqb (toLowerCase (String_trim s)) "false").
  - intros s. simpl.
    destruct (String.eqb (toLowerCase (String_trim s)) "true");
      [left; by exists true|].
    destruct (String.eqb (toLowerCase (String_trim s)) "false");
      [left; by exists false|by right].
Qed.

(** *** Cutting a string at a separator *)

(** [pieces.join(separator)] for an array of strings. *)
Fixpoint String_join (separator : string) (pieces : list string) : string :=
  match pieces with
  | [] => ""
  | [piece] => piece
  | piece :: rest => piece +:+ separator +:+ String_join separator rest
  end.

(** [separator] occurs in [s]. *)
Definition occurs_in (separator s : string) : Prop :=
  ∃ pre post, s = pre +:+ separator +:+ post.

Lemma strip_prefix_Some p s post :
  strip_prefix p s = Some post → s = p +:+ post.
Proof.
  revert s. induction p as [|a p IH]; intros s; simpl.
  - by intros [= ->].
  - destruct s as [|b s]; [done|].
    destruct (Ascii.eqb_spec a b) as [->|_]; [|done].
    intros ->%IH. done.
Qed.

Lemma split_at_first_Some sep s pre post :
  split_at_first sep s = Some (pre, post) → s = pre +:+ sep +:+ post.
Proof.
  revert pre. induction s as [|c s IH]; intros pre.
  - simpl. destruct (strip_prefix sep "") as [p|] eqn:Hp; [|done].
    intros [= <- <-]. by apply strip_prefix_Some in Hp.
  - rewrite split_at_first_cons.
    destruct (strip_prefix sep (String c s)) as [p|] eqn:Hp.
    + intros [= <- <-]. by apply strip_prefix_Some in Hp.
    + destruct (split_at_first sep s) as [[pre' post']|]; [|done].
      simpl. intros [= <- <-]. rewrite string_app_cons. f_equal. by apply IH.
Qed.

(** The occurrence found is the first one. *)
Lemma split_at_first_occurs sep a x :
  ∃ pre post, split_at_first sep (a +:+ sep +:+ x) = Some (pre, post)
              ∧ (String.length pre ≤ String.length a)%nat.
Proof.
  induction a as [|c a (pre & post & IH & Hle)].
  - rewrite string_app_nil_l. exists "", x. split; [|done].
    destruct (sep +:+ x) as [|c r] eqn:E.
    + simpl. destruct sep; [|done]. rewrite string_app_nil_l in E.
      by subst.
    + rewrite split_at_first_cons, <- E. by rewrite strip_prefix_app.
  - rewrite string_app_cons, split_at_first_cons.
    destruct (strip_prefix sep (String c (a +:+ sep +:+ x))) as [p|].
    + exists "", p. split; [done|]. simpl. lia.
    + rewrite IH. simpl. exists (String c pre), post. split; [done|].
      simpl. lia.
Qed.

Lemma split_at_first_None sep s :
  split_at_first sep s = None ↔ ¬ occurs_in sep s.
Proof.
  split.
  - intros Hnone (a & x & ->).
    destruct (split_at_first_occurs sep a x) as (? & ? & ? & _). congruence.
  - intros Hno. destruct (split_at_first sep s) as [[pre post]|] eqn:E; [|done].
    exfalso. apply Hno. exists pre, post. by apply split_at_first_Some.
Qed.

Lemma split_at_first_pre sep s pre post :
  sep ≠ "" → split_at_first sep s = Some (pre, post) → ¬ occurs_in sep pre.
Proof.
  intros Hne Hs (a & b & ->).
  pose proof (split_at_first_Some _ _ _ _ Hs) as ->.
  rewrite !string_app_assoc in Hs.
  destruct (split_at_first_occurs sep a (b +:+ sep +:+ post))
    as (pre' & post' & Hs' & Hle).
  rewrite Hs in Hs'. injection Hs' as <- _.
  rewrite !string_app_length in Hle.
  destruct sep; [done|]. simpl in Hle. lia.
Qed.

(** The pieces of a string: cut at the separator and free of it, they give
    the string back when they are joined. *)
Lemma String_split_at_spec cuts sep s :
  sep ≠ "" → (String.length s ≤ cuts)%nat →
  String_split_at cuts sep s ≠ []
  ∧ String_join sep (String_split_at cuts sep s) = s
  ∧ Forall (λ piece, ¬ occurs_in sep piece) (String_split_at cuts sep s).
Proof.
  intros Hne. revert s. induction cuts as [|cuts IH]; intros s Hlen.
  - destruct s; [|simpl in Hlen; lia]. simpl.
    destruct (strip_prefix sep "") as [p|] eqn:Hp.
    { apply strip_prefix_Some in Hp. by destruct sep. }
    split; [done|]. split; [done|]. constructor; [|done].
    intros (a & b & Hab). by destruct a, sep.
  - simpl. destruct (split_at_first sep s) as [[pre post]|] eqn:Hs.
    + pose proof (split_at_first_Some _ _ _ _ Hs) as Heq.
      destruct (IH post) as (Hnil & Hjoin & Hfree).
      { subst s. rewrite !string_app_length in Hlen.
        destruct sep; [done|]. simpl in Hlen. lia. }
      split; [done|]. split.
      * simpl. destruct (String_split_at cuts sep post) eqn:E; [done|].
        rewrite Hjoin. done.
      * constructor; [|done]. by eapply split_at_first_pre.
    + split; [done|]. split; [done|]. constructor; [|done].
      by apply split_at_first_None.
Qed.

(** Cutting a string built from pieces gives the pieces back, when the
    separator is a single character. *)
Fixpoint char_free (c : ascii) (s : string) : bool :=
  match s with
  | String a s' => negb (Ascii.eqb c a) && char_free c s'
  | EmptyString => true
  end.

Lemma split_at_first_char_free c piece :
  char_free c piece = true → split_at_first (String c "") piece = None.
Proof.
  induction piece as [|a piece IH]; [done|]. simpl char_free.
  intros [Ha Hp]%andb_true_iff. apply negb_true_iff in Ha.
  rewrite split_at_first_cons, strip_prefix_cons_ne by done.
  by rewrite IH.
Qed.

Lemma split_at_first_char c piece rest :
  char_free c piece = true →
  split_at_first (String c "") (piece +:+ String c rest) = Some (piece, rest).
Proof.
  induction piece as [|a piece IH].
  - intros _. rewrite string_app_nil_l, split_at_first_cons.
    simpl. by rewrite Ascii.eqb_refl.
  - simpl char_free. intros [Ha Hp]%andb_true_iff. apply negb_true_iff in Ha.
    rewrite string_app_cons, split_at_first_cons, strip_prefix_cons_ne by done.
    by rewrite IH.
Qed.

Lemma String_split_at_join c pieces cuts :
  pieces ≠ [] → Forall (λ piece, char_free c piece = true) pieces →
  (String.length (String_join (String c "") pieces) ≤ cuts)%nat →
  String_split_at cuts (String c "") (String_join (String c "") pieces) = pieces.
Proof.
  intros Hne Hfree. revert cuts.
  induction Hfree as [|piece pieces Hp Hfree IH]; [done|]. intros cuts Hlen.
  destruct pieces as [|piece' pieces].
  - simpl String_join. destruct cuts; simpl;
      by rewrite split_at_first_char_free.
  - change (String_join (String c "") (piece :: piece' :: pieces))
      with (piece +:+ String c "" +:+ String_join (String c "") (piece' :: pieces))
      in *.
    set (rest := String_join (String c "") (piece' :: pieces)) in *.
    rewrite string_app_cons, string_app_nil_l in *.
    rewrite string_app_length in Hlen. simpl String.length in Hlen.
    destruct cuts as [|cuts]; [lia|]. simpl String_split_at.
    rewrite split_at_first_char by done. f_equal. apply IH; [done|lia].
Qed.

(** X10.  [stringToArray] with string elements, the default: a value that is
    not a string is returned as it is.  With a delimiter that is not the
    empty string (a comma unless one is given), a string is cut at the
    delimiter into pieces free of the delimiter, at least one, that joined
    by the delimiter give the string back, and the new array holds the
    pieces trimmed, in their order.  With the empty string as delimiter,
    the pieces are the characters of the string, one by one, and there is
    none for the empty string.  When the delimiter is a single character,
    every non-empty list of pieces free of it is obtained from its join. *)
Theorem stringToArray_strings (Number : string → option val)
    (delimiter : option string) (key : string) :
  let separator := default "," delimiter in
  (∀ v, typeof v ≠ TString →
        stringToArray Number delimiter None v key = Ret (SameValue v))
  ∧ (separator ≠ "" → ∀ s, ∃ pieces,
       stringToArray Number delimiter None (VStr s) key
       = Ret (NewArray (VStr <$> (String_trim <$> pieces)))
       ∧ pieces ≠ [] ∧ String_join separator pieces = s
       ∧ Forall (λ piece, ¬ occurs_in separator piece) pieces)
  ∧ (separator = "" → ∀ s,
       stringToArray Number delimiter None (VStr s) key
       = Ret (NewArray (VStr <$> (String_trim <$> String_chars s)))
       ∧ length (String_chars s) = String.length s)
  ∧ (∀ c pieces, separator = String c "" → pieces ≠ [] →
       Forall (λ piece, char_free c piece = true) pieces →
       stringToArray Number delimiter None
         (VStr (String_join separator pieces)) key
       = Ret (NewArray (VStr <$> (String_trim <$> pieces)))).
Proof.
  intros separator. split; [by intros [| | | | |]|]. split; [|split].
  - intros Hne s. exists (String_split s separator).
    split; [done|]. unfold String_split.
    destruct (String.eqb_spec separator "") as [|_]; [done|].
    by apply String_split_at_spec.
  - intros Hsep s. split.
    + simpl. fold separator. by rewrite Hsep.
    + induction s as [|c s IH]; [done|]. simpl. by rewrite IH.
  - intros c pieces Hsep Hne Hfree. simpl. fold separator. rewrite Hsep.
    unfold String_split. simpl String.eqb.
    by rewrite String_split_at_join.
Qed.

Example stringToArray_examples (Number : string → option val) :
  stringToArray Number None None (VStr "a, b ,c") "tags"
  = Ret (NewArray [VStr "a"; VStr "b"; VStr "c"])
  ∧ stringToArray Number None None (VStr "") "tags" = Ret (NewArray [VStr ""])
  ∧ stringToArray Number None None (VStr ",a,,") "tags"
    = Ret (NewArray [VStr ""; VStr "a"; VStr ""; VStr ""])
  ∧ stringToArray Number (Some "::") None (VStr "a::b:c") "tags"
    = Ret (NewArray [VStr "a"; VStr "b:c"])
  ∧ stringToArray Number None None (VNum 5) "tags" = Ret (SameValue (VNum 5))
  ∧ stringToArray Number (Some "") None (VStr "a b") "tags"
    = Ret (NewArray [VStr "a"; VStr ""; VStr "b"])
  ∧ stringToArray Number (Some "") None (VStr "") "tags" = Ret (NewArray []).
Proof. repeat split. Qed.

(** *** The elements of a number array *)

Lemma map_to_numbers_fails Number key index items i item :
  items !! i = Some item → Number item = None →
  (∀ j x, (j < i)%nat → items !! j = Some x → is_Some (Number x)) →
  map_to_numbers Number key index items
  = Throw (Error (msg_not_a_number key (index + i) item)).
Proof.
  revert index i. induction items as [|x items IH]; intros index i; [done|].
  destruct i as [|i]; simpl.
  - intros [= ->] -> _. by rewrite Nat.add_0_r.
  - intros Hi Hitem Hbefore.
    destruct (Hbefore 0%nat x) as [num Hnum]; [lia|done|]. rewrite Hnum.
    rewrite (IH (S index) i); [|done|done|].
    + simpl. by rewrite Nat.add_succ_r.
    + intros j y Hj Hy. apply (Hbefore (S j)); [lia|done].
Qed.

Lemma map_to_numbers_returns Number key index items :
  (∀ x, x ∈ items → is_Some (Number x)) →
  ∃ nums, map_to_numbers Number key index items = Ret nums
          ∧ Forall2 (λ x num, Number x = Some num) items nums.
Proof.
  revert index. induction items as [|x items IH]; intros index Hall.
  - by exists [].
  - destruct (Hall x) as [num Hnum]; [by left|].
    destruct (IH (S index)) as (nums & Hnums & Hall2).
    { intros y Hy. apply Hall. by right. }
    exists (num :: nums). simpl. rewrite Hnum, Hnums. split; [done|].
    by constructor.
Qed.

(** X11.  [stringToArray] with number elements converts the trimmed pieces
    from left to right: when every piece is a number the new array holds
    the numbers, one for each piece; otherwise it fails at the first piece
    that is not a number, and the message gives the index of that piece and
    quotes it.  Any other element type is refused, but only for a string. *)
Theorem stringToArray_numbers (Number : string → option val)
    (delimiter : option string) (key s : string) :
  let items := String_trim <$> String_split s (default "," delimiter) in
  ((∀ x, x ∈ items → is_Some (Number x)) →
   ∃ nums, stringToArray Number delimiter (Some "number") (VStr s) key
           = Ret (NewArray nums)
           ∧ Forall2 (λ x num, Number x = Some num) items nums)
  ∧ (∀ i item, items !! i = Some item → Number item = None →
       (∀ j x, (j < i)%nat → items !! j = Some x → is_Some (Number x)) →
       stringToArray Number delimiter (Some "number") (VStr s) key
       = Throw (Error ("Value of " +:+ key +:+ "[" +:+ pretty i
                       +:+ "] must be a number but got '" +:+ item +:+ "'")))
  ∧ (∀ elementType, elementType ≠ "string" → elementType ≠ "number" →
       stringToArray Number delimiter (Some elementType) (VStr s) key
       = Throw (Error ("Unknown elementType: " +:+ elementType))
       ∧ ∀ v, typeof v ≠ TString →
              stringToArray Number delimiter (Some elementType) v key
              = Ret (SameValue v)).
Proof.
  intros items. split; [|split].
  - intros Hall.
    destruct (map_to_numbers_returns Number key 0 items Hall)
      as (nums & Hnums & Hall2).
    exists nums. split; [|done]. simpl. fold items. by rewrite Hnums.
  - intros i item Hi Hitem Hbefore. simpl. fold items.
    by rewrite (map_to_numbers_fails Number key 0 items i item).
  - intros elementType H1 H2. split.
    + simpl. apply String.eqb_neq in H1 as ->.
      by apply String.eqb_neq in H2 as ->.
    + by intros [| | | | |].
Qed.

(** ** Inherited members

    An object is represented by its own enumerable properties.  In the
    sources a read [o[k]] also finds what [o] inherits: the members of
    [Object.prototype] for a plain object, those of [Array.prototype] and
    the [length] for an array; and an assignment to the key [__proto__]
    goes to the setter it inherits.  The reads and assignments of the
    sources are those of this model when no key of an object is the name
    of such a member: the statements of this part about [mergeData] and
    [mergeDefault] are about heaps of plain objects and arrays with such
    keys, and read the results at such keys.

    Outside these the source does otherwise.  In
    [mergeDefault({}, {constructor: "x"})] the read [data[key]] of line 60
    gives the function [Object], which the data inherits, and line 97
    stores it: the default value "x" is not applied.  For data that has an
    own key [__proto__], as [JSON.parse] can build, the assignment
    [result[key] = ...] of line 97 goes to the setter, and the result has
    no such key. *)

(** The names of the properties of [Object.prototype]. *)
Definition Object_prototype_names : list string :=
  [ "constructor"; "__defineGetter__"; "__defineSetter__"; "hasOwnProperty";
    "__lookupGetter__"; "__lookupSetter__"; "isPrototypeOf";
    "propertyIsEnumerable"; "toString"; "valueOf"; "__proto__";
    "toLocaleString" ].

(** [length] and the names of the properties of [Array.prototype]
    (ECMAScript 2023). *)
Definition Array_prototype_names : list string :=
  [ "length"; "constructor"; "at"; "concat"; "copyWithin"; "fill"; "find";
    "findIndex"; "findLast"; "findLastIndex"; "lastIndexOf"; "pop"; "push";
    "reverse"; "shift"; "unshift"; "slice"; "sort"; "splice"; "includes";
    "indexOf"; "join"; "keys"; "entries"; "values"; "forEach"; "filter";
    "flat"; "flatMap"; "map"; "every"; "some"; "reduce"; "reduceRight";
    "toLocaleString"; "toString"; "toReversed"; "toSorted"; "toSpliced";
    "with" ].

(** A key that no plain object and no array inherits or hides. *)
Definition ordinary_key (k : string) : bool :=
  negb (existsb (String.eqb k)
          (Object_prototype_names ++ Array_prototype_names)).

(** Every key of every object of the heap is ordinary. *)
Definition ordinary_heap (h : heap) : bool :=
  forallb (λ o, forallb ordinary_key (props o).*1) h.

(** ** Merging *)

(** No call of [mergeData] throws. *)
Lemma mergeData_no_throw fuel h data1 data2 e :
  mergeData fuel h data1 data2 ≠ Throw e.
Proof.
  revert h data1 data2 e.
  induction fuel as [|fuel IH]; intros h data1 data2 e; [done|].
  simpl.
  replace (h ++ [empty_object]) with (h ++ empty_object :: []) by done.
  assert (for_of (new_Set (Object_keys h data1 ++ Object_keys h data2))
    (mergeData_body (mergeData fuel) data1 data2 (length h))
    (h ++ [empty_object]) ≠ Throw e) as Hloop.
  { eapply for_of_builds_no_throw;
      [by apply mergeData_body_builds, mergeData_allocates| |done..].
    intros o ext key e' Ha Hf. unfold mergeData_body.
    set (hc := h ++ o :: ext).
    destruct (_ && _ && _ && _).
    - destruct (mergeData fuel hc _ _) as [[r h1]| |] eqn:Hc; simpl;
        [|exfalso; by eapply IH|done].
      destruct (nested_call_intro _ _ _ _ _ _ _ _
                  (mergeData_allocates fuel) Hc) as (more & -> & _).
      by rewrite assign_middle.
    - subst hc. destruct (negb _); by rewrite assign_middle. }
  destruct (for_of _ _ _); simpl; [done|congruence|done].
Qed.

(** A key that an object does not have reads as [undefined]. *)
Lemma get_prop_not_key h v k : k ∉ Object_keys h v → get_prop h v k = VUndefined.
Proof.
  intros Hnot. destruct v as [| | | | |l]; try done. simpl in *.
  rewrite elem_of_keys in Hnot.
  destruct (props_get k (props (deref h l))); [|done].
  exfalso. by apply Hnot.
Qed.

(** X12.  On a heap of plain objects and arrays whose keys are ordinary,
    [mergeData] of two objects, the first with an acyclic object graph,
    returns a new object that is not an array and leaves every object of
    the heap as it was.  The keys of the result are those of the two
    objects.  At an ordinary key where the two values are not both objects,
    the result holds the value of the second object when that is defined
    and the value of the first otherwise (a reference is shared, not
    copied); where they are both objects, arrays included, it holds a new
    object that is not an array. *)
Theorem mergeData_merges_keys (fuel n : nat) (h : heap) (data1 data2 : loc) :
  ordinary_heap h = true →
  acyclic n h (VRef data1) = true → valid h (VRef data2) → (n < fuel)%nat →
  ∃ output h',
    mergeData fuel h (VRef data1) (VRef data2) = Ret (VRef output, h')
    ∧ h !! output = None ∧ h `prefix_of` h'
    ∧ Array_isArray h' (VRef output) = false
    ∧ (∀ k, k ∈ Object_keys h' (VRef output) ↔
            k ∈ Object_keys h (VRef data1) ∨ k ∈ Object_keys h (VRef data2))
    ∧ (∀ k, ordinary_key k = true →
            both_objects (get_prop h (VRef data1) k)
                         (get_prop h (VRef data2) k) = false →
            get_prop h' (VRef output) k
            = if is_undefined (get_prop h (VRef data2) k)
              then get_prop h (VRef data1) k else get_prop h (VRef data2) k)
    ∧ (∀ k, both_objects (get_prop h (VRef data1) k)
                         (get_prop h (VRef data2) k) = true →
            ∃ merged, get_prop h' (VRef output) k = VRef merged
                      ∧ (length h < merged)%nat
                      ∧ Array_isArray h' (VRef merged) = false).
Proof.
  intros _ Hac Hv2 Hfuel. pose proof (acyclic_valid _ _ _ Hac) as Hv1.
  destruct (mergeData_returns fuel n h (VRef data1) (VRef data2) Hac Hfuel)
    as (r & h' & Hm).
  destruct (mergeData_spec _ _ _ _ _ _ Hm)
    as (o & ext & -> & -> & Ha & Hf & Hkeys & Hst).
  exists (length h), (h ++ o :: ext). split; [done|].
  split; [by apply lookup_ge_None|]. split; [by apply prefix_app_r|].
  split; [simpl; by rewrite deref_middle|]. split; [|split].
  - intros k. rewrite <- Hkeys. simpl Object_keys at 1.
    rewrite deref_middle. apply elem_of_keys.
  - intros k _ Hboth. simpl get_prop at 1. rewrite deref_middle.
    destruct (decide (k ∈ Object_keys h (VRef data1)
                      ∨ k ∈ Object_keys h (VRef data2))) as [Hk|Hk].
    + destruct (Hst k Hk) as (x & -> & Hx). simpl.
      unfold mergeData_stores in Hx. simpl in Hx.
      specialize (Hx Hv1 Hv2). simpl in Hboth. by rewrite Hboth in Hx.
    + destruct (props_get k (props o)) as [x|] eqn:Hx.
      { exfalso. apply Hk, Hkeys. by rewrite Hx. }
      rewrite !get_prop_not_key by tauto. done.
  - intros k Hboth.
    destruct (both_objects_VRef _ _ Hboth) as (l1 & l2 & H1 & H2).
    destruct (Hst k) as (x & Hx & Hstored);
      [left; by eapply get_prop_VRef_key|].
    unfold mergeData_stores in Hstored. simpl in Hstored.
    specialize (Hstored Hv1 Hv2). simpl in Hboth. rewrite Hboth in Hstored.
    apply nested_call_fresh_plain in Hstored as (i & ox & -> & Hox & Haox & _);
      [|apply mergeData_allocates].
    exists (length h + 1 + i)%nat. simpl. rewrite deref_middle, Hx. simpl.
    split; [done|]. split; [lia|].
    erewrite deref_lookup; [done|].
    rewrite lookup_app_r by lia.
    replace (length h + 1 + i - length h)%nat with (S i) by lia. done.
Qed.

Lemma mergeData_merges_keys_witness :
  ∃ output h',
    mergeData 3 heap_two_arrays (VRef 2) (VRef 3) = Ret (VRef output, h')
    ∧ heap_two_arrays !! output = None ∧ heap_two_arrays `prefix_of` h'
    ∧ Array_isArray h' (VRef output) = false
    ∧ (∀ k, k ∈ Object_keys h' (VRef output) ↔
            k ∈ Object_keys heap_two_arrays (VRef 2)
            ∨ k ∈ Object_keys heap_two_arrays (VRef 3))
    ∧ (∀ k, ordinary_key k = true →
            both_objects (get_prop heap_two_arrays (VRef 2) k)
                         (get_prop heap_two_arrays (VRef 3) k) = false →
            get_prop h' (VRef output) k
            = if is_undefined (get_prop heap_two_arrays (VRef 3) k)
              then get_prop heap_two_arrays (VRef 2) k
              else get_prop heap_two_arrays (VRef 3) k)
    ∧ (∀ k, both_objects (get_prop heap_two_arrays (VRef 2) k)
                         (get_prop heap_two_arrays (VRef 3) k) = true →
            ∃ merged, get_prop h' (VRef output) k = VRef merged
                      ∧ (length heap_two_arrays < merged)%nat
                      ∧ Array_isArray h' (VRef merged) = false).
Proof.
  apply (mergeData_merges_keys 3 2 heap_two_arrays 2 3).
  - reflexivity.
  - reflexivity.
  - simpl. unfold lt. repeat constructor.
  - unfold lt. apply le_n.
Defined.

(** X13.  On a heap of plain objects and arrays whose keys are ordinary,
    [mergeData] of two objects returns when the object graph of the first
    is acyclic, and [mergeDefault] of two objects returns when the object
    graph of the default is acyclic: the assignments they make are to the
    object they have just created, and the two [throw] statements of
    [mergeDefault] are not reached, whatever the arrays contain. *)
Theorem merge_functions_return (fuel n : nat) (h : heap) (a b : loc) :
  ordinary_heap h = true → (n < fuel)%nat →
  (acyclic n h (VRef a) = true → valid h (VRef b) →
     ∃ r h', mergeData fuel h (VRef a) (VRef b) = Ret (r, h'))
  ∧ (valid h (VRef a) → acyclic n h (VRef b) = true →
     ∃ r h', mergeDefault fuel h (VRef a) (VRef b) = Ret (r, h')).
Proof.
  intros _ Hfuel. split.
  - intros Hac _. by eapply mergeData_returns.
  - intros _ Hac. by eapply mergeDefault_returns.
Qed.

Lemma merge_functions_return_witness :
  (acyclic 2 heap_array_of_object (VRef 2) = true →
   valid heap_array_of_object (VRef 4) →
     ∃ r h', mergeData 4 heap_array_of_object (VRef 2) (VRef 4) = Ret (r, h'))
  ∧ (valid heap_array_of_object (VRef 2) →
     acyclic 2 heap_array_of_object (VRef 4) = true →
     ∃ r h', mergeDefault 4 heap_array_of_object (VRef 2) (VRef 4) = Ret (r, h')).
Proof.
  apply (merge_functions_return 4 2 heap_array_of_object 2 4).
  - reflexivity.
  - unfold lt. repeat constructor.
Defined.

(** X27.  On a heap of plain objects and arrays whose keys are ordinary,
    for data and a default instance whose object graph is acyclic,
    [mergeDefault] returns an object that has every key of the default
    instance and every key of the data; at every ordinary key whose default
    value is not an object (a scalar, [null] or nothing), it holds the
    data's value when that is defined and the default value otherwise. *)
Theorem mergeDefault_keys_and_scalars
    (fuel n : nat) (h : heap) (data defaultData : val) :
  ordinary_heap h = true →
  valid h data → acyclic n h defaultData = true → (n < fuel)%nat →
  ∃ result h',
    mergeDefault fuel h data defaultData = Ret (VRef result, h')
    ∧ (∀ k, k ∈ Object_keys h defaultData ∨ k ∈ Object_keys h data →
            k ∈ Object_keys h' (VRef result))
    ∧ (∀ k, ordinary_key k = true →
            instanceof_Object (get_prop h defaultData k) = false →
            get_prop h' (VRef result) k =
            if is_undefined (get_prop h data k)
            then get_prop h defaultData k else get_prop h data k).
Proof.
  intros _ Hvd Hac Hfuel.
  destruct (mergeDefault_returns fuel n h data defaultData Hac Hfuel)
    as (r & h' & Hm).
  destruct (mergeDefault_spec _ _ _ _ _ _ Hm)
    as (o & ext & -> & -> & Ha & Hf & Hspec).
  destruct Hspec as [Hkeys Hst]; [done|by eapply acyclic_valid|].
  exists (length h), (h ++ o :: ext). split; [done|]. split.
  - intros k Hk. simpl. rewrite deref_middle. apply elem_of_keys, Hkeys. tauto.
  - intros k _ Hscalar. simpl. rewrite deref_middle.
    destruct (decide (k ∈ Object_keys h data ∨ k ∈ Object_keys h defaultData))
      as [Hk|Hk].
    + destruct (Hst k Hk) as (x & -> & Hx). simpl.
      unfold mergeDefault_stores in Hx. simpl in Hx. rewrite Hscalar in Hx.
      apply Hx; [done|by eapply acyclic_valid].
    + destruct (props_get k (props o)) as [x|] eqn:Hx.
      { exfalso. apply Hk, Hkeys. by rewrite Hx. }
      simpl.
      assert (∀ v, k ∉ Object_keys h v → get_prop h v k = VUndefined) as Hun.
      { intros [| | | | |l] Hnot; try done. simpl in *.
        rewrite elem_of_keys in Hnot.
        destruct (props_get k (props (deref h l))); [|done].
        exfalso. by apply Hnot. }
      rewrite !Hun by tauto. done.
Qed.

Lemma mergeDefault_keys_and_scalars_witness :
  ∃ result h',
    mergeDefault 3 heap_config (VRef 2) (VRef 1) = Ret (VRef result, h')
    ∧ (∀ k, k ∈ Object_keys heap_config (VRef 1)
            ∨ k ∈ Object_keys heap_config (VRef 2) →
            k ∈ Object_keys h' (VRef result))
    ∧ (∀ k, ordinary_key k = true →
            instanceof_Object (get_prop heap_config (VRef 1) k) = false →
            get_prop h' (VRef result) k =
            if is_undefined (get_prop heap_config (VRef 2) k)
            then get_prop heap_config (VRef 1) k
            else get_prop heap_config (VRef 2) k).
Proof.
  apply (mergeDefault_keys_and_scalars 3 2 heap_config (VRef 2) (VRef 1)).
  - reflexivity.
  - simpl. unfold lt. repeat constructor.
  - reflexivity.
  - unfold lt. apply le_n.
Defined.

(** *** Nested calls of [mergeDefault] *)

(** What a nested call of [mergeDefault] has returned, read in the heap the
    enclosing call returns; [a] and [b] are read in the heap of the nested
    call. *)
Lemma mergeDefault_nested fuel h0 op e0 e1 o ext a b x :
  mergeDefault fuel (h0 ++ op :: e0) a b = Ret (x, h0 ++ op :: e0 ++ e1) →
  (e0 ++ e1) `prefix_of` ext →
  valid (h0 ++ op :: e0) a → valid (h0 ++ op :: e0) b →
  ∃ merged om,
    x = VRef merged ∧ (length h0 < merged)%nat
    ∧ (h0 ++ o :: ext) !! merged = Some om
    ∧ isArray om = false
    ∧ (∀ k, k ∈ (props om).*1 ↔
            k ∈ Object_keys (h0 ++ op :: e0) a
            ∨ k ∈ Object_keys (h0 ++ op :: e0) b)
    ∧ (∀ k, instanceof_Object (get_prop (h0 ++ op :: e0) b k) = false →
            k ∈ Object_keys (h0 ++ op :: e0) a
            ∨ k ∈ Object_keys (h0 ++ op :: e0) b →
            props_get k (props om) =
            Some (if is_undefined (get_prop (h0 ++ op :: e0) a k)
                  then get_prop (h0 ++ op :: e0) b k
                  else get_prop (h0 ++ op :: e0) a k)).
Proof.
  intros Hc Hpre Hva Hvb.
  destruct (mergeDefault_spec _ _ _ _ _ _ Hc)
    as (om & e2 & -> & Heq & Ha & Hf & Hspec).
  destruct Hspec as [Hkeys Hst]; [done..|].
  rewrite <- app_assoc in Heq. simpl in Heq.
  apply app_inv_head in Heq. injection Heq as Heq.
  apply app_inv_head in Heq.
  exists (length (h0 ++ op :: e0)), om. split; [done|].
  split; [rewrite length_app; simpl; lia|].
  split.
  { erewrite <- (nested_result_lookup h0 o e0 e1 ext) by done.
    f_equal. rewrite !length_app. done. }
  split; [done|]. split.
  - intros k. by rewrite elem_of_keys, Hkeys.
  - intros k Hscalar Hk. destruct (Hst k Hk) as (x' & -> & Hx').
    unfold mergeDefault_stores in Hx'. simpl in Hx'.
    rewrite Hscalar in Hx'. by rewrite Hx'.
Qed.

(** The recursive call made for a key whose data value is not kept: it
    merges a new empty object, allocated just before, with [b]. *)
Definition fresh_call (call : heap → val → val → outcome (val * heap))
    (h0 : heap) (b x : val) (ext : list object) : Prop :=
  ∃ op e0 e1,
    call (h0 ++ op :: e0 ++ [empty_object]) (VRef (length (h0 ++ op :: e0))) b
    = Ret (x, h0 ++ op :: (e0 ++ [empty_object]) ++ e1)
    ∧ ((e0 ++ [empty_object]) ++ e1) `prefix_of` ext.

Definition mergeDefault_discards
    (call : heap → val → val → outcome (val * heap))
    (h0 : heap) (data defaultData : val)
    (key : string) (x : val) (ext : list object) : Prop :=
  valid h0 data → valid h0 defaultData →
  let value := get_prop h0 data key in
  let defaultValue := get_prop h0 defaultData key in
  valid h0 value → instanceof_Object defaultValue = true →
  keeps_data_value h0 value = false →
  fresh_call call h0 defaultValue x ext.

Lemma mergeDefault_discards_monotone call h0 data defaultData :
  monotone (mergeDefault_discards call h0 data defaultData).
Proof.
  intros k x ext more H Hv1 Hv2. simpl. intros Hv Hobj Hkeep.
  destruct (H Hv1 Hv2 Hv Hobj Hkeep) as (op & e0 & e1 & Hc & Hpre).
  exists op, e0, e1. split; [done|]. by apply prefix_app_r.
Qed.

Lemma mergeDefault_body_builds_discards call data defaultData h0 :
  allocates call →
  builds (mergeDefault_body call data defaultData (length h0)) h0
         (mergeDefault_discards call h0 data defaultData).
Proof.
  intros Hcall o ext key h' Ha Hf Hbody.
  destruct (mergeDefault_body_builds call data defaultData h0 Hcall
              o ext key h' Ha Hf Hbody) as (x & more & -> & _).
  exists x, more. split; [done|].
  intros Hv1 Hv2. simpl. intros Hv Hobj Hkeep.
  revert Hbody. unfold mergeDefault_body.
  set (hc := h0 ++ o :: ext).
  assert (get_prop hc data key = get_prop h0 data key) as ->
    by by apply get_prop_app.
  assert (get_prop hc defaultData key = get_prop h0 defaultData key) as ->
    by by apply get_prop_app.
  rewrite truthy_instanceof_Object, Hobj.
  fold (keeps_data_value hc (get_prop h0 data key)).
  assert (keeps_data_value hc (get_prop h0 data key) = false) as ->.
  { unfold keeps_data_value in *. subst hc. by rewrite Array_isArray_app. }
  simpl. intros ([merged h2] & Hc & Hassign)%bind_Ret_inv.
  destruct (Hcall _ _ _ _ _ Hc) as (ox & e2 & -> & -> & _ & _).
  subst hc. rewrite <- !app_assoc in Hassign. simpl in Hassign.
  rewrite assign_middle in Hassign by done. injection Hassign as Heq.
  apply app_inv_head in Heq. injection Heq as _ Hprops Hext.
  apply (f_equal (props_get key)) in Hprops.
  rewrite !props_get_set_eq in Hprops. injection Hprops as <-.
  exists o, ext, (ox :: e2). split.
  - rewrite <- !app_assoc in Hc. simpl in Hc. rewrite Hc.
    do 2 f_equal. by rewrite <- !app_assoc.
  - rewrite <- Hext. by rewrite <- !app_assoc.
Qed.

(** The keys of a returning call of [mergeDefault] whose data value is
    discarded. *)
Lemma mergeDefault_spec_discards fuel h data defaultData r o ext :
  mergeDefault fuel h data defaultData = Ret (r, h ++ o :: ext) →
  ∀ k, k ∈ Object_keys h data ∨ k ∈ Object_keys h defaultData →
    valid h data → valid h defaultData →
    ∃ x, props_get k (props o) = Some x
         ∧ mergeDefault_discards (mergeDefault_rec fuel) h data defaultData
             k x ext.
Proof.
  destruct fuel as [|fuel]; [done|].
  simpl. intros (hf & Hloop & [= _ Hhf])%bind_Ret_inv k Hk Hv1 Hv2.
  replace (h ++ [empty_object]) with (h ++ empty_object :: []) in Hloop by done.
  eapply for_of_builds in Hloop
    as (o' & more & -> & Ha & Hf & Hout & Hin);
    [|by apply mergeDefault_body_builds_discards, mergeDefault_allocates
     |apply mergeDefault_discards_monotone|done..].
  apply app_inv_head in Hhf. injection Hhf as -> ->.
  apply Hin. rewrite !Object_keys_app by done.
  by apply elem_of_new_Set, elem_of_app.
Qed.

(** X14.  When the default value at a key is an array, [mergeDefault]
    returns a result that holds at that key a new object that is not an
    array, whatever the data holds there: the test for an object comes
    first and an array passes it. *)
Theorem mergeDefault_array_default_becomes_object
    (fuel n : nat) (h : heap) (data defaultData : val) (key : string) :
  valid h data → acyclic n h defaultData = true → (n < fuel)%nat →
  Array_isArray h (get_prop h defaultData key) = true →
  ∃ result h' l,
    mergeDefault fuel h data defaultData = Ret (VRef result, h')
    ∧ get_prop h' (VRef result) key = VRef l ∧ (length h < l)%nat
    ∧ Array_isArray h' (VRef l) = false.
Proof.
  intros Hvd Hac Hfuel Harr.
  destruct (mergeDefault_returns fuel n h data defaultData Hac Hfuel)
    as (r & h' & Hm).
  destruct (mergeDefault_array_default_gives_plain_object
              _ _ _ _ _ _ key Hvd Harr Hm) as (l & Hl & Hnew & Hplain).
  destruct (mergeDefault_spec _ _ _ _ _ _ Hm) as (o & ext & -> & _).
  by exists (length h), h', l.
Qed.

Lemma mergeDefault_array_default_becomes_object_witness :
  ∃ result h' l,
    mergeDefault 3 heap_array_default (VRef 4) (VRef 2) = Ret (VRef result, h')
    ∧ get_prop h' (VRef result) "k" = VRef l
    ∧ (length heap_array_default < l)%nat
    ∧ Array_isArray h' (VRef l) = false.
Proof.
  apply (mergeDefault_array_default_becomes_object
           3 2 heap_array_default (VRef 4) (VRef 2) "k").
  - simpl. unfold lt. repeat constructor.
  - reflexivity.
  - unfold lt. apply le_n.
  - reflexivity.
Defined.

(** X15.  On a heap of plain objects and arrays whose keys are ordinary:
    where the default value at a key is an object and the data value is an
    object other than an array, [mergeDefault] merges the two in turn: the
    result holds at that key a new object, whose keys are those of the two
    objects and which, at every ordinary key whose default value is not an
    object, holds the data value when that is defined and the default
    value otherwise. *)
Theorem mergeDefault_merges_nested_objects
    (fuel n : nat) (h : heap) (data defaultData : val) (key : string)
    (v d : loc) :
  ordinary_heap h = true →
  valid h data → acyclic n h defaultData = true → (n < fuel)%nat →
  get_prop h data key = VRef v → (v < length h)%nat →
  Array_isArray h (VRef v) = false →
  get_prop h defaultData key = VRef d →
  ∃ result h' merged,
    mergeDefault fuel h data defaultData = Ret (VRef result, h')
    ∧ get_prop h' (VRef result) key = VRef merged
    ∧ (length h < merged)%nat
    ∧ Array_isArray h' (VRef merged) = false
    ∧ (∀ k, k ∈ Object_keys h' (VRef merged) ↔
            k ∈ Object_keys h (VRef v) ∨ k ∈ Object_keys h (VRef d))
    ∧ (∀ k, ordinary_key k = true →
            instanceof_Object (get_prop h (VRef d) k) = false →
            get_prop h' (VRef merged) k
            = if is_undefined (get_prop h (VRef v) k)
              then get_prop h (VRef d) k else get_prop h (VRef v) k).
Proof.
  intros _ Hvd Hac Hfuel Hv Hvv Hplain Hd.
  pose proof (acyclic_valid _ _ _ Hac) as Hvdef.
  assert (valid h (VRef d)) as Hvdd.
  { destruct (acyclic_child n h [] defaultData key d Hac)
      as (m & _ & Hm); [by rewrite app_nil_r|].
    rewrite app_nil_r in Hm. by eapply acyclic_valid. }
  destruct (mergeDefault_returns fuel n h data defaultData Hac Hfuel)
    as (r & h' & Hm).
  destruct (mergeDefault_spec _ _ _ _ _ _ Hm)
    as (o & ext & -> & -> & Ha & Hf & Hspec).
  destruct Hspec as [Hkeys Hst]; [done..|].
  destruct (Hst key) as (x & Hx & Hstored);
    [left; by eapply get_prop_VRef_key|].
  unfold mergeDefault_stores in Hstored. simpl in Hstored.
  rewrite Hv, Hd in Hstored. simpl in Hstored.
  destruct (Hstored Hvd Hvdef) as (objValue & Hn & Hobj).
  rewrite Hobj in Hn; [|done|by unfold keeps_data_value; rewrite Hplain].
  destruct Hn as (op & e0 & e1 & Hc & Hpre).
  destruct (mergeDefault_nested _ _ _ _ _ o _ _ _ _ Hc Hpre)
    as (merged & om & -> & Hnew & Hom & Haom & Hkom & Hvom);
    [simpl in *; rewrite length_app; lia..|].
  rewrite !Object_keys_app in Hkom, Hvom by done.
  exists (length h), (h ++ o :: ext), merged. split; [done|].
  split; [simpl; by rewrite deref_middle, Hx|]. split; [done|].
  split; [simpl; by rewrite (deref_lookup _ _ _ Hom)|]. split.
  - intros k. rewrite <- Hkom. simpl Object_keys at 1.
    by rewrite (deref_lookup _ _ _ Hom).
  - intros k _ Hscalar. simpl get_prop at 1.
    rewrite (deref_lookup _ _ _ Hom).
    destruct (decide (k ∈ Object_keys h (VRef v) ∨ k ∈ Object_keys h (VRef d)))
      as [Hk|Hk].
    + rewrite Hvom; [|by rewrite get_prop_app|done].
      by rewrite !get_prop_app.
    + destruct (props_get k (props om)) as [y|] eqn:Hy.
      { exfalso. apply Hk, Hkom, elem_of_keys. by rewrite Hy. }
      rewrite !get_prop_not_key by tauto. done.
Qed.

(** [defaultData = {db: {name: "x", size: 1}, port: 80}] and
    [data = {db: {name: "y"}}]. *)
Definition heap_nested_config : heap :=
  [ Obj false false [("name", VStr "x"); ("size", VNum 1)];
    Obj false false [("db", VRef 0); ("port", VNum 80)];
    Obj false false [("name", VStr "y")];
    Obj false false [("db", VRef 2)] ].

Lemma mergeDefault_merges_nested_objects_witness :
  ∃ result h' merged,
    mergeDefault 3 heap_nested_config (VRef 3) (VRef 1) = Ret (VRef result, h')
    ∧ get_prop h' (VRef result) "db" = VRef merged
    ∧ (length heap_nested_config < merged)%nat
    ∧ Array_isArray h' (VRef merged) = false
    ∧ (∀ k, k ∈ Object_keys h' (VRef merged) ↔
            k ∈ Object_keys heap_nested_config (VRef 2)
            ∨ k ∈ Object_keys heap_nested_config (VRef 0))
    ∧ (∀ k, ordinary_key k = true →
            instanceof_Object (get_prop heap_nested_config (VRef 0) k) = false →
            get_prop h' (VRef merged) k
            = if is_undefined (get_prop heap_nested_config (VRef 2) k)
              then get_prop heap_nested_config (VRef 0) k
              else get_prop heap_nested_config (VRef 2) k).
Proof.
  apply (mergeDefault_merges_nested_objects
           3 2 heap_nested_config (VRef 3) (VRef 1) "db" 2 0).
  - reflexivity.
  - simpl. unfold lt. repeat constructor.
  - reflexivity.
  - unfold lt. apply le_n.
  - reflexivity.
  - simpl. unfold lt. repeat constructor.
  - reflexivity.
  - reflexivity.
Defined.

Example mergeDefault_nested_config :
  mergeDefault 3 heap_nested_config (VRef 3) (VRef 1) =
  Ret (VRef 4,
       heap_nested_config
       ++ [ Obj false false [("db", VRef 5); ("port", VNum 80)];
            Obj false false [("name", VStr "y"); ("size", VNum 1)] ]).
Proof. reflexivity. Qed.

(** X16.  On a heap of plain objects and arrays whose keys are ordinary:
    where the default value at a key is an object and the data value is
    not an object, or is an array, the data value is discarded: the
    result holds at that key a new object that is not an array, with the
    keys of the default value and, at every ordinary key whose default
    value is not an object, that default value. *)
Theorem mergeDefault_discards_non_objects
    (fuel n : nat) (h : heap) (data defaultData : val) (key : string) (d : loc) :
  ordinary_heap h = true →
  valid h data → acyclic n h defaultData = true → (n < fuel)%nat →
  get_prop h defaultData key = VRef d →
  valid h (get_prop h data key) →
  instanceof_Object (get_prop h data key) = false
  ∨ Array_isArray h (get_prop h data key) = true →
  ∃ result h' merged,
    mergeDefault fuel h data defaultData = Ret (VRef result, h')
    ∧ get_prop h' (VRef result) key = VRef merged
    ∧ (length h < merged)%nat
    ∧ Array_isArray h' (VRef merged) = false
    ∧ (∀ k, k ∈ Object_keys h' (VRef merged) ↔ k ∈ Object_keys h (VRef d))
    ∧ (∀ k, ordinary_key k = true →
            instanceof_Object (get_prop h (VRef d) k) = false →
            get_prop h' (VRef merged) k = get_prop h (VRef d) k).
Proof.
  intros _ Hvd Hac Hfuel Hd Hvv Hnot.
  pose proof (acyclic_valid _ _ _ Hac) as Hvdef.
  assert (valid h (VRef d)) as Hvdd.
  { destruct (acyclic_child n h [] defaultData key d Hac)
      as (m & _ & Hm); [by rewrite app_nil_r|].
    rewrite app_nil_r in Hm. by eapply acyclic_valid. }
  assert (keeps_data_value h (get_prop h data key) = false) as Hkeep.
  { unfold keeps_data_value. destruct Hnot as [-> | ->];
      by rewrite ?andb_false_r. }
  destruct (mergeDefault_returns fuel n h data defaultData Hac Hfuel)
    as (r & h' & Hm).
  destruct (mergeDefault_spec _ _ _ _ _ _ Hm)
    as (o & ext & -> & -> & Ha & Hf & _).
  destruct (mergeDefault_spec_discards _ _ _ _ _ _ _ Hm key)
    as (x & Hx & Hdis); [right; by eapply get_prop_VRef_key|done..|].
  unfold mergeDefault_discards in Hdis. simpl in Hdis. rewrite Hd in Hdis.
  destruct (Hdis Hvd Hvdef Hvv eq_refl Hkeep) as (op & e0 & e1 & Hc & Hpre).
  set (fresh := length (h ++ op :: e0)) in *.
  assert (deref (h ++ op :: e0 ++ [empty_object]) fresh = empty_object)
    as Hfresh.
  { apply deref_lookup. subst fresh.
    replace (h ++ op :: e0 ++ [empty_object])
      with ((h ++ op :: e0) ++ empty_object :: []) by by rewrite <- app_assoc.
    by apply list_lookup_middle. }
  assert (valid (h ++ op :: e0 ++ [empty_object]) (VRef d)) as Hvd'.
  { simpl in *. rewrite length_app. lia. }
  destruct (mergeDefault_nested _ h op (e0 ++ [empty_object]) e1 o ext
              _ _ _ Hc Hpre)
    as (merged & om & -> & Hnew & Hom & Haom & Hkom & Hvom); [|done|].
  { subst fresh. simpl. rewrite !length_app. simpl. rewrite length_app.
    simpl. lia. }
  exists (length h), (h ++ o :: ext), merged. split; [done|].
  split; [simpl; by rewrite deref_middle, Hx|]. split; [done|].
  split; [simpl; by rewrite (deref_lookup _ _ _ Hom)|].
  assert (∀ k, k ∈ (props om).*1 ↔ k ∈ Object_keys h (VRef d)) as Hkeys.
  { intros k. rewrite Hkom. simpl Object_keys at 1. rewrite Hfresh. simpl.
    rewrite elem_of_nil, deref_app_l by done. tauto. }
  split.
  - intros k. rewrite <- Hkeys. simpl Object_keys at 1.
    by rewrite (deref_lookup _ _ _ Hom).
  - intros k _ Hscalar. simpl get_prop at 1.
    rewrite (deref_lookup _ _ _ Hom).
    destruct (decide (k ∈ Object_keys h (VRef d))) as [Hk|Hk].
    + rewrite Hvom.
      * simpl get_prop at 1. rewrite Hfresh. simpl.
        by rewrite deref_app_l.
      * by rewrite get_prop_app.
      * right. by rewrite Object_keys_app.
    + destruct (props_get k (props om)) as [y|] eqn:Hy.
      { exfalso. apply Hk, Hkeys, elem_of_keys. by rewrite Hy. }
      by rewrite get_prop_not_key.
Qed.

Lemma mergeDefault_discards_non_objects_witness :
  ∃ result h' merged,
    mergeDefault 3 heap_array_default (VRef 4) (VRef 2) = Ret (VRef result, h')
    ∧ get_prop h' (VRef result) "k" = VRef merged
    ∧ (length heap_array_default < merged)%nat
    ∧ Array_isArray h' (VRef merged) = false
    ∧ (∀ k, k ∈ Object_keys h' (VRef merged) ↔
            k ∈ Object_keys heap_array_default (VRef 1))
    ∧ (∀ k, ordinary_key k = true →
            instanceof_Object (get_prop heap_array_default (VRef 1) k) = false →
            get_prop h' (VRef merged) k
            = get_prop heap_array_default (VRef 1) k).
Proof.
  apply (mergeDefault_discards_non_objects
           3 2 heap_array_default (VRef 4) (VRef 2) "k" 1).
  - reflexivity.
  - simpl. unfold lt. repeat constructor.
  - reflexivity.
  - unfold lt. apply le_n.
  - reflexivity.
  - simpl. unfold lt. repeat constructor.
  - right. reflexivity.
Defined.

(** ** Freezing *)

Lemma freezes_lookup_r h h' l o' :
  freezes h h' → h' !! l = Some o' →
  ∃ o, h !! l = Some o ∧ frozen_version o o'.
Proof. intros H Ho. by eapply Forall2_lookup_r. Qed.

(** Freezing removes no path and adds none. *)
Lemma reach_freezes_inv h h' v l :
  freezes h h' → reach h' v l → reach h v l.
Proof.
  intros H. induction 1 as [l|l o' v l' Ho' Hv _ IH]; [constructor|].
  destruct (freezes_lookup_r _ _ _ _ H Ho') as (o & Ho & Hp & _).
  eapply reach_step; [done| |done]. by rewrite <- Hp.
Qed.

Lemma deepFreeze_object fuel h l :
  deepFreeze (S fuel) h (VRef l) =
  h2 ← for_of (Object_values (Object_freeze h (VRef l)) (VRef l))
          (λ hi value, '(_, hi') ← deepFreeze fuel hi value; Ret hi')
          (Object_freeze h (VRef l));
  Ret (VRef l, h2).
Proof. reflexivity. Qed.

Lemma Object_freeze_lookup_ne h l l' :
  l ≠ l' → Object_freeze h (VRef l) !! l' = h !! l'.
Proof. intros Hne. simpl. by apply list_lookup_insert_ne. Qed.

(** The loop of [deepFreeze], for recursive calls that freeze and leave
    alone what the value they are given does not reach. *)
Lemma deepFreeze_loop_local (call : heap → val → outcome (val * heap)) vs :
  (∀ hi v r hi', call hi v = Ret (r, hi') →
     freezes hi hi' ∧ ∀ l, ¬ reach hi v l → hi' !! l = hi !! l) →
  ∀ hi h',
    for_of vs (λ hi value, '(_, hi') ← call hi value; Ret hi') hi = Ret h' →
    freezes hi h'
    ∧ ∀ l, (∀ v, v ∈ vs → ¬ reach hi v l) → h' !! l = hi !! l.
Proof.
  intros Hcall. induction vs as [|v vs IH]; intros hi h'; simpl.
  - intros [= <-]. split; [apply freezes_refl|done].
  - intros (h1 & Hstep & Hrest)%bind_Ret_inv.
    apply bind_Ret_inv in Hstep as ([r h1'] & Hc & [= ->]).
    destruct (Hcall _ _ _ _ Hc) as [Hf1 Hl1].
    destruct (IH _ _ Hrest) as [Hf2 Hl2].
    split; [by eapply freezes_trans|].
    intros l Hl. rewrite Hl2, Hl1; [done|apply Hl; by left|].
    intros v' Hv' Hr. apply (Hl v'); [by right|].
    by eapply reach_freezes_inv.
Qed.

Lemma deepFreeze_local fuel h obj r h' :
  deepFreeze fuel h obj = Ret (r, h') →
  r = obj ∧ freezes h h' ∧ ∀ l, ¬ reach h obj l → h' !! l = h !! l.
Proof.
  revert h obj r h'. induction fuel as [|fuel IH]; intros h obj r h'.
  - destruct obj; simpl; try done;
      intros [= <- <-]; (split; [done|]; split; [apply freezes_refl|done]).
  - destruct obj as [| | | | |l0];
      try (simpl; intros [= <- <-];
           (split; [done|]; split; [apply freezes_refl|done])).
    rewrite deepFreeze_object.
    intros (h2 & Hloop & [= <- <-])%bind_Ret_inv.
    pose proof (Object_freeze_freezes h (VRef l0)) as Hfr.
    apply (deepFreeze_loop_local (deepFreeze fuel)) in Hloop as [Hf Hl].
    2:{ intros hi v r hi' Hc. apply IH in Hc as (_ & ? & ?). done. }
    split; [done|]. split; [by eapply freezes_trans|].
    intros l Hnot.
    assert (l0 ≠ l) as Hne by (intros ->; apply Hnot; constructor).
    rewrite Hl; [by apply Object_freeze_lookup_ne|].
    intros v Hv Hr. apply Hnot.
    rewrite (Object_values_freezes _ _ _ Hfr) in Hv. simpl in Hv.
    unfold deref in Hv. destruct (h !! l0) as [o|] eqn:Ho.
    + eapply reach_step; [done..|]. by eapply reach_freezes_inv.
    + simpl in Hv. by apply elem_of_nil in Hv.
Qed.

(** X17.  Whenever [deepFreeze] returns, it returns its argument, and the
    heap differs from the one before only in that objects have been
    frozen: every object has the properties it had, and an object that the
    argument does not reach is exactly as it was. *)
Theorem deepFreeze_touches_only_reachable
    (fuel : nat) (h : heap) (obj r : val) (h' : heap) :
  deepFreeze fuel h obj = Ret (r, h') →
  r = obj ∧ length h' = length h
  ∧ (∀ l o, h !! l = Some o →
       ∃ o', h' !! l = Some o' ∧ props o' = props o ∧ isArray o' = isArray o
             ∧ (frozen o = true → frozen o' = true))
  ∧ (∀ l, ¬ reach h obj l → h' !! l = h !! l).
Proof.
  intros (Hr & Hf & Hl)%deepFreeze_local. split; [done|].
  split; [symmetry; by eapply Forall2_length|]. split; [|done].
  intros l o Ho. destruct (freezes_lookup _ _ _ _ Hf Ho) as (o' & Ho' & Hv).
  exists o'. by split.
Qed.

(** [{a: {b: 1}}] as before, and an object [{c: 2}] that it does not
    reach. *)
Definition heap_bystander : heap :=
  [ Obj false false [("b", VNum 1)];
    Obj false false [("a", VRef 0)];
    Obj false false [("c", VNum 2)] ].

Lemma deepFreeze_touches_only_reachable_witness :
  let h' := [ Obj false true [("b", VNum 1)];
              Obj false true [("a", VRef 0)];
              Obj false false [("c", VNum 2)] ] in
  VRef 1 = VRef 1 ∧ length h' = length heap_bystander
  ∧ (∀ l o, heap_bystander !! l = Some o →
       ∃ o', h' !! l = Some o' ∧ props o' = props o ∧ isArray o' = isArray o
             ∧ (frozen o = true → frozen o' = true))
  ∧ (∀ l, ¬ reach heap_bystander (VRef 1) l → h' !! l = heap_bystander !! l).
Proof.
  apply (deepFreeze_touches_only_reachable 2 heap_bystander (VRef 1)).
  reflexivity.
Defined.

(** The loop of a second run of [deepFreeze], in a heap where every call
    of the first run has been made. *)
Lemma deepFreeze_loop_again (call : heap → val → outcome (val * heap)) vs h'' :
  (∀ v, v ∈ vs → call h'' v = Ret (v, h'')) →
  for_of vs (λ hi value, '(_, hi') ← call hi value; Ret hi') h'' = Ret h''.
Proof.
  induction vs as [|v vs IH]; intros Hcall; [done|]. simpl.
  rewrite Hcall by by left. simpl. apply IH. intros v' Hv'. apply Hcall.
  by right.
Qed.

Lemma deepFreeze_loop_stable (call : heap → val → outcome (val * heap)) vs :
  (∀ hi v r hi', call hi v = Ret (r, hi') →
     freezes hi hi' ∧ ∀ h'', freezes hi' h'' → call h'' v = Ret (v, h'')) →
  ∀ hi h',
    for_of vs (λ hi value, '(_, hi') ← call hi value; Ret hi') hi = Ret h' →
    freezes hi h'
    ∧ ∀ h'' v, freezes h' h'' → v ∈ vs → call h'' v = Ret (v, h'').
Proof.
  intros Hcall. induction vs as [|v vs IH]; intros hi h'; simpl.
  - intros [= <-]. split; [apply freezes_refl|].
    by intros ?? _ ?%elem_of_nil.
  - intros (h1 & Hstep & Hrest)%bind_Ret_inv.
    apply bind_Ret_inv in Hstep as ([r h1'] & Hc & [= ->]).
    destruct (Hcall _ _ _ _ Hc) as [Hf1 Hs1].
    destruct (IH _ _ Hrest) as [Hf2 Hs2].
    split; [by eapply freezes_trans|].
    intros h'' v' Hf'' [->|Hv']%elem_of_cons; [|by apply Hs2].
    apply Hs1. by eapply freezes_trans.
Qed.

Lemma Object_freeze_frozen_id h l :
  (∀ o, h !! l = Some o → frozen o = true) → Object_freeze h (VRef l) = h.
Proof.
  intros Hfr. simpl. unfold deref. destruct (h !! l) as [o|] eqn:Ho; simpl.
  - apply list_insert_id. rewrite Ho. f_equal.
    specialize (Hfr o eq_refl). destruct o as [a f ps]. simpl in *. by subst.
  - apply list_insert_ge. by apply lookup_ge_None.
Qed.

Lemma deepFreeze_stable fuel h obj r h' :
  deepFreeze fuel h obj = Ret (r, h') →
  freezes h h' ∧ ∀ h'', freezes h' h'' → deepFreeze fuel h'' obj = Ret (obj, h'').
Proof.
  revert h obj r h'. induction fuel as [|fuel IH]; intros h obj r h'.
  - destruct obj; simpl; try done;
      intros [= <- <-]; (split; [apply freezes_refl|done]).
  - destruct obj as [| | | | |l0];
      try (simpl; intros [= <- <-]; (split; [apply freezes_refl|done])).
    rewrite deepFreeze_object.
    intros (h2 & Hloop & [= <- <-])%bind_Ret_inv.
    pose proof (Object_freeze_freezes h (VRef l0)) as Hfr.
    apply (deepFreeze_loop_stable (deepFreeze fuel)) in Hloop as [Hf Hs];
      [|by apply IH].
    split; [by eapply freezes_trans|].
    intros h'' Hf''. rewrite deepFreeze_object.
    assert (freezes (Object_freeze h (VRef l0)) h'') as Hf1
      by by eapply freezes_trans.
    rewrite Object_freeze_frozen_id.
    + rewrite (Object_values_freezes _ _ _ Hf1).
      rewrite deepFreeze_loop_again; [done|].
      intros v Hv. by apply Hs.
    + intros o'' Ho''.
      destruct (freezes_lookup_r _ _ _ _ Hf1 Ho'') as (o1 & Ho1 & _ & _ & Hfz).
      apply Hfz.
      destruct (freezes_lookup_r _ _ _ _ Hfr Ho1) as (o & Ho & _).
      pose proof (Object_freeze_frozen h l0 o Ho) as Hz.
      by rewrite (deref_lookup _ _ _ Ho1) in Hz.
Qed.

(** X18.  Freezing twice is freezing once: after [deepFreeze] has returned,
    a second call on the same value returns it again and changes nothing
    in the heap. *)
Theorem deepFreeze_idempotent (fuel : nat) (h : heap) (obj r : val) (h' : heap) :
  deepFreeze fuel h obj = Ret (r, h') →
  deepFreeze fuel h' obj = Ret (obj, h').
Proof.
  intros [_ Hs]%deepFreeze_stable. apply Hs, freezes_refl.
Qed.

Lemma deepFreeze_idempotent_witness :
  let h' := [ Obj false true [("b", VNum 1)];
              Obj false true [("a", VRef 0)];
              Obj false false [("c", VNum 2)] ] in
  deepFreeze 2 h' (VRef 1) = Ret (VRef 1, h').
Proof.
  apply (deepFreeze_idempotent 2 heap_bystander (VRef 1) (VRef 1)).
  reflexivity.
Defined.

(** ** Conversions to and from DTOs *)

(** What a returning call of [mergeDefault] holds at the keys whose default
    value is not an object. *)
Lemma mergeDefault_scalars fuel h data defaultData r h' :
  mergeDefault fuel h data defaultData = Ret (r, h') →
  valid h data → valid h defaultData →
  r = VRef (length h) ∧ h `prefix_of` h'
  ∧ ∀ k, instanceof_Object (get_prop h defaultData k) = false →
         get_prop h' r k
         = if is_undefined (get_prop h data k)
           then get_prop h defaultData k else get_prop h data k.
Proof.
  intros Hm Hv1 Hv2.
  destruct (mergeDefault_spec _ _ _ _ _ _ Hm)
    as (o & ext & -> & -> & Ha & Hf & Hspec).
  destruct Hspec as [Hkeys Hst]; [done..|].
  split; [done|]. split; [by apply prefix_app_r|].
  intros k Hscalar. simpl get_prop at 1. rewrite deref_middle.
  destruct (decide (k ∈ Object_keys h data ∨ k ∈ Object_keys h defaultData))
    as [Hk|Hk].
  - destruct (Hst k Hk) as (x & -> & Hx). simpl.
    unfold mergeDefault_stores in Hx. simpl in Hx. rewrite Hscalar in Hx.
    by apply Hx.
  - destruct (props_get k (props o)) as [x|] eqn:Hx.
    { exfalso. apply Hk, Hkeys. by rewrite Hx. }
    rewrite !get_prop_not_key by tauto. done.
Qed.

(** X19.  The options [toDto] passes to [plainToInstance], the module
    constant being [{ excludeExtraneousValues: true }]: a new object, in
    which [excludeExtraneousValues] is the value the caller gives when it
    is defined and [true] otherwise, and every other option is as the
    caller gives it.  The caller's object and the constant are left as
    they were.  Without validation, the instance built with these options
    is returned. *)
Theorem toDto_transform_options
    (plainToInstance : string → val → val → heap → val * heap)
    (validateSync : heap → val → option val → list ValidationError)
    (fuel : nat) (h : heap) (dtoClass : string) (plainObj : val)
    (transformOption : option loc) (d : loc) :
  h !! d = Some (Obj false false [("excludeExtraneousValues", VBool true)]) →
  (∀ t, transformOption = Some t → (t < length h)%nat) → (1 < fuel)%nat →
  let given k :=
    match transformOption with
    | Some t => get_prop h (VRef t) k
    | None => VUndefined
    end in
  ∃ options h1,
    toDto plainToInstance validateSync (VRef d) fuel h dtoClass plainObj
          (VRef <$> transformOption) (ValidateFlag false)
    = Ret (plainToInstance dtoClass plainObj (VRef options) h1)
    ∧ h `prefix_of` h1 ∧ h !! options = None
    ∧ get_prop h1 (VRef options) "excludeExtraneousValues"
      = (if is_undefined (given "excludeExtraneousValues") then VBool true
         else given "excludeExtraneousValues")
    ∧ ∀ k, k ≠ "excludeExtraneousValues" →
           get_prop h1 (VRef options) k = given k.
Proof.
  intros Hd Hvt Hfuel given. unfold toDto.
  set (start := match VRef <$> transformOption with
                | Some o => (o, h)
                | None => let '(l, h0) := alloc h empty_object in (VRef l, h0)
                end).
  pose proof (lookup_lt_Some _ _ _ Hd) as Hdlt.
  assert (h `prefix_of` start.2 ∧ valid start.2 start.1
          ∧ (length h ≤ length start.2)%nat
          ∧ ∀ k, get_prop start.2 start.1 k = given k) as (Hpre0 & Hv0 & Hlen0 & Hg).
  { subst start given. destruct transformOption as [t|]; simpl.
    - split; [done|]. split; [by apply Hvt|done].
    - split; [by apply prefix_app_r|]. rewrite length_app. simpl.
      split; [lia|]. split; [lia|]. intros k.
      by rewrite (deref_lookup _ _ empty_object)
        by by apply list_lookup_middle. }
  assert (∀ k, get_prop start.2 (VRef d) k = get_prop h (VRef d) k) as Hgd.
  { intros k. destruct Hpre0 as [more ->]. by apply get_prop_app. }
  assert (acyclic 1 start.2 (VRef d) = true) as Hac.
  { destruct Hpre0 as [more ->]. apply acyclic_app. simpl. by rewrite Hd. }
  destruct start as [topt h0]. cbn [fst snd] in *.
  destruct (mergeDefault_returns fuel 1 h0 topt _ Hac Hfuel)
    as (r & h1 & Hm).
  rewrite Hm. simpl.
  destruct (mergeDefault_scalars _ _ _ _ _ _ Hm Hv0) as (-> & Hpre1 & Hsc);
    [simpl; lia|].
  exists (length h0), h1.
  split; [by destruct (plainToInstance _ _ _ _)|].
  split; [by etrans|]. split; [apply lookup_ge_None; lia|].
  assert (∀ k, get_prop h (VRef d) k
               = if String.eqb k "excludeExtraneousValues" then VBool true
                 else VUndefined) as Hdk.
  { intros k. simpl. rewrite (deref_lookup _ _ _ Hd). simpl.
    by destruct (String.eqb k "excludeExtraneousValues"). }
  split.
  - fold (get_prop h1 (VRef (length h0)) "excludeExtraneousValues").
    rewrite Hsc, Hg; rewrite Hgd, Hdk; done.
  - intros k Hk. apply String.eqb_neq in Hk.
    fold (get_prop h1 (VRef (length h0)) k).
    rewrite Hsc, Hg; rewrite Hgd, Hdk, Hk; [|done].
    by destruct (given k).
Qed.

(** The constant at location 0; the caller asks for
    [{ excludeExtraneousValues: false, enableImplicitConversion: true }]. *)
Definition heap_options : heap :=
  [ Obj false false [("excludeExtraneousValues", VBool true)];
    Obj false false [("excludeExtraneousValues", VBool false);
                     ("enableImplicitConversion", VBool true)];
    Obj false false [("port", VStr "80")] ].

Lemma toDto_transform_options_witness :
  let given k := get_prop heap_options (VRef 1) k in
  ∃ options h1,
    toDto (λ _ plain _ h, (plain, h)) (λ _ _ _, []) (VRef 0) 2 heap_options
          "Config" (VRef 2) (VRef <$> Some 1%nat) (ValidateFlag false)
    = Ret ((λ (_ : string) (plain _ : val) (h : heap), (plain, h))
             "Config" (VRef 2) (VRef options) h1)
    ∧ heap_options `prefix_of` h1 ∧ heap_options !! options = None
    ∧ get_prop h1 (VRef options) "excludeExtraneousValues"
      = (if is_undefined (given "excludeExtraneousValues") then VBool true
         else given "excludeExtraneousValues")
    ∧ ∀ k, k ≠ "excludeExtraneousValues" →
           get_prop h1 (VRef options) k = given k.
Proof.
  apply (toDto_transform_options (λ _ plain _ h, (plain, h)) (λ _ _ _, [])
           2 heap_options "Config" (VRef 2) (Some 1%nat) 0).
  - reflexivity.
  - intros t [= <-]. simpl. unfold lt. repeat constructor.
  - unfold lt. apply le_n.
Defined.

(** X20.  [fromDto] validates before it converts: with validation requested
    and at least one error reported for the DTO, it fails with the report,
    under the name of the class of the DTO, whatever the transform options
    are, and nothing is converted.  Otherwise it returns what
    [instanceToPlain] gives for the DTO and the merged options. *)
Theorem fromDto_validates_first
    (instanceToPlain : val → val → heap → val * heap)
    (validateSync : heap → val → option val → list ValidationError)
    (constructor_name : heap → val → string)
    (DEFAULT_TRANSFORM_OPTION : val)
    (fuel : nat) (h : heap) (dto : val) (transformOption : option val)
    (validate : validate_arg) :
  let h0 := match transformOption with
            | Some _ => h
            | None => h ++ [empty_object]
            end in
  let errors :=
    validateSync h0 dto
      (match validate with
       | ValidateOptions o => Some o
       | ValidateFlag _ => None
       end) in
  (validate_truthy validate = true → errors ≠ [] →
     fromDto instanceToPlain validateSync constructor_name
             DEFAULT_TRANSFORM_OPTION fuel h dto transformOption validate
     = Throw (Error ("DTO " +:+ constructor_name h0 dto +:+ " 驗證失敗:" +:+ LF
                     +:+ report errors)))
  ∧ (validate_truthy validate = false ∨ errors = [] →
     ∀ n, acyclic n h DEFAULT_TRANSFORM_OPTION = true → (n < fuel)%nat →
     ∃ options h1,
       mergeDefault fuel h0
         (match transformOption with
          | Some o => o
          | None => VRef (length h)
          end) DEFAULT_TRANSFORM_OPTION = Ret (options, h1)
       ∧ fromDto instanceToPlain validateSync constructor_name
                 DEFAULT_TRANSFORM_OPTION fuel h dto transformOption validate
         = Ret (instanceToPlain dto options h1)).
Proof.
  intros h0 errors. split.
  - intros Hval Herr. unfold fromDto.
    destruct transformOption as [o|]; simpl; subst h0 errors; simpl in *;
      rewrite Hval;
      (destruct (validateSync _ dto _) as [|error errors'] eqn:He; [done|]);
      simpl; by rewrite <- validation_message_report.
  - intros Hno n Hac Hfuel.
    assert (acyclic n h0 DEFAULT_TRANSFORM_OPTION = true) as Hac0.
    { subst h0. destruct transformOption; [done|by apply acyclic_app]. }
    destruct (mergeDefault_returns fuel n h0
                (match transformOption with
                 | Some o => o
                 | None => VRef (length h)
                 end) _ Hac0 Hfuel) as (options & h1 & Hm).
    exists options, h1. split; [done|]. unfold fromDto.
    destruct transformOption as [o|]; simpl; subst h0 errors; simpl in *;
      (destruct Hno as [-> | ->]; simpl; [by rewrite Hm|]);
      (destruct (validate_truthy validate); simpl; by rewrite Hm).
Qed.

Lemma Array_map_app callback index pre rest h :
  Array_map callback index (pre ++ rest) h =
  '(mapped, h1) ← Array_map callback index pre h;
  '(others, h2) ← Array_map callback (index + length pre) rest h1;
  Ret (mapped ++ others, h2).
Proof.
  revert index h. induction pre as [|item pre IH]; intros index h; simpl.
  - rewrite Nat.add_0_r. by destruct (Array_map callback index rest h) as [[]| |].
  - destruct (callback item index h) as [[mapped h1]| |]; simpl; [|done..].
    rewrite IH. replace (S index + length pre)%nat
      with (index + S (length pre))%nat by lia.
    destruct (Array_map callback (S index) pre h1) as [[ms h2]| |];
      simpl; [|done..].
    by destruct (Array_map callback _ rest h2) as [[]| |].
Qed.

Lemma Array_map_length callback index array h mapped h' :
  Array_map callback index array h = Ret (mapped, h') →
  length mapped = length array.
Proof.
  revert index h mapped h'.
  induction array as [|item array IH]; intros index h mapped h'; simpl.
  - by intros [= <- _].
  - intros ([m h1] & _ & Hrest)%bind_Ret_inv.
    apply bind_Ret_inv in Hrest as ([ms h2] & Hrest & [= <- _]).
    simpl. f_equal. by eapply IH.
Qed.

(** The only exception of [toDto] is the report of a failed validation. *)
Lemma toDto_Throw_inv
    (plainToInstance : string → val → val → heap → val * heap)
    (validateSync : heap → val → option val → list ValidationError)
    (DEFAULT_TRANSFORM_OPTION : val)
    fuel h dtoClass plainObj transformOption validate e :
  toDto plainToInstance validateSync DEFAULT_TRANSFORM_OPTION
        fuel h dtoClass plainObj transformOption validate = Throw e →
  ∃ errors, errors ≠ []
            ∧ e = Error (msg_validation_failed dtoClass (report errors)).
Proof.
  unfold toDto.
  destruct (match transformOption with
            | Some o => (o, h)
            | None => let '(l, h0) := alloc h empty_object in (VRef l, h0)
            end) as [topt h0].
  destruct (mergeDefault fuel h0 topt DEFAULT_TRANSFORM_OPTION)
    as [[options h1]| |] eqn:Hm; simpl; [| |done].
  - destruct (plainToInstance dtoClass plainObj options h1) as [instance h2].
    destruct (negb (validate_truthy validate)); [done|].
    destruct (validateSync h2 instance _) as [|error errors] eqn:He; [done|].
    simpl. intros [= <-]. exists (error :: errors). split; [done|].
    by rewrite validation_message_report.
  - intros [= <-]. by apply mergeDefault_no_throw in Hm.
Qed.

(** X21.  [toDtoList] converts the elements from left to right, each in the
    heap the previous one has left, and returns as many DTOs as there are
    elements.  When the elements before one have been converted and that
    one fails validation, the call fails, whatever follows in the list,
    and the message gives the name of the class and the index of the
    element, followed by the message of [toDto] with its report. *)
Theorem toDtoList_element_by_element
    (plainToInstance : string → val → val → heap → val * heap)
    (validateSync : heap → val → option val → list ValidationError)
    (DEFAULT_TRANSFORM_OPTION : val) (engine_text : error → string)
    (fuel : nat) (h : heap) (dtoClass : string) (before : list val)
    (transformOption : option val) (validate : validate_arg)
    (dtos : list val) (h1 : heap) :
  toDtoList plainToInstance validateSync DEFAULT_TRANSFORM_OPTION engine_text
            fuel h dtoClass before transformOption validate = Ret (dtos, h1) →
  let options := default DEFAULT_TRANSFORM_OPTION transformOption in
  length dtos = length before
  ∧ (∀ plainObj dto h2,
       toDto plainToInstance validateSync DEFAULT_TRANSFORM_OPTION
             fuel h1 dtoClass plainObj (Some options) validate = Ret (dto, h2) →
       toDtoList plainToInstance validateSync DEFAULT_TRANSFORM_OPTION
                 engine_text fuel h dtoClass (before ++ [plainObj])
                 transformOption validate
       = Ret (dtos ++ [dto], h2))
  ∧ (∀ plainObj e after,
       toDto plainToInstance validateSync DEFAULT_TRANSFORM_OPTION
             fuel h1 dtoClass plainObj (Some options) validate = Throw e →
       ∃ errors,
         errors ≠ []
         ∧ toDtoList plainToInstance validateSync DEFAULT_TRANSFORM_OPTION
                     engine_text fuel h dtoClass (before ++ plainObj :: after)
                     transformOption validate
           = Throw (Error ("轉換 " +:+ dtoClass +:+ "["
                           +:+ pretty (length before) +:+ "] 時發生錯誤:"
                           +:+ "DTO " +:+ dtoClass +:+ " 驗證失敗:" +:+ LF
                           +:+ report errors))).
Proof.
  unfold toDtoList. intros Hbefore.
  split; [by eapply Array_map_length|]. split.
  - intros plainObj dto h2 Hdto. rewrite Array_map_app, Hbefore. simpl.
    unfold toDtoList_callback. by rewrite Hdto.
  - intros plainObj e after Hthrow.
    destruct (toDto_Throw_inv _ _ _ _ _ _ _ _ _ _ Hthrow)
      as (errors & Hne & ->).
    exists errors. split; [done|].
    rewrite Array_map_app, Hbefore. simpl.
    unfold toDtoList_callback. by rewrite Hthrow.
Qed.

(** A validator that reports [errors_dto] for the object at location 1 and
    nothing for any other. *)
Definition validateSync_nested
  : heap → val → option val → list ValidationError :=
  λ _ instance _, if decide (instance = VRef 1) then errors_dto else [].

Lemma toDtoList_element_by_element_witness :
  let h1 := heap_dto
            ++ [Obj false false [("excludeExtraneousValues", VBool true)]] in
  length [VRef 2] = length [VRef 2]
  ∧ (∀ plainObj dto h2,
       toDto (λ _ plain _ h, (plain, h)) validateSync_nested (VRef 0)
             2 h1 "Config" plainObj (Some (default (VRef 0) None))
             (ValidateFlag true) = Ret (dto, h2) →
       toDtoList (λ _ plain _ h, (plain, h)) validateSync_nested (VRef 0)
                 (λ _, "") 2 heap_dto "Config" ([VRef 2] ++ [plainObj])
                 None (ValidateFlag true)
       = Ret ([VRef 2] ++ [dto], h2))
  ∧ (∀ plainObj e after,
       toDto (λ _ plain _ h, (plain, h)) validateSync_nested (VRef 0)
             2 h1 "Config" plainObj (Some (default (VRef 0) None))
             (ValidateFlag true) = Throw e →
       ∃ errors,
         errors ≠ []
         ∧ toDtoList (λ _ plain _ h, (plain, h)) validateSync_nested (VRef 0)
                     (λ _, "") 2 heap_dto "Config"
                     ([VRef 2] ++ plainObj :: after) None (ValidateFlag true)
           = Throw (Error ("轉換 " +:+ "Config" +:+ "["
                           +:+ pretty (length [VRef 2]) +:+ "] 時發生錯誤:"
                           +:+ "DTO " +:+ "Config" +:+ " 驗證失敗:" +:+ LF
                           +:+ report errors))).
Proof.
  apply (toDtoList_element_by_element
           (λ _ plain _ h, (plain, h)) validateSync_nested (VRef 0) (λ _, "")
           2 heap_dto "Config" [VRef 2] None (ValidateFlag true)).
  reflexivity.
Defined.

(** The second of three elements fails validation. *)
Example toDtoList_second_fails :
  toDtoList (λ _ plain _ h, (plain, h)) validateSync_nested (VRef 0) (λ _, "")
            2 heap_dto "Config" [VRef 2; VRef 1; VRef 2] None
            (ValidateFlag true)
  = Throw (Error
      ("轉換 Config[1] 時發生錯誤:DTO Config 驗證失敗:" +:+ LF
       +:+ "- isInt: port must be an integer number" +:+ LF
       +:+ "- min: port must not be less than 1" +:+ LF
       +:+ "- An instance of Config has failed the validation" +:+ LF)).
Proof. reflexivity. Qed.

(** ** Interpolation of the ENV file *)

Lemma replace_loop_spec fuel key value parsed parsed' :
  replace_loop fuel key value parsed = Ret parsed' →
  env_get key parsed = Some value →
  parsed'.*1 = parsed.*1
  ∧ (∀ k, k ≠ key → props_get k parsed' = props_get k parsed)
  ∧ ∃ value', env_get key parsed' = Some value' ∧ regex_exec value' = None.
Proof.
  revert value parsed.
  induction fuel as [|fuel IH]; intros value parsed; simpl.
  - destruct (regex_exec value) eqn:Hre; [done|]. intros [= <-] Hget. eauto.
  - destruct (regex_exec value) as [matchKey|] eqn:Hre;
      [|intros [= <-] Hget; eauto].
    destruct (String.eqb matchKey key); [done|].
    destruct (env_get matchKey parsed) as [replaceValue|]; [|done].
    intros Hloop Hget.
    set (value' := String_replace value ("${" +:+ matchKey +:+ "}") replaceValue)
      in *.
    destruct (IH _ _ Hloop) as (Hkeys & Hother & Hvalue).
    { unfold env_get. by rewrite props_get_set_eq. }
    split; [|split; [|done]].
    + rewrite Hkeys. unfold props_set.
      unfold env_get in Hget.
      destruct (props_get key parsed) as [x|] eqn:Hx; [|done].
      clear. induction parsed as [|[k v] parsed IHp]; [done|]. simpl.
      destruct (String.eqb_spec key k) as [->|_]; [done|]. simpl. by f_equal.
    + intros k Hk. rewrite Hother by done. by apply props_get_set_ne.
Qed.

(** The loop over the keys: what it does to the keys it visits and to the
    others. *)
Lemma replaceEnvVariable_loop fuel keys :
  ∀ parsed result parsed' result',
    for_of keys (replaceEnvVariable_body fuel) (parsed, result)
    = Ret (parsed', result') →
    parsed'.*1 = parsed.*1
    ∧ (∀ k, k ∉ keys →
         props_get k parsed' = props_get k parsed
         ∧ props_get k result' = props_get k result)
    ∧ (∀ k, k ∈ keys → env_get k parsed = None →
         props_get k parsed' = props_get k parsed
         ∧ props_get k result' = props_get k result)
    ∧ (∀ k, k ∈ keys → is_Some (env_get k parsed) →
         ∃ value, env_get k parsed' = Some value ∧ regex_exec value = None
                  ∧ props_get k result' = Some (Some value)).
Proof.
  induction keys as [|key keys IH]; intros parsed result parsed' result'.
  - simpl. intros [= <- <-]. split; [done|]. split; [done|].
    split; by intros k ?%elem_of_nil.
  - simpl. intros ([pm rm] & Hstep & Hrest)%bind_Ret_inv.
    destruct (IH _ _ _ _ Hrest) as (Hkeys & Hout & Hundef & Hdef).
    unfold replaceEnvVariable_body in Hstep.
    destruct (env_get key parsed) as [value|] eqn:Hget.
    + apply bind_Ret_inv in Hstep as (p1 & Hloop & [= <- <-]).
      destruct (replace_loop_spec _ _ _ _ _ Hloop Hget)
        as (Hk1 & Hother & value' & Hv' & Hre).
      rewrite Hv' in *.
      assert (∀ k, k ≠ key → env_get k p1 = env_get k parsed) as Hother'.
      { intros k Hk. unfold env_get. by rewrite Hother. }
      split; [congruence|]. split; [|split].
      * intros k Hk. rewrite not_elem_of_cons in Hk. destruct Hk as [Hne Hk].
        destruct (Hout k Hk) as [-> ->].
        split; [by apply Hother|]. by apply props_get_set_ne.
      * intros k Hk Hnone.
        assert (k ≠ key) as Hne by congruence.
        apply elem_of_cons in Hk as [?|Hk]; [done|].
        destruct (Hundef k Hk) as [-> ->]; [by rewrite Hother'|].
        split; [by apply Hother|]. by apply props_get_set_ne.
      * intros k Hk Hsome.
        destruct (decide (k ∈ keys)) as [Hin|Hnin].
        { apply Hdef; [done|].
          destruct (decide (k = key)) as [->|Hne]; [by rewrite Hv'|].
          by rewrite Hother'. }
        apply elem_of_cons in Hk as [->|?]; [|done].
        destruct (Hout key Hnin) as [Hp Hr].
        exists value'. unfold env_get. rewrite Hp, Hr.
        fold (env_get key p1). rewrite Hv'.
        split; [done|]. split; [done|]. apply props_get_set_eq.
    + injection Hstep as <- <-.
      split; [done|]. split; [|split].
      * intros k [_ Hk]%not_elem_of_cons. by apply Hout.
      * intros k Hk Hnone.
        destruct (decide (k ∈ keys)) as [Hin|Hnin]; [by apply Hundef|].
        by apply Hout.
      * intros k Hk Hsome.
        apply elem_of_cons in Hk as [->|Hk]; [|by apply Hdef].
        rewrite Hget in Hsome. by destruct Hsome.
Qed.

(** X22.  Whenever [replaceEnvVariable] returns, the mapping it was given
    has the keys it had, in their order; a key without a value still has
    none and is not in the result; and every key with a value is in the
    result with its final value, in which the regular expression finds no
    placeholder any more. *)
Theorem replaceEnvVariable_resolves_all (fuel : nat) (parsed result parsed' : env) :
  replaceEnvVariable fuel parsed = Ret (result, parsed') →
  parsed'.*1 = parsed.*1
  ∧ (∀ k, env_get k parsed = None →
          env_get k parsed' = None ∧ props_get k result = None)
  ∧ (∀ k, is_Some (env_get k parsed) →
          ∃ value, env_get k parsed' = Some value
                   ∧ props_get k result = Some (Some value)
                   ∧ regex_exec value = None).
Proof.
  unfold replaceEnvVariable.
  intros ([p r] & Hloop & [= <- <-])%bind_Ret_inv.
  destruct (replaceEnvVariable_loop _ _ _ _ _ _ Hloop)
    as (Hkeys & Hout & Hundef & Hdef).
  split; [done|]. split.
  - intros k Hnone. destruct (decide (k ∈ parsed.*1)) as [Hin|Hnin].
    + destruct (Hundef k Hin Hnone) as [Hp ->]. unfold env_get.
      by rewrite Hp.
    + destruct (Hout k Hnin) as [Hp ->]. unfold env_get. by rewrite Hp.
  - intros k Hsome.
    destruct (Hdef k) as (value & Hv & Hre & Hr); [|done|by exists value].
    apply elem_of_keys. unfold env_get in Hsome.
    destruct (props_get k parsed); [done|]. by destruct Hsome.
Qed.

Lemma replaceEnvVariable_resolves_all_witness :
  let parsed := [("A", Some "x"); ("U", None); ("B", Some "${A}/${A}")] in
  let parsed' := [("A", Some "x"); ("U", None); ("B", Some "x/x")] in
  let result := [("A", Some "x"); ("B", Some "x/x")] in
  parsed'.*1 = parsed.*1
  ∧ (∀ k, env_get k parsed = None →
          env_get k parsed' = None ∧ props_get k result = None)
  ∧ (∀ k, is_Some (env_get k parsed) →
          ∃ value, env_get k parsed' = Some value
                   ∧ props_get k result = Some (Some value)
                   ∧ regex_exec value = None).
Proof.
  apply (replaceEnvVariable_resolves_all 2
           [("A", Some "x"); ("U", None); ("B", Some "${A}/${A}")]).
  reflexivity.
Defined.

Lemma props_set_same {A : Type} k (v : A) ps :
  props_get k ps = Some v → props_set k v ps = ps.
Proof.
  intros Hget. unfold props_set. rewrite Hget.
  induction ps as [|[k' v'] ps IH]; [done|]. simpl in *.
  destruct (String.eqb_spec k k') as [->|_].
  - by injection Hget as ->.
  - f_equal. by apply IH.
Qed.

(** X23.  One variable of the ENV file whose value is literal text without
    dollar signs and placeholders that name other variables, the values of
    which have no dollar sign: the loop body returns, and the variable then
    has, in the mapping and in the result, its value with every placeholder
    replaced by the value of the variable it names; nothing else
    changes. *)
Theorem replaceEnvVariable_body_substitutes
    (ts : list token) (key : string) (parsed result : env) (fuel : nat) :
  env_get key parsed = Some (render ts) →
  forallb token_ok ts = true →
  (∀ k, Placeholder k ∈ ts →
        k ≠ key ∧ ∃ v, env_get k parsed = Some v ∧ no_dollar v = true) →
  (length (filter is_placeholder ts) ≤ fuel)%nat →
  replaceEnvVariable_body fuel (parsed, result) key
  = Ret (props_set key (Some (resolve parsed ts)) parsed,
         props_set key (Some (resolve parsed ts)) result).
Proof.
  intros Hget Hok Hph Hfuel. unfold replaceEnvVariable_body. rewrite Hget.
  rewrite <- (string_app_nil_l (render ts)).
  rewrite (replace_loop_resolves ts "" key parsed fuel) by done.
  rewrite !string_app_nil_l. simpl.
  destruct (existsb is_placeholder ts) eqn:Hex.
  - unfold env_get at 1. by rewrite props_get_set_eq.
  - rewrite Hget, resolve_no_placeholder by done.
    rewrite (props_set_same key (Some (render ts)) parsed); [done|].
    unfold env_get in Hget. destruct (props_get key parsed) as [x|]; [|done].
    simpl in Hget. by subst.
Qed.

Lemma replaceEnvVariable_body_substitutes_witness :
  replaceEnvVariable_body 2
    ([("HOST", Some "db"); ("PORT", Some "5432");
      ("URL", Some "pg://${HOST}:${PORT}/app")],
     [("HOST", Some "db"); ("PORT", Some "5432")]) "URL"
  = Ret (props_set "URL"
           (Some (resolve [("HOST", Some "db"); ("PORT", Some "5432");
                           ("URL", Some "pg://${HOST}:${PORT}/app")]
                    [Lit "pg://"; Placeholder "HOST"; Lit ":";
                     Placeholder "PORT"; Lit "/app"]))
           [("HOST", Some "db"); ("PORT", Some "5432");
            ("URL", Some "pg://${HOST}:${PORT}/app")],
         props_set "URL"
           (Some (resolve [("HOST", Some "db"); ("PORT", Some "5432");
                           ("URL", Some "pg://${HOST}:${PORT}/app")]
                    [Lit "pg://"; Placeholder "HOST"; Lit ":";
                     Placeholder "PORT"; Lit "/app"]))
           [("HOST", Some "db"); ("PORT", Some "5432")]).
Proof.
  apply (replaceEnvVariable_body_substitutes
           [Lit "pg://"; Placeholder "HOST"; Lit ":"; Placeholder "PORT";
            Lit "/app"]).
  - reflexivity.
  - reflexivity.
  - intros k Hk. apply list_elem_of_In in Hk. simpl in Hk.
    destruct Hk as [[=]|[[= <-]|[[=]|[[= <-]|[[=]|[]]]]]].
    + split; [done|]. by exists "db".
    + split; [done|]. by exists "5432".
  - vm_compute. repeat constructor.
Defined.

Example replaceEnvVariable_url :
  replaceEnvVariable 2
    [("HOST", Some "db"); ("PORT", Some "5432");
     ("URL", Some "pg://${HOST}:${PORT}/app")]
  = Ret ([("HOST", Some "db"); ("PORT", Some "5432");
          ("URL", Some "pg://db:5432/app")],
         [("HOST", Some "db"); ("PORT", Some "5432");
          ("URL", Some "pg://db:5432/app")]).
Proof. reflexivity. Qed.

(** ** The two readers of integers *)

(** X24.  [IntIdPipe] and [stringToInteger] read integers alike: whatever
    integer [IntIdPipe.transform] returns for a string is the number
    [stringToInteger] returns for it. *)
Theorem IntIdPipe_agrees_with_stringToInteger (name key s : string) (n : Z) :
  IntIdPipe.transform name s = Ret n →
  stringToInteger (VStr s) key = Ret (VNum n).
Proof.
  unfold IntIdPipe.transform, stringToInteger, MAX_POSTGRES_INT.
  destruct (10 <? String.length s)%nat; [done|].
  destruct (parseInt s) as [num|]; [|done].
  destruct (Z.leb_spec num 0); [done|].
  destruct (Z.ltb_spec 2147483647 num); [done|]. intros [= <-].
  rewrite to_Number_sign, to_Number_exact; [done| |lia].
  assert (2147483647 < 2 ^ 53) by done. lia.
Qed.

Lemma IntIdPipe_agrees_with_stringToInteger_witness :
  stringToInteger (VStr " 42abc") "port" = Ret (VNum 42).
Proof.
  apply (IntIdPipe_agrees_with_stringToInteger "id" "port" " 42abc" 42).
  reflexivity.
Defined.

(** ** The keys of a merged configuration *)

(** X25.  On a heap of plain objects and arrays whose keys are ordinary,
    the result of [mergeDefault] has the keys of the data and of the
    default instance and no other; it is a new object that is neither an
    array nor frozen, also when the arguments are frozen. *)
Theorem mergeDefault_result_keys
    (fuel : nat) (h : heap) (data defaultData r : val) (h' : heap) :
  ordinary_heap h = true →
  valid h data → valid h defaultData →
  mergeDefault fuel h data defaultData = Ret (r, h') →
  ∃ result o,
    r = VRef result ∧ h !! result = None ∧ h' !! result = Some o
    ∧ isArray o = false ∧ frozen o = false
    ∧ ∀ k, k ∈ Object_keys h' r ↔
           k ∈ Object_keys h data ∨ k ∈ Object_keys h defaultData.
Proof.
  intros _ Hv1 Hv2 Hm.
  destruct (mergeDefault_spec _ _ _ _ _ _ Hm)
    as (o & ext & -> & -> & Ha & Hf & Hspec).
  destruct Hspec as [Hkeys _]; [done..|].
  exists (length h), o. split; [done|].
  split; [by apply lookup_ge_None|].
  split; [by apply list_lookup_middle|]. split; [done|]. split; [done|].
  intros k. rewrite <- Hkeys. simpl. rewrite deref_middle.
  apply elem_of_keys.
Qed.

Lemma mergeDefault_result_keys_witness :
  ∃ result o,
    VRef 3 = VRef result ∧ heap_config !! result = None
    ∧ (heap_config
       ++ [ Obj false false [("port", VNum 8080); ("extra", VNull);
                             ("host", VStr "localhost");
                             ("debug", VBool false); ("db", VRef 5)];
            Obj false false [];
            Obj false false [("name", VStr "x")] ]) !! result = Some o
    ∧ isArray o = false ∧ frozen o = false
    ∧ ∀ k, k ∈ Object_keys
             (heap_config
              ++ [ Obj false false [("port", VNum 8080); ("extra", VNull);
                                    ("host", VStr "localhost");
                                    ("debug", VBool false); ("db", VRef 5)];
                   Obj false false [];
                   Obj false false [("name", VStr "x")] ]) (VRef 3) ↔
           k ∈ Object_keys heap_config (VRef 2)
           ∨ k ∈ Object_keys heap_config (VRef 1).
Proof.
  apply (mergeDefault_result_keys 3 heap_config (VRef 2) (VRef 1)).
  - reflexivity.
  - simpl. unfold lt. repeat constructor.
  - simpl. unfold lt. repeat constructor.
  - reflexivity.
Defined.

(** ** The errors of the interpolation *)

(** A variable has a value after the loop exactly when it had one. *)
Lemma replaceEnvVariable_loop_defined fuel keys parsed result parsed' result' :
  for_of keys (replaceEnvVariable_body fuel) (parsed, result)
  = Ret (parsed', result') →
  ∀ k, env_get k parsed' = None ↔ env_get k parsed = None.
Proof.
  intros (Hkeys & Hout & Hundef & Hdef)%replaceEnvVariable_loop k.
  destruct (decide (k ∈ keys)) as [Hin|Hnin].
  - destruct (env_get k parsed) as [v|] eqn:Hk.
    + destruct (Hdef k Hin) as (v' & -> & _); [by rewrite Hk|]. done.
    + destruct (Hundef k Hin Hk) as [Hp _]. unfold env_get in *.
      by rewrite Hp.
  - destruct (Hout k Hnin) as [Hp _]. unfold env_get. by rewrite Hp.
Qed.

Lemma replace_loop_throws fuel key value parsed e :
  replace_loop fuel key value parsed = Throw e →
  e = Error (msg_self_reference key)
  ∨ ∃ k, k ≠ key ∧ e = Error (msg_missing_variable k) ∧ env_get k parsed = None.
Proof.
  revert value parsed.
  induction fuel as [|fuel IH]; intros value parsed; simpl.
  - by destruct (regex_exec value).
  - destruct (regex_exec value) as [matchKey|]; [|done].
    destruct (String.eqb_spec matchKey key) as [->|Hne].
    { intros [= <-]. by left. }
    destruct (env_get matchKey parsed) as [replaceValue|] eqn:Hget.
    + intros [->|(k & Hk & -> & Hnone)]%IH; [by left|].
      right. exists k. split; [done|]. split; [done|].
      by rewrite env_get_set_ne in Hnone.
    + intros [= <-]. right. by exists matchKey.
Qed.

(** A placeholder may name a member that the parsed file inherits from
    [Object.prototype] and does not define ([toString], [hasOwnProperty],
    ...).  There [parsed[matchKey]] is the inherited member, not
    [undefined], and what the source does next is outside this model, where
    [env_get] finds nothing and the run stops with the error of a missing
    variable that names the member.  Up to such a placeholder the run of
    the source is the run of the model. *)
Definition names_inherited_member (e : error) : bool :=
  match e with
  | Error message =>
      existsb (λ k, String.eqb message (msg_missing_variable k))
              Object_prototype_names
  | _ => false
  end.

(** X26.  A run of [replaceEnvVariable] that meets no placeholder naming a
    member inherited from [Object.prototype] throws nothing but its two
    errors: the error of a variable that refers to itself, which names a
    variable of the file that has a value, and the error of a missing
    variable, which names a variable that has no value in the file. *)
Theorem replaceEnvVariable_errors (fuel : nat) (parsed : env) (e : error) :
  replaceEnvVariable fuel parsed = Throw e →
  names_inherited_member e = false →
  ∃ k, (e = Error ("不可自己引用自己 " +:+ k) ∧ is_Some (env_get k parsed))
       ∨ (e = Error ("找無環境變數 " +:+ k) ∧ env_get k parsed = None).
Proof.
  intros Hthrow _. revert Hthrow. unfold replaceEnvVariable.
  assert (∀ keys p r,
    for_of keys (replaceEnvVariable_body fuel) (p, r) = Throw e →
    ∃ k, (e = Error (msg_self_reference k) ∧ is_Some (env_get k p))
         ∨ (e = Error (msg_missing_variable k) ∧ env_get k p = None)) as Hloop.
  { induction keys as [|key keys IH]; intros p r; [done|].
    change (for_of (key :: keys) (replaceEnvVariable_body fuel) (p, r))
      with (replaceEnvVariable_body fuel (p, r) key
            ≫= for_of keys (replaceEnvVariable_body fuel)).
    destruct (replaceEnvVariable_body fuel (p, r) key) as [[p1 r1]|e'|] eqn:Hstep;
      simpl; [| |done].
    - intros (k & Hk)%IH. exists k.
      assert (env_get k p1 = None ↔ env_get k p = None) as Hdef.
      { apply (replaceEnvVariable_loop_defined fuel [key] p r p1 r1).
        cbn [for_of]. by rewrite Hstep. }
      destruct Hk as [[-> Hsome]|[-> Hnone]]; [left|right; by rewrite <- Hdef].
      split; [done|]. destruct (env_get k p) eqn:Hp; [done|].
      destruct Hdef as [_ Hdef]. rewrite Hdef in Hsome by done.
      by destruct Hsome.
    - intros [= ->]. unfold replaceEnvVariable_body in Hstep.
      destruct (env_get key p) as [value|] eqn:Hget; [|done].
      destruct (replace_loop fuel key value p) as [p1| |] eqn:Hrl;
        simpl in Hstep; [done| |done].
      injection Hstep as ->.
      apply replace_loop_throws in Hrl as [->|(k & _ & -> & Hnone)].
      + exists key. left. by rewrite Hget.
      + exists k. by right. }
  destruct (for_of parsed.*1 (replaceEnvVariable_body fuel) (parsed, []))
    as [[p r]| |] eqn:Hfor; simpl; [done| |done].
  intros [= <-]. by eapply Hloop.
Qed.

Lemma replaceEnvVariable_errors_witness :
  ∃ k, (Error (msg_missing_variable "HOST")
        = Error ("不可自己引用自己 " +:+ k)
        ∧ is_Some (env_get k [("URL", Some "pg://${HOST}"); ("HOST", None)]))
       ∨ (Error (msg_missing_variable "HOST") = Error ("找無環境變數 " +:+ k)
          ∧ env_get k [("URL", Some "pg://${HOST}"); ("HOST", None)] = None).
Proof.
  apply (replaceEnvVariable_errors 1
           [("URL", Some "pg://${HOST}"); ("HOST", None)]).
  - reflexivity.
  - reflexivity.
Defined.
